(** * notcraft: the chunked sandbox world of main.js and WorldScene.ts

    A shallow embedding of the procedural world engine: the seeded
    per-chunk random stream, the chunk generator, the chunk store with its
    world accessors, chunk streaming, the fixed-step physics tick and
    mining.

    Conventions of the embedding.
    - A JavaScript number that the code only ever uses as an integer (tile
      and chunk coordinates, loop counters, 32-bit hash words) is a [Z];
      the 32-bit wrap-around of the bit operators is written out.
    - A sample of the random stream is [u / 4294967296] for a 32-bit word
      [u]; the embedding carries the numerator [u].  Such a sample, and its
      product with the small constants of the generator, is exact in
      binary64, so the comparisons and floors of the source are integer
      facts about [u] (see [rlt], [floorMul]).
    - The player's kinematic state is binary64, as in JavaScript: the
      kernel's primitive floats.
    - A computation is a function from a state to [option (result, state)];
      [None] stands for a call that does not return normally: an exception
      (an index outside an array), a number that is not finite, or a
      [while] loop that outlives its fuel. *)

From Stdlib Require Import ZArith Lia Ascii Floats.PrimFloat Floats.FloatOps Floats.SpecFloat Uint63.
From stdpp Require Import base gmap strings list pretty.

Set Warnings "-inexact-float".
Local Open Scope Z_scope.

(** ** JavaScript's 32-bit integer operators *)

Module JS.

(** ToInt32 and ToUint32 of ECMAScript, on integers. *)
Definition ToInt32 (z : Z) : Z := (z + 2 ^ 31) mod 2 ^ 32 - 2 ^ 31.
Definition ToUint32 (z : Z) : Z := z mod 2 ^ 32.

(** [Math.imul(a, b)] *)
Definition imul (a b : Z) : Z := ToInt32 (ToInt32 a * ToInt32 b).
(** [a ^ b] *)
Definition xor (a b : Z) : Z := Z.lxor (ToInt32 a) (ToInt32 b).
(** [a | b] *)
Definition or (a b : Z) : Z := Z.lor (ToInt32 a) (ToInt32 b).
(** [a << n] *)
Definition shl (a n : Z) : Z := ToInt32 (Z.shiftl (ToInt32 a) (n mod 32)).
(** [a >>> n] *)
Definition ushr (a n : Z) : Z := Z.shiftr (ToUint32 a) (n mod 32).

(** [str.charCodeAt(i)] for each [i], in order. *)
Fixpoint charCodes (s : string) : list Z :=
  match s with
  | EmptyString => []
  | String c rest => Z.of_nat (Ascii.nat_of_ascii c) :: charCodes rest
  end.

(** [`${n}`] for an integer-valued number below 1e21 in absolute value
    (from there on JavaScript prints an exponent). *)
Definition numToString (n : Z) : string := pretty n.

End JS.

(** ** Seeded random stream per chunk (main.js) *)

(** [xmur3(str)]: the hash word after the loop over the characters. *)
Definition xmur3_init (str : string) : Z :=
  fold_left
    (fun h c =>
       let h := JS.imul (JS.xor h c) 3432918353 in
       JS.or (JS.shl h 13) (JS.ushr h 19))
    (JS.charCodes str)
    (JS.xor 1779033703 (Z.of_nat (String.length str))).

(** One call of the closure [xmur3] returns: the word produced and the
    new value of the captured [h]. *)
Definition xmur3_next (h : Z) : Z * Z :=
  let h := JS.imul (JS.xor h (JS.ushr h 16)) 2246822507 in
  let h := JS.imul (JS.xor h (JS.ushr h 13)) 3266489909 in
  let h := JS.xor h (JS.ushr h 16) in
  (JS.ushr h 0, h).

(** One call of the closure [mulberry32(a)] returns: the numerator of the
    sample (the value returned is this word over 4294967296) and the new
    value of the captured [a].  [a] is a plain number in the source: it
    grows by 0x6D2B79F5 at each call and is not wrapped (it stays an exact
    integer for the few thousand calls a chunk makes). *)
Definition mulberry32 (a : Z) : Z * Z :=
  let a := a + 0x6D2B79F5 in
  let t := a in
  let t := JS.imul (JS.xor t (JS.ushr t 15)) (JS.or t 1) in
  let t := JS.xor t (t + JS.imul (JS.xor t (JS.ushr t 7)) (JS.or t 61)) in
  (JS.ushr (JS.xor t (JS.ushr t 14)) 0, a).

(** [rngFor(seed, cx, cy)]: the initial value of the stream's captured [a]. *)
Definition rngFor (seed cx cy : Z) : Z :=
  let s := JS.numToString seed +:+ "_" +:+ JS.numToString cx +:+ "_" +:+ JS.numToString cy in
  let h := fst (xmur3_next (xmur3_init s)) in
  h.

(** A sample [u / 2^32] compared with the decimal literal [n / d] of the
    source: [rng() < n/d].  No sample lies between the literal and its
    binary64 rounding, so the comparison of the source and this one agree. *)
Definition rlt (u n d : Z) : bool := u * d <? n * 2 ^ 32.

(** [Math.floor(rng() * k)] for a positive integer [k]: the product is exact. *)
Definition floorMul (u k : Z) : Z := (u * k) / 2 ^ 32.

(** [Math.floor(rng() * (n / d))] for the literal [n / d] (2.2 in the
    source): the rounded product never reaches an integer the exact one
    does not. *)
Definition floorMulQ (u n d : Z) : Z := (u * n) / (d * 2 ^ 32).

(** ** Computations over a state that may not return *)

Definition M (S A : Type) : Type := S -> option (A * S).

Definition ret {S A} (a : A) : M S A := fun s => Some (a, s).
Definition bind {S A B} (m : M S A) (k : A -> M S B) : M S B :=
  fun s => match m s with Some (a, s') => k a s' | None => None end.
Definition throw {S A} : M S A := fun _ => None.
Definition get {S} : M S S := fun s => Some (s, s).
Definition modify {S} (f : S -> S) : M S unit := fun s => Some (tt, f s).
Definition liftOpt {S A} (o : option A) : M S A :=
  fun s => match o with Some a => Some (a, s) | None => None end.

Declare Scope m_scope.
Delimit Scope m_scope with M.
Notation "x <- m ;; k" := (bind m (fun x => k))
  (at level 100, m at next level, right associativity) : m_scope.
Notation "m ;;; k" := (bind m (fun _ => k))
  (at level 100, right associativity) : m_scope.
Local Open Scope m_scope.

(** What the body of a loop asks for next: go on with the next index, or
    [break]. Both carry the loop's local variables. *)
Inductive Flow (L : Type) : Type :=
| Next (l : L)
| Break (l : L).
Arguments Next {L} l.
Arguments Break {L} l.

(** [for (i of idx) body], with local variables [l] and [break]. *)
Fixpoint loop {S L} (idx : list Z) (l : L) (body : Z -> L -> M S (Flow L)) : M S L :=
  match idx with
  | [] => ret l
  | i :: rest =>
      f <- body i l ;;
      match f with
      | Next l' => loop rest l' body
      | Break l' => ret l'
      end
  end.

(** [for (let i = lo; i < hi; i++) body] *)
Definition for_ {S} (lo hi : Z) (body : Z -> M S unit) : M S unit :=
  loop (seqZ lo (hi - lo)) tt (fun i _ => body i ;;; ret (Next tt)).

(** The same loop whose body may [break]: it returns [true] to go on. *)
Definition forBreak {S} (idx : list Z) (body : Z -> M S bool) : M S unit :=
  loop idx tt (fun i _ => go <- body i ;; ret (if go : bool then Next tt else Break tt)).

(** ** Tiles *)

Inductive Tile : Set := AIR | GRASS | DIRT | STONE | COAL | COPPER | WOOD | LEAVES.

Global Instance Tile_eq_dec : EqDecision Tile.
Proof. solve_decision. Defined.

(** The string each member of [TILES] holds. *)
Definition TILES (t : Tile) : string :=
  match t with
  | AIR => "air" | GRASS => "grass" | DIRT => "dirt" | STONE => "stone"
  | COAL => "coal" | COPPER => "copper" | WOOD => "wood" | LEAVES => "leaves"
  end.

(** [a === b] on tiles. *)
Definition teq (a b : Tile) : bool := bool_decide (a = b).

Definition CHUNK_SIZE : Z := 32.
Definition VISIBLE_RANGE : Z := 2.
Definition TILE_SIZE : Z := 12.

(** A grid [tiles[row][col]]. *)
Abbreviation Grid := (list (list Tile)).

(** [tiles[y][x]]: [None] when [tiles[y]] is undefined (the access throws)
    or the cell is. *)
Definition cell (g : Grid) (y x : Z) : option Tile :=
  if (0 <=? y) && (0 <=? x) then
    row ← g !! Z.to_nat y; row !! Z.to_nat x
  else None.

(** [tiles[y][x] = t] inside the grid; [None] outside, where JavaScript
    throws (no row) or would lengthen the row. *)
Definition setCell (g : Grid) (y x : Z) (t : Tile) : option Grid :=
  if (0 <=? y) && (0 <=? x) then
    row ← g !! Z.to_nat y;
    if decide (Z.to_nat x < length row)%nat
    then Some (<[Z.to_nat y := <[Z.to_nat x := t]> row]> g)
    else None
  else None.

(** [new Array(size).fill(0).map(() => new Array(size).fill(TILES.AIR))]:
    every row is an array of its own. *)
Definition emptyGrid : Grid :=
  replicate (Z.to_nat CHUNK_SIZE) (replicate (Z.to_nat CHUNK_SIZE) AIR).

(** ** The chunk generator (main.js) *)

(** A chunk of the store. *)
Record Chunk : Type := mkChunk { tiles : Grid; modified : bool }.

(** What [generateChunk] mutates while it runs: the captured [a] of its
    random stream and the local array [tiles]. *)
Record GenState : Type := mkGen { gen_a : Z; gen_tiles : Grid }.

Definition Gen : Type -> Type := M GenState.

(** [rng()]: the numerator of the next sample. *)
Definition rng : Gen Z :=
  fun s => let (u, a') := mulberry32 (gen_a s) in Some (u, mkGen a' (gen_tiles s)).

(** [tiles[y][x]], read. The generator never reads outside the grid. *)
Definition readTile (y x : Z) : Gen Tile :=
  fun s => match cell (gen_tiles s) y x with Some t => Some (t, s) | None => None end.

(** [tiles[y][x] = t] *)
Definition writeTile (y x : Z) (t : Tile) : Gen unit :=
  fun s => match setCell (gen_tiles s) y x t with
           | Some g => Some (tt, mkGen (gen_a s) g)
           | None => None
           end.

(** [nx>=0 && nx<size && ny>=0 && ny<size] *)
Definition inChunk (nx ny : Z) : bool :=
  (0 <=? nx) && (nx <? CHUNK_SIZE) && (0 <=? ny) && (ny <? CHUNK_SIZE).

(** [Math.hypot(ox, oy) <= r + 0.2] for integers: squared, times 25. The
    squares of the two sides differ by 0.44 at least, far more than the
    rounding of [hypot] and of the sum. *)
Definition hypotLe (ox oy r : Z) : bool :=
  25 * (ox * ox + oy * oy) <=? (5 * r + 1) * (5 * r + 1).

(** [Math.floor(size*0.4 + rng()*size*0.5)] with [size = 32]: the floor of
    [12.8 + u / 2^28]. *)
Definition caveStartRow (u : Z) : Z := (64 * 2 ^ 28 + 5 * u) / (5 * 2 ^ 28).

(** [Math.floor(rng()*3 - 1)] *)
Definition jitter (u : Z) : Z := floorMul u 3 - 1.

Section Generator.

(** [heightBase worldX cy k] stands for
    [Math.floor(size*0.5 + Math.sin((worldX/10) + (cy/6)) * 4 + k)],
    where [k] is the value of [Math.floor(rng()*3 - 1)]: an integer, for
    finite coordinates.  The sine of the host is not modelled: every
    statement holds whatever this function is. *)
Variable heightBase : Z -> Z -> Z -> Z.

(** [CONFIG.SEED] *)
Variable SEED : Z.

(** The surface row of a column, from its sample. *)
Definition surfaceRow (cx cy x u : Z) : Z :=
  let size := CHUNK_SIZE in
  let worldX := cx * size + x in
  let base := heightBase worldX cy (jitter u) in
  Z.max 4 (Z.min (size - 6) base).

(** The loop over [y] of the first pass, for one column. *)
Definition fillColumn (x surfaceY : Z) : Gen unit :=
  for_ 0 CHUNK_SIZE (fun y =>
    if y <? surfaceY then writeTile y x AIR
    else if y =? surfaceY then writeTile y x GRASS
    else if (surfaceY <? y) && (y <? surfaceY + 4) then writeTile y x DIRT
    else writeTile y x STONE).

(** Surface height: the first loop of [generateChunk]. *)
Definition heightmapPass (cx cy : Z) : Gen unit :=
  for_ 0 CHUNK_SIZE (fun x =>
    u <- rng ;;
    fillColumn x (surfaceRow cx cy x u)).

(** The disc carved at one step of a tunnel. *)
Definition carveDisc (tx ty r : Z) : Gen unit :=
  for_ (- r) (r + 1) (fun ox =>
    for_ (- r) (r + 1) (fun oy =>
      let nx := tx + ox in
      let ny := ty + oy in
      if inChunk nx ny then
        if hypotLe ox oy r then writeTile ny nx AIR else ret tt
      else ret tt)).

(** The loop [for (let y = ty; y >= 0; y--)] that opens a tunnel upward. *)
Definition drillUp (tx ty : Z) : Gen unit :=
  forBreak (reverse (seqZ 0 (ty + 1))) (fun y =>
    t <- readTile y tx ;;
    if teq t GRASS then writeTile y tx AIR ;;; ret false
    else writeTile y tx AIR ;;; ret true).

(** One tunnel: the body of the loop over [t]. *)
Definition tunnel : Gen unit :=
  let size := CHUNK_SIZE in
  u <- rng ;;
  let tx := floorMul u size in
  u <- rng ;;
  let ty := caveStartRow u in
  u <- rng ;;
  let length := 10 + floorMul u 30 in
  p <- loop (seqZ 0 length) (tx, ty) (fun _ p =>
         let tx := fst p in
         let ty := snd p in
         u <- rng ;;
         let r := 1 + floorMulQ u 11 5 in
         carveDisc tx ty r ;;;
         u <- rng ;;
         let tx := tx + jitter u in
         u <- rng ;;
         let ty := ty + jitter u in
         let tx := Z.max 1 (Z.min (size - 2) tx) in
         let ty := Z.max 2 (Z.min (size - 3) ty) in
         ret (Next (tx, ty))) ;;
  u <- rng ;;
  if rlt u 12 100 then drillUp (fst p) (snd p) else ret tt.

(** Occasional caves. *)
Definition caves : Gen unit :=
  u <- rng ;;
  if rlt u 65 100 then
    u <- rng ;;
    let tunnels := 1 + floorMul u 2 in
    for_ 0 tunnels (fun _ => tunnel)
  else ret tt.

(** Ores: scatter coal and copper inside stone. *)
Definition ores : Gen unit :=
  for_ 0 CHUNK_SIZE (fun x =>
    for_ 0 CHUNK_SIZE (fun y =>
      t <- readTile y x ;;
      if teq t STONE then
        r <- rng ;;
        if rlt r 2 100 then writeTile y x COAL
        else if rlt r 7 1000 then writeTile y x COPPER
        else ret tt
      else ret tt)).

(** The trunk and the leaves of a tree whose grass tile is [(y, x)]. *)
Definition growTree (x y : Z) : Gen unit :=
  u <- rng ;;
  let trunk := 3 + floorMul u 3 in
  forBreak (seqZ 1 trunk) (fun t =>
    if y - t >=? 0 then writeTile (y - t) x WOOD ;;; ret true
    else ret false) ;;;
  let top := y - trunk in
  for_ (-2) 3 (fun lx =>
    for_ (-2) 2 (fun ly =>
      let nx := x + lx in
      let ny := top + ly in
      if inChunk nx ny then
        if Z.abs lx + Z.abs ly <? 4 then
          t <- readTile ny nx ;;
          if teq t AIR then writeTile ny nx LEAVES else ret tt
        else ret tt
      else ret tt)).

(** Trees: spawn trees near top surface. *)
Definition trees : Gen unit :=
  let size := CHUNK_SIZE in
  for_ 2 (size - 2) (fun x =>
    u <- rng ;;
    if rlt u 6 100 then
      forBreak (seqZ 0 (size - 1)) (fun y =>
        t <- readTile y x ;;
        if teq t GRASS then growTree x y ;;; ret false
        else ret true)
    else ret tt).

(** The state [generateChunk(cx, cy)] starts from. *)
Definition genInit (cx cy : Z) : GenState :=
  mkGen (rngFor SEED cx cy) emptyGrid.

(** The four passes, in order. *)
Definition generatePasses (cx cy : Z) : Gen unit :=
  heightmapPass cx cy ;;; caves ;;; ores ;;; trees.

(** [generateChunk(cx, cy)] *)
Definition generateChunk (cx cy : Z) : option Chunk :=
  match generatePasses cx cy (genInit cx cy) with
  | Some (_, s) => Some (mkChunk (gen_tiles s) false)
  | None => None
  end.

End Generator.

(** ** Numbers of the kinematic state: binary64 *)

Module Num.

(** [Math.floor(f)] as an integer; [None] when [f] is not finite. *)
Definition floor (f : float) : option Z :=
  match Prim2SF f with
  | S754_zero _ => Some 0
  | S754_finite s m e =>
      let v := if s then Z.neg m else Z.pos m in
      Some (if 0 <=? e then v * 2 ^ e else v / 2 ^ (- e))
  | S754_infinity _ | S754_nan => None
  end.

(** An integer below 2^53 in absolute value, as a float (exact). *)
Definition ofZ (z : Z) : float :=
  if z <? 0 then (- PrimFloat.of_uint63 (Uint63.of_Z (- z)))%float
  else PrimFloat.of_uint63 (Uint63.of_Z z).

(** [Math.floor(f)] as a number: a float of magnitude 2^53 or more, a
    zero, an infinity and NaN are their own floor. *)
Definition floorF (f : float) : float :=
  match floor f with
  | Some z => if (z =? 0) && negb (0 <? f)%float then f
              else if Z.abs z <? 2 ^ 53 then ofZ z else f
  | None => f
  end.

(** [Math.sign(f)] *)
Definition sign (f : float) : float :=
  if (0 <? f)%float then 1%float
  else if (f <? 0)%float then (-1)%float
  else f.

(** [Math.ceil(f)] as an integer: the floor of the opposite, negated;
    [None] when [f] is not finite. *)
Definition ceil (f : float) : option Z :=
  z ← floor (- f); Some (- z).

End Num.

(** ** The world: chunk store, player, pointer *)

Module Player.
Record t : Type := mk {
  x : float; y : float;        (** tile coordinates *)
  vx : float; vy : float;
  w : float; h : float;
  grounded : bool;
  inventory : gmap string Z    (** item -> count *)
}.
Definition set_x (v : float) (p : t) : t :=
  mk v (y p) (vx p) (vy p) (w p) (h p) (grounded p) (inventory p).
Definition set_y (v : float) (p : t) : t :=
  mk (x p) v (vx p) (vy p) (w p) (h p) (grounded p) (inventory p).
Definition set_vx (v : float) (p : t) : t :=
  mk (x p) (y p) v (vy p) (w p) (h p) (grounded p) (inventory p).
Definition set_vy (v : float) (p : t) : t :=
  mk (x p) (y p) (vx p) v (w p) (h p) (grounded p) (inventory p).
Definition set_grounded (b : bool) (p : t) : t :=
  mk (x p) (y p) (vx p) (vy p) (w p) (h p) b (inventory p).
Definition set_inventory (i : gmap string Z) (p : t) : t :=
  mk (x p) (y p) (vx p) (vy p) (w p) (h p) (grounded p) i.
End Player.

Module Mouse.
Record t : Type := mk { x : float; y : float; down : bool }.
End Mouse.

(** The effects the claims count, in the order they happen. *)
Inductive Event : Type :=
| EvSetTile (wx wy : Z) (t : Tile)       (** a tile written by [setTile] *)
| EvAdd (item : string) (count : Z)      (** a call of [add] on the inventory *)
| EvScheduleSave.                        (** a call of [scheduleWorldSave] *)

Record World : Type := mkWorld {
  chunks : gmap string Chunk;            (** the Map [chunks] *)
  player : Player.t;
  mouse : Mouse.t;
  canvasW : float; canvasH : float;      (** [canvas.width], [canvas.height] *)
  saveTimeout : bool;                    (** a save timer is pending *)
  events : list Event
}.

Definition set_chunks (c : gmap string Chunk) (w : World) : World :=
  mkWorld c (player w) (mouse w) (canvasW w) (canvasH w) (saveTimeout w) (events w).
Definition set_player (p : Player.t) (w : World) : World :=
  mkWorld (chunks w) p (mouse w) (canvasW w) (canvasH w) (saveTimeout w) (events w).
Definition set_saveTimeout (b : bool) (w : World) : World :=
  mkWorld (chunks w) (player w) (mouse w) (canvasW w) (canvasH w) b (events w).
Definition emit (e : Event) (w : World) : World :=
  mkWorld (chunks w) (player w) (mouse w) (canvasW w) (canvasH w) (saveTimeout w)
          (events w ++ [e]).

Definition W : Type -> Type := M World.

(** [ck(cx, cy)] *)
Definition ck (cx cy : Z) : string := JS.numToString cx +:+ "," +:+ JS.numToString cy.

(** [Math.floor(Math.floor(world) / s)] on an integer-valued [world]
    (every caller passes a floored number). *)
Definition chunkCoord (world : Z) : Z := world / CHUNK_SIZE.

(** [((Math.floor(world) % s) + s) % s]; [%] keeps the dividend's sign. *)
Definition localCoord (world : Z) : Z :=
  Z.rem (Z.rem world CHUNK_SIZE + CHUNK_SIZE) CHUNK_SIZE.

(** The string is not empty: [t && ...]. *)
Definition truthy (t : Tile) : bool := negb (bool_decide (TILES t = "")).

(** [tileSolid(t)] *)
Definition tileSolid (t : Tile) : bool :=
  truthy t && negb (teq t AIR) && negb (teq t LEAVES).

(** The pressed keys: [keys[k]] is truthy. *)
Definition Keys : Type := string -> bool.

(** [const STEP = 1/60] *)
Definition STEP : float := (1 / 60)%float.

Section Game.

Variable heightBase : Z -> Z -> Z -> Z.
Variable SEED : Z.

Definition getPlayer : W Player.t := fun w => Some (player w, w).
Definition updPlayer (f : Player.t -> Player.t) : W unit :=
  modify (fun w => set_player (f (player w)) w).

(** [ensureChunk(cx, cy)] *)
Definition ensureChunk (cx cy : Z) : W Chunk :=
  let key := ck cx cy in
  w <- get ;;
  (if bool_decide (is_Some (chunks w !! key)) then ret tt
   else c <- liftOpt (generateChunk heightBase SEED cx cy) ;;
        modify (fun w => set_chunks (<[key := c]> (chunks w)) w)) ;;;
  w <- get ;;
  liftOpt (chunks w !! key).

(** [getTile(worldX, worldY)] *)
Definition getTile (worldX worldY : Z) : W Tile :=
  let cx := chunkCoord worldX in
  let cy := chunkCoord worldY in
  chunk <- ensureChunk cx cy ;;
  let lx := localCoord worldX in
  let ly := localCoord worldY in
  liftOpt (cell (tiles chunk) ly lx).

(** [scheduleWorldSave()]: the pending timer is replaced by a new one. *)
Definition scheduleWorldSave : W unit :=
  modify (fun w => emit EvScheduleSave (set_saveTimeout true w)).

(** [setTile(worldX, worldY, tile)]: the chunk object is shared with the
    store, so the write shows in the store. *)
Definition setTile (worldX worldY : Z) (tile : Tile) : W unit :=
  let cx := chunkCoord worldX in
  let cy := chunkCoord worldY in
  chunk <- ensureChunk cx cy ;;
  let lx := localCoord worldX in
  let ly := localCoord worldY in
  g <- liftOpt (setCell (tiles chunk) ly lx tile) ;;
  modify (fun w => emit (EvSetTile worldX worldY tile)
                     (set_chunks (<[ck cx cy := mkChunk g true]> (chunks w)) w)) ;;;
  scheduleWorldSave.

(** [rectCollidesWithTiles(x, y, w, h)] *)
Definition rectCollidesWithTiles (x y w h : float) : W bool :=
  startX <- liftOpt (Num.floor (x - 0.01)) ;;
  endX <- liftOpt (Num.floor (x + w - 0.01)) ;;
  startY <- liftOpt (Num.floor (y - 0.01)) ;;
  endY <- liftOpt (Num.floor (y + h - 0.01)) ;;
  loop (seqZ startY (endY - startY + 1)) false (fun ty _ =>
    hit <- loop (seqZ startX (endX - startX + 1)) false (fun tx _ =>
             t <- getTile tx ty ;;
             if tileSolid t then ret (Break true) else ret (Next false)) ;;
    if hit : bool then ret (Break true) else ret (Next false)).

(** [streamChunksAroundPlayer()] *)
Definition streamChunksAroundPlayer : W unit :=
  let s := Num.ofZ CHUNK_SIZE in
  p <- getPlayer ;;
  pcx <- liftOpt (Num.floor (Player.x p / s)) ;;
  pcy <- liftOpt (Num.floor (Player.y p / s)) ;;
  let range := VISIBLE_RANGE in
  for_ (- range) (range + 1) (fun oy =>
    for_ (- range) (range + 1) (fun ox =>
      ensureChunk (pcx + ox) (pcy + oy) ;;; ret tt)).

(** The [while] loop of the horizontal branch: small steps toward the
    obstacle. [fuel] bounds the number of tests. *)
Fixpoint creep (fuel : nat) (sign : float) : W unit :=
  match fuel with
  | O => throw
  | S fuel' =>
      p <- getPlayer ;;
      if negb (sign =? 0)%float then
        c <- rectCollidesWithTiles (Player.x p + sign * 0.01) (Player.y p)
                                   (Player.w p) (Player.h p) ;;
        if negb c then
          updPlayer (Player.set_x (Player.x p + sign * 0.01)) ;;;
          creep fuel' sign
        else ret tt
      else ret tt
  end.

(** input: the first lines of [gameStep]. *)
Definition applyInput (keys : Keys) : W unit :=
  let speed := 6%float in
  (if keys "a" || keys "arrowleft" then updPlayer (Player.set_vx (- speed))
   else if keys "d" || keys "arrowright" then updPlayer (Player.set_vx speed)
   else updPlayer (Player.set_vx 0)) ;;;
  p <- getPlayer ;;
  if (keys "w" || keys " ") && Player.grounded p then
    updPlayer (fun p => Player.set_grounded false (Player.set_vy (-10) p))
  else ret tt.

(** horizontal collision *)
Definition horizontalCollision (fuel : nat) (nx : float) : W unit :=
  p <- getPlayer ;;
  c <- rectCollidesWithTiles nx (Player.y p) (Player.w p) (Player.h p) ;;
  if negb c then updPlayer (Player.set_x nx)
  else
    let sign := Num.sign (Player.vx p) in
    creep fuel sign ;;;
    updPlayer (Player.set_vx 0).

(** vertical collision *)
Definition verticalCollision (ny : float) : W unit :=
  p <- getPlayer ;;
  c <- rectCollidesWithTiles (Player.x p) ny (Player.w p) (Player.h p) ;;
  if negb c then
    updPlayer (fun p => Player.set_grounded false (Player.set_y ny p))
  else
    (if (0 <? Player.vy p)%float then updPlayer (Player.set_grounded true)
     else ret tt) ;;;
    updPlayer (Player.set_vy 0) ;;;
    p <- getPlayer ;;
    if (0 <=? Player.vy p)%float then
      updPlayer (Player.set_y (Num.floorF (Player.y p + Player.h p) - Player.h p))
    else ret tt.

(** The physics of [gameStep(dt)], up to the streaming call. *)
Definition physicsStep (fuel : nat) (keys : Keys) (dt : float) : W unit :=
  applyInput keys ;;;
  updPlayer (fun p => Player.set_vy (Player.vy p + 30 * dt) p) ;;;
  p <- getPlayer ;;
  let nx := (Player.x p + Player.vx p * dt)%float in
  let ny := (Player.y p + Player.vy p * dt)%float in
  horizontalCollision fuel nx ;;;
  verticalCollision ny.

(** [gameStep(dt)]; the drawing of [render()] is left out. *)
Definition gameStep (fuel : nat) (keys : Keys) (dt : float) : W unit :=
  physicsStep fuel keys dt ;;;
  streamChunksAroundPlayer.

(** [add(inv, item, count)] on the player's inventory. *)
Definition add (item : string) (count : Z) : W unit :=
  modify (fun w =>
    let inv := Player.inventory (player w) in
    let old := default 0 (inv !! item) in
    emit (EvAdd item count)
      (set_player (Player.set_inventory (<[item := old + count]> inv) (player w)) w)).

(** The tile under the pointer: [(wx, wy)] of [tickMining]. *)
Definition pointerTile (w : World) : option (Z * Z) :=
  let tw := Num.ofZ TILE_SIZE in
  let p := player w in
  let screenW := canvasW w in
  let screenH := canvasH w in
  let camX := (Player.x p * tw - screenW / 2 + (Player.w p * tw) / 2)%float in
  let camY := (Player.y p * tw - screenH / 2 + (Player.h p * tw) / 2)%float in
  wx ← Num.floor ((Mouse.x (mouse w) + camX) / tw);
  wy ← Num.floor ((Mouse.y (mouse w) + camY) / tw);
  Some (wx, wy).

(** [tickMining()] *)
Definition tickMining : W unit :=
  w <- get ;;
  if Mouse.down (mouse w) then
    pt <- liftOpt (pointerTile w) ;;
    let wx := fst pt in
    let wy := snd pt in
    tile <- getTile wx wy ;;
    if truthy tile && negb (teq tile AIR) then
      setTile wx wy AIR ;;;
      if teq tile WOOD then add "wood" 1
      else if teq tile COAL then add "coal" 1
      else if teq tile COPPER then add "copper" 1
      else if teq tile DIRT || teq tile GRASS then add "dirt" 1
      else if teq tile STONE then add "stone" 1
      else ret tt
    else ret tt
  else ret tt.

End Game.

(** ** The generator of WorldScene.ts *)

Module Scene.

(** [hashSeed(s)]: FNV-1a over the characters, as an unsigned word. *)
Definition hashSeed (s : string) : Z :=
  JS.ushr
    (fold_left (fun h c => JS.imul (JS.xor h c) 16777619)
               (JS.charCodes s)
               (JS.ushr 2166136261 0))
    0.

(** [rngFor(seed, cx, cy)]: the initial value of the captured [a] of
    [mulberry32], the same function as in main.js. *)
Definition rngFor (seed : string) (cx cy : Z) : Z :=
  hashSeed (seed +:+ ":" +:+ JS.numToString cx +:+ ":" +:+ JS.numToString cy).

Section Generator.

(** [heightBase worldX cy k] stands for
    [Math.floor(CHUNK_SIZE*0.5 + Math.sin(worldX/10 + cy/6) * 3 + k)]. *)
Variable heightBase : Z -> Z -> Z -> Z.

(** [this.seed], a string. *)
Variable seed : string.

Definition surfaceRow (cx cy x u : Z) : Z :=
  let worldX := cx * CHUNK_SIZE + x in
  let base := heightBase worldX cy (jitter u) in
  Z.max 4 (Z.min (CHUNK_SIZE - 6) base).

Definition fillColumn (x surfaceY : Z) : Gen unit :=
  for_ 0 CHUNK_SIZE (fun y =>
    if y <? surfaceY then writeTile y x AIR
    else if y =? surfaceY then writeTile y x GRASS
    else if y <? surfaceY + 4 then writeTile y x DIRT
    else writeTile y x STONE).

(** simple heightmap per x *)
Definition heightmapPass (cx cy : Z) : Gen unit :=
  for_ 0 CHUNK_SIZE (fun x =>
    u <- rng ;;
    fillColumn x (surfaceRow cx cy x u)).

Definition carveDisc (tx ty r : Z) : Gen unit :=
  for_ (- r) (r + 1) (fun oy =>
    for_ (- r) (r + 1) (fun ox =>
      let nx := tx + ox in
      let ny := ty + oy in
      if inChunk nx ny then
        if hypotLe ox oy r then writeTile ny nx AIR else ret tt
      else ret tt)).

(** drill up to surface: the tile is cleared before it is tested. *)
Definition drillUp (tx ty : Z) : Gen unit :=
  forBreak (reverse (seqZ 0 (ty + 1))) (fun y =>
    writeTile y tx AIR ;;;
    if y =? 0 then ret false
    else
      t <- readTile y tx ;;
      if teq t GRASS then ret false else ret true).

Definition tunnel : Gen unit :=
  u <- rng ;;
  let tx := floorMul u CHUNK_SIZE in
  u <- rng ;;
  let ty := caveStartRow u in
  u <- rng ;;
  let length := 10 + floorMul u 30 in
  p <- loop (seqZ 0 length) (tx, ty) (fun _ p =>
         let tx := fst p in
         let ty := snd p in
         u <- rng ;;
         let r := 1 + floorMulQ u 11 5 in
         carveDisc tx ty r ;;;
         u <- rng ;;
         let tx := tx + jitter u in
         u <- rng ;;
         let ty := ty + jitter u in
         let tx := Z.max 1 (Z.min (CHUNK_SIZE - 2) tx) in
         let ty := Z.max 2 (Z.min (CHUNK_SIZE - 3) ty) in
         ret (Next (tx, ty))) ;;
  u <- rng ;;
  if rlt u 12 100 then drillUp (fst p) (snd p) else ret tt.

(** carve a few tunnels (caves) *)
Definition caves : Gen unit :=
  u <- rng ;;
  if rlt u 7 10 then
    u <- rng ;;
    let tunnels := 1 + floorMul u 2 in
    for_ 0 tunnels (fun _ => tunnel)
  else ret tt.

(** ores: rows outside, columns inside. *)
Definition ores : Gen unit :=
  for_ 0 CHUNK_SIZE (fun y =>
    for_ 0 CHUNK_SIZE (fun x =>
      t <- readTile y x ;;
      if teq t STONE then
        r <- rng ;;
        if rlt r 2 100 then writeTile y x COAL
        else if rlt r 7 1000 then writeTile y x COPPER
        else ret tt
      else ret tt)).

Definition growTree (x y : Z) : Gen unit :=
  u <- rng ;;
  let trunk := 3 + floorMul u 3 in
  forBreak (seqZ 1 trunk) (fun t =>
    if y - t >=? 0 then writeTile (y - t) x WOOD ;;; ret true
    else ret false) ;;;
  let top := y - trunk in
  for_ (-2) 3 (fun lx =>
    for_ (-2) 2 (fun ly =>
      let nx := x + lx in
      let ny := top + ly in
      if inChunk nx ny then
        if Z.abs lx + Z.abs ly <? 4 then
          t <- readTile ny nx ;;
          if teq t AIR then writeTile ny nx LEAVES else ret tt
        else ret tt
      else ret tt)).

(** trees *)
Definition trees : Gen unit :=
  for_ 2 (CHUNK_SIZE - 2) (fun x =>
    u <- rng ;;
    if rlt u 6 100 then
      forBreak (seqZ 0 (CHUNK_SIZE - 1)) (fun y =>
        t <- readTile y x ;;
        if teq t GRASS then growTree x y ;;; ret false
        else ret true)
    else ret tt).

Definition genInit (cx cy : Z) : GenState :=
  mkGen (rngFor seed cx cy) emptyGrid.

Definition generatePasses (cx cy : Z) : Gen unit :=
  heightmapPass cx cy ;;; caves ;;; ores ;;; trees.

(** [WorldScene.generateChunk(cx, cy)]: the grid alone. *)
Definition generateChunk (cx cy : Z) : option Grid :=
  match generatePasses cx cy (genInit cx cy) with
  | Some (_, s) => Some (gen_tiles s)
  | None => None
  end.

End Generator.

(** ** The scene: cache and drawing *)

(** [this.tileColors] *)
Definition tileColors (t : Tile) : string :=
  match t with
  | AIR => "#00000000"
  | GRASS => "#6aa84f"
  | DIRT => "#9c7440"
  | STONE => "#6f6f6f"
  | COAL => "#2f2f2f"
  | COPPER => "#b87333"
  | WOOD => "#5b3520"
  | LEAVES => "#8ad0a7"
  end.

(** An image added to the scene: its texture key, its centre in world
    pixels, and the rectangles filled on its canvas (corner and fill
    style; each is [TILE_SIZE] wide and high). *)
Record Image : Type := mkImage {
  texture : string;
  centreX : Z;
  centreY : Z;
  fills : list (Z * Z * string)
}.

Section Drawing.

Variable heightBase : Z -> Z -> Z -> Z.
Variable seed : string.

(** [this.ensureChunk(cx, cy)] on [this.chunks] *)
Definition ensureChunk (cx cy : Z) : M (gmap string Grid) Grid :=
  let k := ck cx cy in
  m <- get ;;
  match m !! k with
  | Some tiles => ret tiles
  | None =>
      tiles <- liftOpt (generateChunk heightBase seed cx cy) ;;
      modify (fun m => <[k := tiles]> m) ;;;
      ret tiles
  end.

(** The two loops that paint the canvas of a chunk. *)
Definition paint (tiles : Grid) : M (gmap string Grid) (list (Z * Z * string)) :=
  loop (seqZ 0 CHUNK_SIZE) [] (fun y painted =>
    painted <- loop (seqZ 0 CHUNK_SIZE) painted (fun x painted =>
                 t <- liftOpt (cell tiles y x) ;;
                 if negb (teq t AIR)
                 then ret (Next (painted ++ [(x * TILE_SIZE, y * TILE_SIZE, tileColors t)]))
                 else ret (Next painted)) ;;
    ret (Next painted)).

(** [this.drawVisibleChunks(camPixelX, camPixelY)] for integer
    arguments: the images added to the scene, in order. The display list
    is emptied first, so these and the seed label are all it holds. *)
Definition drawVisibleChunks (camPixelX camPixelY : Z)
  : M (gmap string Grid) (list Image) :=
  let centerTileX := camPixelX / TILE_SIZE in
  let centerTileY := camPixelY / TILE_SIZE in
  let centerChunkX := centerTileX / CHUNK_SIZE in
  let centerChunkY := centerTileY / CHUNK_SIZE in
  loop (seqZ (centerChunkY - VISIBLE_RANGE) (2 * VISIBLE_RANGE + 1)) [] (fun cy images =>
    images <- loop (seqZ (centerChunkX - VISIBLE_RANGE) (2 * VISIBLE_RANGE + 1)) images
                (fun cx images =>
                   tiles <- ensureChunk cx cy ;;
                   painted <- paint tiles ;;
                   let key := "chunk_" +:+ JS.numToString cx +:+ "_" +:+ JS.numToString cy in
                   let worldX := cx * CHUNK_SIZE * TILE_SIZE in
                   let worldY := cy * CHUNK_SIZE * TILE_SIZE in
                   ret (Next (images ++
                                [mkImage key
                                   (worldX + (CHUNK_SIZE * TILE_SIZE) / 2)
                                   (worldY + (CHUNK_SIZE * TILE_SIZE) / 2)
                                   painted]))) ;;
    ret (Next images)).

End Drawing.

End Scene.

(** * Inventory and crafting (main.js) *)

(** [consume(inv, req)] on the inventory object: the first loop
    subtracts each requirement from [inv[k] || 0], the second deletes the
    keys whose count is not positive. [req] lists the keys of the object
    in their order, with their values. *)
Definition consumeInv (req : list (string * Z)) (inv : gmap string Z) : gmap string Z :=
  let inv1 :=
    foldl (fun inv kn => <[kn.1 := default 0 (inv !! kn.1) - kn.2]> inv) inv req in
  foldl (fun inv kn =>
           match inv !! kn.1 with
           | Some v => if v <=? 0 then delete kn.1 inv else inv
           | None => inv
           end) inv1 req.

(** [consume(player.inventory, req)]; its last line, [refreshUI()], only
    redraws the page. *)
Definition consume (req : list (string * Z)) : W unit :=
  modify (fun w =>
    set_player
      (Player.set_inventory (consumeInv req (Player.inventory (player w))) (player w)) w).

(** [canCraft(inv, requires)] *)
Definition canCraft (inv : gmap string Z) (requires : list (string * Z)) : bool :=
  forallb (fun kn => negb (default 0 (inv !! kn.1) <? kn.2)) requires.

Module Recipe.
Record t : Type := mk {
  id : string;
  name : string;
  requires : list (string * Z);
  craft : W unit               (** [craft(player.inventory)] *)
}.
End Recipe.

(** [RECIPES] *)
Definition RECIPES : list Recipe.t :=
  [ Recipe.mk "copper_ingot" "Copper Ingot" [("copper", 3)]
      (consume [("copper", 3)] ;;; add "copper_ingot" 1);
    Recipe.mk "copper_helmet" "Copper Helmet" [("copper_ingot", 5)]
      (consume [("copper_ingot", 5)] ;;; add "copper_helmet" 1);
    Recipe.mk "lead_plate" "Lead Plate" [("lead", 6)]
      (consume [("lead", 6)] ;;; add "lead_plate" 1);
    Recipe.mk "lead_armor" "Lead Armor" [("lead", 12)]
      (consume [("lead", 12)] ;;; add "lead_armor" 1);
    Recipe.mk "wood_plank" "Wood Plank" [("wood", 2)]
      (consume [("wood", 2)] ;;; add "wood_plank" 1) ].

(** A click on the Craft button of recipe [r], as [refreshUI] sets it up:
    the button is disabled when [canCraft] fails, and a disabled button
    does nothing; [add] and [consume] refresh the buttons after every
    change of the inventory. *)
Definition clickCraft (r : Recipe.t) : W unit :=
  w <- get ;;
  if canCraft (Player.inventory (player w)) (Recipe.requires r)
  then Recipe.craft r
  else ret tt.

(** The [player] object as the script creates it ([id], [hotbar] and
    [armor], which no modelled function reads, are left out). *)
Definition initialPlayer : Player.t :=
  Player.mk 60 10 0 0 0.9 1.8 false ∅.

(** * Saving (main.js) *)

(** What [saveWorldToServer] does before it waits for the network: it
    stops with status idle, or posts a payload (its timestamp is left
    out). *)
Inductive SaveRequest : Type :=
| SaveIdle
| SavePost (seed : Z) (data : gmap string Grid).

(** [data]: the tiles of the chunks whose [modified] flag is set. *)
Definition modifiedTiles (m : gmap string Chunk) : gmap string Grid :=
  tiles <$> filter (fun kc => modified kc.2 = true) m.

(** [saveWorldToServer()], up to the call of [fetch]. *)
Definition saveWorldToServer (SEED : Z) : W SaveRequest :=
  w <- get ;;
  let data := modifiedTiles (chunks w) in
  if bool_decide (data = ∅) then ret SaveIdle
  else ret (SavePost SEED data).

(** * Drawing (main.js) *)

(** [COLORS[t]]: AIR has no entry. *)
Definition COLORS (t : Tile) : option string :=
  match t with
  | AIR => None
  | GRASS => Some "#6aa84f"
  | DIRT => Some "#9c7440"
  | STONE => Some "#6f6f6f"
  | COAL => Some "#2f2f2f"
  | COPPER => Some "#b87333"
  | WOOD => Some "#5b3520"
  | LEAVES => Some "#8ad0a7"
  end.

Section Render.

Variable heightBase : Z -> Z -> Z -> Z.
Variable SEED : Z.

(** [render()]: the tiles of the visible rectangle are read with
    [getTile], row by row, and the ones that are not AIR are filled with
    their colour. The result lists the tiles filled, in order, with the
    fill style; the pixel arithmetic of [fillRect] and the rectangle of
    the player are left out. *)
Definition render : W (list (Z * Z * string)) :=
  w <- get ;;
  let tw := Num.ofZ TILE_SIZE in
  let p := player w in
  let screenW := canvasW w in
  let screenH := canvasH w in
  let camX := (Player.x p * tw - screenW / 2 + (Player.w p * tw) / 2)%float in
  let camY := (Player.y p * tw - screenH / 2 + (Player.h p * tw) / 2)%float in
  startX <- liftOpt (Num.floor (camX / tw)) ;;
  startY <- liftOpt (Num.floor (camY / tw)) ;;
  c <- liftOpt (Num.ceil (screenW / tw)) ;;
  let cols := c + 2 in
  r <- liftOpt (Num.ceil (screenH / tw)) ;;
  let rows := r + 2 in
  loop (seqZ 0 rows) [] (fun cy drawn =>
    drawn <- loop (seqZ 0 cols) drawn (fun cx drawn =>
               let wx := startX + cx in
               let wy := startY + cy in
               t <- getTile heightBase SEED wx wy ;;
               if truthy t && negb (teq t AIR)
               then ret (Next (drawn ++ [(wx, wy, default "#444" (COLORS t))]))
               else ret (Next drawn)) ;;
    ret (Next drawn)).

(** [gameStep(dt)] whole: the physics and the streaming of [gameStep]
    above, then its last line, the call of [render()]. *)
Definition gameStepRender (fuel : nat) (keys : Keys) (dt : float)
  : W (list (Z * Z * string)) :=
  gameStep heightBase SEED fuel keys dt ;;; render.

End Render.

(** * Vocabulary of the properties *)

(** [wp m Q s]: started in [s], [m] returns, and its result and final
    state satisfy [Q]. *)
Definition wp {S A} (m : M S A) (Q : A -> S -> Prop) (s : S) : Prop :=
  exists a s', m s = Some (a, s') /\ Q a s'.

(** The local variables a loop step hands on. *)
Definition flowVal {L} (f : Flow L) : L :=
  match f with Next l => l | Break l => l end.

(** A grid has [CHUNK_SIZE] rows of [CHUNK_SIZE] cells. *)
Definition square (g : Grid) : Prop :=
  length g = Z.to_nat CHUNK_SIZE /\ Forall (fun row => length row = Z.to_nat CHUNK_SIZE) g.

Definition inGrid (y x : Z) : Prop := 0 <= y < CHUNK_SIZE /\ 0 <= x < CHUNK_SIZE.

(** No cell holds copper. *)
Definition noCopper (g : Grid) : Prop := forall y x, cell g y x <> Some COPPER.

(** The invariant of the four passes. *)
Definition genOk (s : GenState) : Prop :=
  square (gen_tiles s) /\ noCopper (gen_tiles s).

(** The tile the first pass gives row [y] of a column whose surface row is
    [surfaceY]: the four branches of its inner loop. *)
Definition layer (surfaceY y : Z) : Tile :=
  if y <? surfaceY then AIR
  else if y =? surfaceY then GRASS
  else if (surfaceY <? y) && (y <? surfaceY + 4) then DIRT
  else STONE.

(** The columns below [i] are filled, each from a sample of its own;
    [rowOf x u] is the surface row of column [x] for the sample [u]. *)
Definition columnsDone (rowOf : Z -> Z -> Z) (i : Z) (s : GenState) : Prop :=
  square (gen_tiles s) /\
  forall x, 0 <= x < i ->
    exists u, 0 <= u < 2 ^ 32 /\
      forall y, 0 <= y < CHUNK_SIZE ->
        cell (gen_tiles s) y x = Some (layer (rowOf x u) y).

(** A column of the grid with its layers: AIR above the surface row, GRASS
    on it, DIRT on the next three rows, STONE from the fourth on. *)
Definition layeredColumn (g : Grid) (x surfaceY : Z) : Prop :=
  4 <= surfaceY <= CHUNK_SIZE - 6 /\
  (forall y, 0 <= y < surfaceY -> cell g y x = Some AIR) /\
  cell g surfaceY x = Some GRASS /\
  (forall y, surfaceY < y <= surfaceY + 3 -> cell g y x = Some DIRT) /\
  (forall y, surfaceY + 4 <= y < CHUNK_SIZE -> cell g y x = Some STONE).

(** Every chunk of the store is a square grid. *)
Definition storeOk (m : gmap string Chunk) : Prop :=
  forall k c, m !! k = Some c -> square (tiles c).

Fixpoint noComma (s : string) : bool :=
  match s with
  | EmptyString => true
  | String c rest => negb (Ascii.eqb c ","%char) && noComma rest
  end.

(** [w'] is [w] with chunks added to its store: nothing else differs, and
    no chunk of [w] is replaced. *)
Definition extends (w w' : World) : Prop :=
  w' = set_chunks (chunks w') w /\
  storeOk (chunks w') /\
  forall k c, chunks w !! k = Some c -> chunks w' !! k = Some c.

(** The keys of the window of chunks around [(pcx, pcy)], rows below [oy]
    and, in row [oy], columns below [ox]. *)
Definition inWindow (pcx pcy oyEnd : Z) (k : string) : Prop :=
  exists ox oy, - VISIBLE_RANGE <= oy < oyEnd /\ - VISIBLE_RANGE <= ox <= VISIBLE_RANGE /\
                k = ck (pcx + ox) (pcy + oy).

Definition inRow (pcx pcy oy oxEnd : Z) (k : string) : Prop :=
  exists ox, - VISIBLE_RANGE <= ox < oxEnd /\ k = ck (pcx + ox) (pcy + oy).

(** The keys of the 5 x 5 window around chunk (0, 0). *)
Definition windowKeys : gset string :=
  list_to_set ((fun p => ck (fst p) (snd p))
                 <$> cprod (seqZ (- VISIBLE_RANGE) (2 * VISIBLE_RANGE + 1))
                           (seqZ (- VISIBLE_RANGE) (2 * VISIBLE_RANGE + 1))).

(** The resource a mined tile yields, as the mapping is stated:
    WOOD -> wood, COAL -> coal, COPPER -> copper, DIRT | GRASS -> dirt,
    STONE -> stone, and nothing for AIR and LEAVES. *)
Definition dropOf (t : Tile) : option string :=
  match t with
  | WOOD => Some "wood"
  | COAL => Some "coal"
  | COPPER => Some "copper"
  | DIRT | GRASS => Some "dirt"
  | STONE => Some "stone"
  | AIR | LEAVES => None
  end.

(** The calls of [add] among the events. *)
Definition addsOf (evs : list Event) : list (string * Z) :=
  omap (fun e => match e with EvAdd item n => Some (item, n) | _ => None end) evs.

(** The tiles written among the events. *)
Definition writesOf (evs : list Event) : list (Z * Z * Tile) :=
  omap (fun e => match e with EvSetTile wx wy t => Some (wx, wy, t) | _ => None end) evs.

(** A stand-in for the sine of the host, for closed examples: the
    sinusoidal term is taken as zero. *)
Definition flatNoise (worldX cy k : Z) : Z := 16 + k.

(** Flat terrain: grass on row 16, three rows of dirt, stone below. *)
Definition flatGrid : Grid :=
  (fun y => replicate (Z.to_nat CHUNK_SIZE) (layer 16 y)) <$> seqZ 0 CHUNK_SIZE.

(** The same with the tiles (5, 17) and (5, 18) mined out: a pocket one
    tile wide and two high, under the grass tile (5, 16), over the dirt
    tile (5, 19). *)
Definition pocketGrid : Grid :=
  default flatGrid (g ← setCell flatGrid 17 5 AIR; setCell g 18 5 AIR).

(** The 25 chunks around chunk (0, 0), as streaming leaves them, chunk
    (0, 0) holding the pocket. *)
Definition pocketStore : gmap string Chunk :=
  <[ck 0 0 := mkChunk pocketGrid true]>
    (list_to_map ((fun p => (ck (fst p) (snd p), mkChunk flatGrid false))
                    <$> cprod (seqZ (-2) 5) (seqZ (-2) 5))).

(** The player of main.js (0.9 wide, 1.8 high) standing in the pocket,
    feet on the dirt tile: [y = 19 - h], grounded. *)
Definition pocketPlayer : Player.t :=
  Player.mk 5.05 (19 - 1.8) 0 0 0.9 1.8 true ∅.

Definition pocketWorld : World :=
  mkWorld pocketStore pocketPlayer (Mouse.mk 0 0 false) 800 600 false [].

(** The key W is down, nothing else. *)
Definition jumpKey : Keys := fun k => bool_decide (k = "w").

(** The collision query of the source at the player's own box. *)
Definition playerCollides (heightBase : Z -> Z -> Z -> Z) (SEED : Z) : W bool :=
  fun w =>
    let p := player w in
    rectCollidesWithTiles heightBase SEED
      (Player.x p) (Player.y p) (Player.w p) (Player.h p) w.

Global Instance square_dec (g : Grid) : Decision (square g).
Proof. unfold square. apply _. Defined.

(** The player of the pocket world on the way up, one tile under the
    grass: the state in the middle of a jump. *)
Definition risingWorld : World :=
  set_player (Player.mk 5.05 17.05 0 (-9) 0.9 1.8 false ∅) pocketWorld.

(** The pocket world with the button down and the pointer on the grass
    tile (5, 16). *)
Definition miningWorld : World :=
  mkWorld pocketStore pocketPlayer (Mouse.mk 400 280.8 true) 800 600 false [].

(** A world whose store is empty, the player in chunk (0, 0). *)
Definition emptyWorld : World :=
  mkWorld ∅ pocketPlayer (Mouse.mk 0 0 false) 800 600 false [].

(** The number [rng()] returns for the word [u]. *)
Definition sample (u : Z) : float := (Num.ofZ u / 4294967296)%float.

(** Samples next to each threshold of the generators, with the literal
    of the source and the fraction [rlt] is given for it. *)
Definition thresholdCases : list (Z * float * Z * Z) :=
  [ (0, 0.65%float, 65, 100); (2791728742, 0.65%float, 65, 100);
    (2791728743, 0.65%float, 65, 100); (4294967295, 0.65%float, 65, 100);
    (3006477107, 0.7%float, 7, 10); (3006477108, 0.7%float, 7, 10);
    (515396075, 0.12%float, 12, 100); (515396076, 0.12%float, 12, 100);
    (85899345, 0.02%float, 2, 100); (85899346, 0.02%float, 2, 100);
    (30064771, 0.007%float, 7, 1000); (30064772, 0.007%float, 7, 1000);
    (257698037, 0.06%float, 6, 100); (257698038, 0.06%float, 6, 100) ].

(** Samples next to each step of the floors the generators take. *)
Definition floorCases : list Z :=
  [ 0; 1; 53687091; 53687092; 134217727; 134217728; 143165576; 143165577;
    1431655765; 1431655766; 1952257861; 1952257862; 2147483647; 2147483648;
    2863311530; 2863311531; 3904515723; 3904515724; 4080218931; 4080218932;
    4151801719; 4151801720; 4294967294; 4294967295 ].

(** A computation that, started on a store of square chunks, ends on one
    when it returns. *)
Definition keepsStore {A} (m : W A) : Prop :=
  forall w a w', storeOk (chunks w) -> m w = Some (a, w') -> storeOk (chunks w').

(** The worlds a session passes through: the store starts empty; the
    pointer, the canvas and the player's state may be anything (their
    handlers and the rest of the page are not modelled); then ticks,
    mining polls and calls of the accessors follow one another. *)
Inductive reachable (heightBase : Z -> Z -> Z -> Z) (SEED : Z) : World -> Prop :=
| reach_load w :
    chunks w = ∅ -> reachable heightBase SEED w
| reach_outside w p m cw ch :
    reachable heightBase SEED w ->
    reachable heightBase SEED
      (mkWorld (chunks w) p m cw ch (saveTimeout w) (events w))
| reach_gameStep w w' fuel keys dt :
    reachable heightBase SEED w ->
    gameStep heightBase SEED fuel keys dt w = Some (tt, w') ->
    reachable heightBase SEED w'
| reach_tickMining w w' :
    reachable heightBase SEED w ->
    tickMining heightBase SEED w = Some (tt, w') ->
    reachable heightBase SEED w'
| reach_getTile w w' wx wy t :
    reachable heightBase SEED w ->
    getTile heightBase SEED wx wy w = Some (t, w') ->
    reachable heightBase SEED w'
| reach_setTile w w' wx wy t :
    reachable heightBase SEED w ->
    setTile heightBase SEED wx wy t w = Some (tt, w') ->
    reachable heightBase SEED w'.

(** The world a computation leaves, or [d] when it does not return. *)
Definition worldAfter {A} (o : option (A * World)) (d : World) : World :=
  match o with Some (_, w) => w | None => d end.

Definition set_mouse (m : Mouse.t) (w : World) : World :=
  mkWorld (chunks w) (player w) m (canvasW w) (canvasH w) (saveTimeout w) (events w).

(** A session with the flat stand-in and seed 42. The store is empty, the
    button is down and the pointer is on tile (5, 17). *)
Definition dig0 : World :=
  mkWorld ∅ pocketPlayer (Mouse.mk 400 292.8 true) 800 600 false [].

(** After one poll of [tickMining]; then the pointer moves to tile
    (5, 18) and a second poll follows; then the button is released. *)
Definition dig1 : World :=
  Eval vm_compute in worldAfter (tickMining flatNoise 42 dig0) dig0.

Definition dig2 : World :=
  Eval vm_compute in
    worldAfter (tickMining flatNoise 42 (set_mouse (Mouse.mk 400 304.8 true) dig1)) dig1.

Definition dugWorld : World :=
  Eval vm_compute in set_mouse (Mouse.mk 400 304.8 false) dig2.

(** Two ticks with the jump key down. *)
Definition dugTick1 : World :=
  Eval vm_compute in worldAfter (gameStep flatNoise 42 100 jumpKey STEP dugWorld) dugWorld.

Definition dugTick2 : World :=
  Eval vm_compute in worldAfter (gameStep flatNoise 42 100 jumpKey STEP dugTick1) dugTick1.

(** ** Vocabulary of the further properties *)

(** A computation whose every run that returns relates its first state to
    its last by [R]. *)
Definition respects {S A} (R : S -> S -> Prop) (m : M S A) : Prop :=
  forall s a s', m s = Some (a, s') -> R s s'.

(** The chunk of [(cx, cy)] as the accessors see it: the cached one, or
    the one generation gives. *)
Definition chunkAt (heightBase : Z -> Z -> Z -> Z) (SEED : Z)
    (m : gmap string Chunk) (cx cy : Z) : option Chunk :=
  match m !! ck cx cy with
  | Some c => Some c
  | None => generateChunk heightBase SEED cx cy
  end.

(** The tile of the world at [(wx, wy)], cached or not. *)
Definition tileAt (heightBase : Z -> Z -> Z -> Z) (SEED : Z)
    (m : gmap string Chunk) (wx wy : Z) : option Tile :=
  c ← chunkAt heightBase SEED m (chunkCoord wx) (chunkCoord wy);
  cell (tiles c) (localCoord wy) (localCoord wx).

(** The tile at [(wx, wy)] is solid. *)
Definition solidAt (heightBase : Z -> Z -> Z -> Z) (SEED : Z)
    (m : gmap string Chunk) (wx wy : Z) : bool :=
  match tileAt heightBase SEED m wx wy with
  | Some t => tileSolid t
  | None => false
  end.

(** The store [m'] is [m] with generated chunks cached: the chunks of [m]
    are all there, and every other chunk is the one generation gives for
    its key. *)
Definition storeGrows (heightBase : Z -> Z -> Z -> Z) (SEED : Z)
    (m m' : gmap string Chunk) : Prop :=
  (forall k c, m !! k = Some c -> m' !! k = Some c) /\
  (forall k c, m' !! k = Some c ->
     m !! k = Some c \/
     exists cx cy, k = ck cx cy /\ generateChunk heightBase SEED cx cy = Some c).

(** A step that only caches chunks. *)
Definition cached (heightBase : Z -> Z -> Z -> Z) (SEED : Z) (w w' : World) : Prop :=
  w' = set_chunks (chunks w') w /\ storeGrows heightBase SEED (chunks w) (chunks w').

(** A step that moves the player and caches chunks, and does nothing
    else: pointer, canvas, save timer, events, inventory and the player's
    size are as before. *)
Definition tickFrame (heightBase : Z -> Z -> Z -> Z) (SEED : Z) (w w' : World) : Prop :=
  mouse w' = mouse w /\ canvasW w' = canvasW w /\ canvasH w' = canvasH w /\
  saveTimeout w' = saveTimeout w /\ events w' = events w /\
  Player.inventory (player w') = Player.inventory (player w) /\
  Player.w (player w') = Player.w (player w) /\
  Player.h (player w') = Player.h (player w) /\
  storeGrows heightBase SEED (chunks w) (chunks w').

(** The cells of the box [rectCollidesWithTiles] looks at, and whether
    one of them is solid. *)
Definition boxSolid (heightBase : Z -> Z -> Z -> Z) (SEED : Z)
    (m : gmap string Chunk) (startX endX startY endY : Z) : bool :=
  existsb (fun ty =>
             existsb (fun tx => solidAt heightBase SEED m tx ty)
                     (seqZ startX (endX - startX + 1)))
          (seqZ startY (endY - startY + 1)).

(** The keys with the two jump keys released. *)
Definition releaseJump (keys : Keys) : Keys :=
  fun k => if bool_decide (k = "w" \/ k = " ") then false else keys k.

(** The world [add(player.inventory, item, 1)] leaves. *)
Definition added (item : string) (w : World) : World :=
  worldAfter (add item 1 w) w.

(** No key is down. *)
Definition noKeys : Keys := fun _ => false.

(** A world that holds the pocket chunk alone, the player coming down
    in the pocket, feet just above the dirt tile. *)
Definition landingWorld : World :=
  mkWorld {[ck 0 0 := mkChunk pocketGrid true]}
          (Player.mk 5.05 17.2 0 1 0.9 1.8 false ∅)
          (Mouse.mk 0 0 false) 800 600 false [].

(** [inv[k] || 0] *)
Definition countOf (inv : gmap string Z) (k : string) : Z := default 0 (inv !! k).

(** What a list of requirements asks of item [k]. *)
Definition required (req : list (string * Z)) (k : string) : Z :=
  default 0 ((list_to_map req : gmap string Z) !! k).

(** Every count of the inventory is positive. *)
Definition invPositive (inv : gmap string Z) : Prop :=
  forall k v, inv !! k = Some v -> 0 < v.

(** What [render] fills for the tile [(wx, wy)] of the world. *)
Definition fillOf (heightBase : Z -> Z -> Z -> Z) (SEED : Z)
    (m : gmap string Chunk) (wx wy : Z) : list (Z * Z * string) :=
  match tileAt heightBase SEED m wx wy with
  | Some t => if truthy t && negb (teq t AIR)
              then [(wx, wy, default "#444" (COLORS t))] else []
  | None => []
  end.

(** The fills of a rectangle of the world, row by row. *)
Definition visibleFills (heightBase : Z -> Z -> Z -> Z) (SEED : Z)
    (m : gmap string Chunk) (startX startY cols rows : Z) : list (Z * Z * string) :=
  cy ← seqZ 0 rows; cx ← seqZ 0 cols; fillOf heightBase SEED m (startX + cx) (startY + cy).

(** The rectangle [render] goes through: [startX], [startY], [cols] and
    [rows], when the camera is at a finite place. *)
Definition viewport (w : World) : option (Z * Z * Z * Z) :=
  let tw := Num.ofZ TILE_SIZE in
  let p := player w in
  let screenW := canvasW w in
  let screenH := canvasH w in
  let camX := (Player.x p * tw - screenW / 2 + (Player.w p * tw) / 2)%float in
  let camY := (Player.y p * tw - screenH / 2 + (Player.h p * tw) / 2)%float in
  startX ← Num.floor (camX / tw);
  startY ← Num.floor (camY / tw);
  c ← Num.ceil (screenW / tw);
  r ← Num.ceil (screenH / tw);
  Some (startX, startY, c + 2, r + 2).

(** The items a session can hold. *)
Definition plainItems : list string := ["wood"; "coal"; "dirt"; "stone"; "wood_plank"].

Definition set_canvas (cw ch : float) (w : World) : World :=
  mkWorld (chunks w) (player w) (mouse w) cw ch (saveTimeout w) (events w).

(** The world when the script has run its top level, the canvas sized. *)
Definition freshWorld (cw ch : float) : World :=
  mkWorld ∅ initialPlayer (Mouse.mk 0 0 false) cw ch false [].

(** A session of the page: [init()] streams the chunks around the spawn;
    then pointer and resize events, ticks, mining polls, clicks on the
    Craft buttons and the periodic call of [scheduleWorldSave] follow
    one another. *)
Inductive session (heightBase : Z -> Z -> Z -> Z) (SEED : Z) : World -> Prop :=
| session_init cw ch w :
    streamChunksAroundPlayer heightBase SEED (freshWorld cw ch) = Some (tt, w) ->
    session heightBase SEED w
| session_pointer w m :
    session heightBase SEED w -> session heightBase SEED (set_mouse m w)
| session_resize w cw ch :
    session heightBase SEED w -> session heightBase SEED (set_canvas cw ch w)
| session_gameStep w w' fuel keys dt drawn :
    session heightBase SEED w ->
    gameStepRender heightBase SEED fuel keys dt w = Some (drawn, w') ->
    session heightBase SEED w'
| session_tickMining w w' :
    session heightBase SEED w ->
    tickMining heightBase SEED w = Some (tt, w') ->
    session heightBase SEED w'
| session_click w w' r :
    session heightBase SEED w -> r ∈ RECIPES ->
    clickCraft r w = Some (tt, w') ->
    session heightBase SEED w'
| session_autosave w w' :
    session heightBase SEED w ->
    scheduleWorldSave w = Some (tt, w') ->
    session heightBase SEED w'.

(** The chunk of the tile [(wx, wy)]. *)
Definition keyOf (wx wy : Z) : string := ck (chunkCoord wx) (chunkCoord wy).

(** What holds all along a session. *)
Definition sessionInv (w : World) : Prop :=
  storeOk (chunks w) /\
  (forall k c, chunks w !! k = Some c -> noCopper (tiles c)) /\
  invPositive (Player.inventory (player w)) /\
  (forall k, is_Some (Player.inventory (player w) !! k) -> k ∈ plainItems) /\
  (forall k c, chunks w !! k = Some c -> modified c = true ->
     exists wx wy t, EvSetTile wx wy t ∈ events w /\ k = keyOf wx wy) /\
  (forall wx wy t, EvSetTile wx wy t ∈ events w ->
     exists c, chunks w !! keyOf wx wy = Some c /\ modified c = true).

(** The world when [init()] has streamed the chunks around the spawn,
    with the flat stand-in, seed 42 and a canvas of 800 by 600. *)
Definition spawnWorld : World :=
  worldAfter (streamChunksAroundPlayer flatNoise 42 (freshWorld 800 600))
             (freshWorld 800 600).

(** Where a tile may stand in a generated column whose surface row is
    [r]: GRASS on the surface row only, DIRT on the three rows under it,
    STONE and COAL from the fourth row under it on, WOOD above it; AIR
    and LEAVES anywhere; COPPER nowhere. *)
Definition shapeAt (r y : Z) (t : Tile) : Prop :=
  match t with
  | AIR | LEAVES => True
  | GRASS => y = r
  | DIRT => r < y < r + 4
  | STONE | COAL => r + 4 <= y
  | WOOD => y < r
  | COPPER => False
  end.

(** Every tile of the grid stands where [shapeAt] lets it, [rowOf x]
    being the surface row of column [x]. *)
Definition shaped (rowOf : Z -> Z) (g : Grid) : Prop :=
  forall y x t, cell g y x = Some t -> shapeAt (rowOf x) y t.

(** A step of the generator that keeps the grid in shape. *)
Definition keepsShape (rowOf : Z -> Z) (s s' : GenState) : Prop :=
  shaped rowOf (gen_tiles s) -> shaped rowOf (gen_tiles s').

(** The player of the pocket world walking right, against the wall of
    the pocket. *)
Definition pushingWorld : World :=
  set_player (Player.mk 5.05 (19 - 1.8) 6 0 0.9 1.8 true ∅) pocketWorld.

(** The cache of the scene holds generated chunks only, each under the
    key of its coordinates. *)
Definition sceneCacheOk (heightBase : Z -> Z -> Z -> Z) (seed : string)
    (m : gmap string Grid) : Prop :=
  forall k g, m !! k = Some g ->
    exists cx cy, k = ck cx cy /\ Scene.generateChunk heightBase seed cx cy = Some g.

(** The rectangles painted for a grid: its cells that are not AIR, row
    by row. *)
Definition paintedOf (g : Grid) : list (Z * Z * string) :=
  y ← seqZ 0 CHUNK_SIZE; x ← seqZ 0 CHUNK_SIZE;
  match cell g y x with
  | Some t => if negb (teq t AIR)
              then [(x * TILE_SIZE, y * TILE_SIZE, Scene.tileColors t)] else []
  | None => []
  end.

(** The image of the chunk [(cx, cy)] of the seed. *)
Definition imageOf (heightBase : Z -> Z -> Z -> Z) (seed : string) (cx cy : Z)
  : list Scene.Image :=
  match Scene.generateChunk heightBase seed cx cy with
  | Some g =>
      [Scene.mkImage ("chunk_" +:+ JS.numToString cx +:+ "_" +:+ JS.numToString cy)
         (cx * CHUNK_SIZE * TILE_SIZE + (CHUNK_SIZE * TILE_SIZE) / 2)
         (cy * CHUNK_SIZE * TILE_SIZE + (CHUNK_SIZE * TILE_SIZE) / 2)
         (paintedOf g)]
  | None => []
  end.

(** * Properties *)

(** ** Reasoning about computations: the post-condition of a run *)

Section WpRules.

Context {S : Type}.

Lemma wp_ret {A} (a : A) (Q : A -> S -> Prop) s : Q a s -> wp (ret a) Q s.
Proof. intros H. exists a, s. split; [reflexivity | exact H]. Qed.

Lemma wp_bind {A B} (m : M S A) (k : A -> M S B) (Q : B -> S -> Prop) s :
  wp m (fun a s' => wp (k a) Q s') s -> wp (bind m k) Q s.
Proof.
  intros (a & s' & Hm & b & s'' & Hk & HQ).
  exists b, s''. unfold bind. rewrite Hm. split; assumption.
Qed.

Lemma wp_mono {A} (m : M S A) (Q Q' : A -> S -> Prop) s :
  wp m Q s -> (forall a s', Q a s' -> Q' a s') -> wp m Q' s.
Proof. intros (a & s' & Hm & HQ) Himp. exists a, s'. split; auto. Qed.

Lemma wp_get (Q : S -> S -> Prop) s : Q s s -> wp get Q s.
Proof. intros H. exists s, s. split; [reflexivity | exact H]. Qed.

Lemma wp_modify (f : S -> S) (Q : unit -> S -> Prop) s :
  Q tt (f s) -> wp (modify f) Q s.
Proof. intros H. exists tt, (f s). split; [reflexivity | exact H]. Qed.

Lemma wp_liftOpt {A} (o : option A) (Q : A -> S -> Prop) s a :
  o = Some a -> Q a s -> wp (liftOpt o) Q s.
Proof. intros -> H. exists a, s. split; [reflexivity | exact H]. Qed.

(** A loop keeps an invariant of its local variables and the state. *)
Lemma wp_loop {L} (I : L -> S -> Prop) (idx : list Z) (body : Z -> L -> M S (Flow L)) :
  (forall i l s, i ∈ idx -> I l s -> wp (body i l) (fun f s' => I (flowVal f) s') s) ->
  forall l s, I l s -> wp (loop idx l body) I s.
Proof.
  induction idx as [|i rest IH]; intros Hbody l s HI; simpl.
  - apply wp_ret; exact HI.
  - apply wp_bind.
    eapply wp_mono; [apply Hbody; [left | exact HI] |].
    intros [l'|l'] s' HI'; simpl in HI'.
    + apply IH; [| exact HI'].
      intros j l0 s0 Hj. apply Hbody. right; exact Hj.
    + apply wp_ret; exact HI'.
Qed.

Lemma wp_for (I : S -> Prop) (lo hi : Z) (body : Z -> M S unit) s :
  I s ->
  (forall i s, lo <= i < hi -> I s -> wp (body i) (fun _ s' => I s') s) ->
  wp (for_ lo hi body) (fun _ s' => I s') s.
Proof.
  intros HI Hbody. unfold for_.
  apply (wp_loop (fun _ s => I s)); [| exact HI].
  intros i [] s0 Hi HI0. apply wp_bind.
  apply elem_of_seqZ in Hi.
  eapply wp_mono; [apply Hbody; [lia | exact HI0] |].
  intros ? s' HI'. cbv beta in HI'. apply wp_ret; exact HI'.
Qed.

(** The counting loop with an invariant that knows the index reached. *)
Lemma wp_for_idx (I : Z -> S -> Prop) (lo hi : Z) (body : Z -> M S unit) s :
  lo <= hi ->
  I lo s ->
  (forall i s, lo <= i < hi -> I i s -> wp (body i) (fun _ s' => I (i + 1) s') s) ->
  wp (for_ lo hi body) (fun _ s' => I hi s') s.
Proof.
  intros Hle. unfold for_.
  remember (Z.to_nat (hi - lo)) as n eqn:Hn.
  revert lo s Hle Hn. induction n as [|n IH]; intros lo s Hle Hn HI Hbody.
  - assert (hi = lo) as -> by lia. rewrite Z.sub_diag. simpl.
    apply wp_ret; exact HI.
  - rewrite seqZ_cons by lia. simpl. apply wp_bind. apply wp_bind.
    eapply wp_mono; [apply Hbody; [lia | exact HI] |].
    intros ? s' HI'. cbv beta in HI'. apply wp_ret.
    replace (Z.pred (hi - lo)) with (hi - Z.succ lo) by lia.
    apply IH; [lia | lia | rewrite <- Z.add_1_r; exact HI' |].
    intros i s0 Hi. apply Hbody. lia.
Qed.

Lemma wp_forBreak (I : S -> Prop) (idx : list Z) (body : Z -> M S bool) s :
  I s ->
  (forall i s, i ∈ idx -> I s -> wp (body i) (fun _ s' => I s') s) ->
  wp (forBreak idx body) (fun _ s' => I s') s.
Proof.
  intros HI Hbody. unfold forBreak.
  apply (wp_loop (fun _ s => I s)); [| exact HI].
  intros i [] s0 Hi HI0. apply wp_bind.
  eapply wp_mono; [apply Hbody; [exact Hi | exact HI0] |].
  intros b s' HI'. cbv beta in HI'. apply wp_ret. destruct b; exact HI'.
Qed.

End WpRules.

(** ** The integer reading of the samples agrees with binary64 *)

(** At the samples on either side of each threshold, the comparison of
    the source, made in binary64, and [rlt] give the same answer; both are
    monotone in the sample. *)
Lemma rlt_as_binary64 :
  Forall (fun c => match c with
                   | (u, lit, n, d) => (sample u <? lit)%float = rlt u n d
                   end) thresholdCases.
Proof. repeat constructor. Qed.

(** The same for the floors. *)
Lemma floors_as_binary64 :
  Forall (fun u =>
            Num.floor (sample u * 3 - 1) = Some (jitter u) /\
            Num.floor (sample u * 2) = Some (floorMul u 2) /\
            Num.floor (sample u * 3) = Some (floorMul u 3) /\
            Num.floor (sample u * 30) = Some (floorMul u 30) /\
            Num.floor (sample u * Num.ofZ CHUNK_SIZE) = Some (floorMul u CHUNK_SIZE) /\
            Num.floor (sample u * 2.2) = Some (floorMulQ u 11 5) /\
            Num.floor (Num.ofZ CHUNK_SIZE * 0.4 + sample u * Num.ofZ CHUNK_SIZE * 0.5)
              = Some (caveStartRow u)) floorCases.
Proof. repeat constructor. Qed.

(** The disc test, on every offset and radius the tunnels use, with the
    correctly rounded square root in the place of [Math.hypot]. *)
Lemma hypotLe_as_binary64 :
  forallb (fun r =>
    forallb (fun ox =>
      forallb (fun oy =>
        Bool.eqb (PrimFloat.sqrt (Num.ofZ (ox * ox + oy * oy)) <=? Num.ofZ r + 0.2)%float
                 (hypotLe ox oy r)) (seqZ (-3) 7)) (seqZ (-3) 7)) (seqZ 1 3) = true.
Proof. vm_compute. reflexivity. Qed.

(** The first sample of [mulberry32(0)] is 0.26642920868471265. *)
Lemma mulberry32_first_sample : sample (fst (mulberry32 0)) = 0.26642920868471265%float.
Proof. reflexivity. Qed.

(** ** Grids *)

Lemma inChunk_spec nx ny : inChunk nx ny = true <-> inGrid ny nx.
Proof. unfold inChunk, inGrid. rewrite !andb_true_iff. lia. Qed.

Lemma square_emptyGrid : square emptyGrid.
Proof.
  split; [apply length_replicate |].
  apply Forall_replicate, length_replicate.
Qed.

Lemma square_row (g : Grid) (i : nat) row :
  square g -> g !! i = Some row -> length row = Z.to_nat CHUNK_SIZE.
Proof. intros [_ Hrows] Hi. exact (proj1 (Forall_lookup _ _) Hrows i row Hi). Qed.

Lemma cell_is_Some (g : Grid) y x : square g -> inGrid y x -> is_Some (cell g y x).
Proof.
  intros Hsq [Hy Hx]. unfold cell.
  replace ((0 <=? y) && (0 <=? x)) with true by (symmetry; apply andb_true_iff; lia).
  destruct (lookup_lt_is_Some_2 g (Z.to_nat y)) as [row Hrow].
  { rewrite (proj1 Hsq). unfold CHUNK_SIZE in *. lia. }
  rewrite Hrow. simpl. apply lookup_lt_is_Some_2.
  rewrite (square_row g _ row Hsq Hrow). unfold CHUNK_SIZE in *. lia.
Qed.

Lemma setCell_is_Some (g : Grid) y x t :
  square g -> inGrid y x -> is_Some (setCell g y x t).
Proof.
  intros Hsq [Hy Hx]. unfold setCell.
  replace ((0 <=? y) && (0 <=? x)) with true by (symmetry; apply andb_true_iff; lia).
  destruct (lookup_lt_is_Some_2 g (Z.to_nat y)) as [row Hrow].
  { rewrite (proj1 Hsq). unfold CHUNK_SIZE in *. lia. }
  rewrite Hrow. simpl.
  rewrite decide_True; [eexists; reflexivity |].
  rewrite (square_row g _ row Hsq Hrow). unfold CHUNK_SIZE in *. lia.
Qed.

(** What a successful write says about its indices and its result. *)
Lemma setCell_inv (g g' : Grid) y x t :
  setCell g y x t = Some g' ->
  exists row, 0 <= y /\ 0 <= x /\ g !! Z.to_nat y = Some row /\
              (Z.to_nat x < length row)%nat /\
              g' = <[Z.to_nat y := <[Z.to_nat x := t]> row]> g.
Proof.
  unfold setCell.
  destruct ((0 <=? y) && (0 <=? x)) eqn:Hb; [| discriminate].
  apply andb_true_iff in Hb as [Hy Hx].
  destruct (g !! Z.to_nat y) as [row|] eqn:Hrow; [| discriminate]. simpl.
  destruct (decide (Z.to_nat x < length row)%nat) as [Hlt|]; [| discriminate].
  intros [= <-]. exists row. repeat split; try lia; assumption.
Qed.

Lemma setCell_square (g g' : Grid) y x t :
  setCell g y x t = Some g' -> square g -> square g'.
Proof.
  intros (row & _ & _ & Hrow & _ & ->)%setCell_inv [Hlen Hrows]. split.
  - rewrite length_insert. exact Hlen.
  - apply Forall_insert; [exact Hrows |].
    rewrite length_insert. exact (proj1 (Forall_lookup _ _) Hrows _ _ Hrow).
Qed.

Lemma cell_setCell_eq (g g' : Grid) y x t :
  setCell g y x t = Some g' -> cell g' y x = Some t.
Proof.
  intros (row & Hy & Hx & Hrow & Hlt & ->)%setCell_inv. unfold cell.
  replace ((0 <=? y) && (0 <=? x)) with true by (symmetry; apply andb_true_iff; lia).
  rewrite list_lookup_insert_eq by (eapply lookup_lt_Some; exact Hrow). simpl.
  apply list_lookup_insert_eq. exact Hlt.
Qed.

Lemma cell_setCell_ne (g g' : Grid) y x t y' x' :
  setCell g y x t = Some g' -> (y', x') <> (y, x) -> cell g' y' x' = cell g y' x'.
Proof.
  intros (row & Hy & Hx & Hrow & Hlt & ->)%setCell_inv Hne. unfold cell.
  destruct ((0 <=? y') && (0 <=? x')) eqn:Hb; [| reflexivity].
  apply andb_true_iff in Hb as [Hy' Hx'].
  destruct (decide (Z.to_nat y' = Z.to_nat y)) as [Heq|Hneq].
  - rewrite Heq, list_lookup_insert_eq by (eapply lookup_lt_Some; exact Hrow).
    rewrite Hrow. simpl. apply list_lookup_insert_ne.
    intros Hxx. apply Hne. f_equal; lia.
  - rewrite list_lookup_insert_ne by congruence. reflexivity.
Qed.

Lemma noCopper_emptyGrid : noCopper emptyGrid.
Proof.
  intros y x. unfold cell, emptyGrid.
  destruct ((0 <=? y) && (0 <=? x)); [| discriminate].
  intros (row & Hrow & Hx)%bind_Some.
  apply lookup_replicate in Hrow as [-> _].
  apply lookup_replicate in Hx as [Heq _]. discriminate.
Qed.

Lemma noCopper_setCell (g g' : Grid) y x t :
  setCell g y x t = Some g' -> t <> COPPER -> noCopper g -> noCopper g'.
Proof.
  intros Hset Ht Hg y' x'.
  destruct (decide ((y', x') = (y, x))) as [[= -> ->]|Hne].
  - rewrite (cell_setCell_eq _ _ _ _ _ Hset). congruence.
  - rewrite (cell_setCell_ne _ _ _ _ _ _ _ Hset Hne). apply Hg.
Qed.

(** ** The generator keeps its grid square and free of copper *)

Lemma mulberry32_range (a : Z) : 0 <= fst (mulberry32 a) < 2 ^ 32.
Proof.
  unfold mulberry32, JS.ushr at 1, JS.ToUint32. cbn [fst].
  rewrite Z.mod_0_l by discriminate. rewrite Z.shiftr_0_r.
  apply Z.mod_pos_bound. reflexivity.
Qed.

Lemma wp_rng (Q : Z -> GenState -> Prop) (s : GenState) :
  (forall u a', 0 <= u < 2 ^ 32 -> Q u (mkGen a' (gen_tiles s))) -> wp rng Q s.
Proof.
  intros H. unfold wp, rng.
  pose proof (mulberry32_range (gen_a s)) as Hr.
  destruct (mulberry32 (gen_a s)) as [u a']. eexists _, _. split; [reflexivity |].
  apply H. exact Hr.
Qed.

Lemma wp_writeTile (Q : unit -> GenState -> Prop) (s : GenState) y x t :
  square (gen_tiles s) -> inGrid y x ->
  (forall g', setCell (gen_tiles s) y x t = Some g' -> Q tt (mkGen (gen_a s) g')) ->
  wp (writeTile y x t) Q s.
Proof.
  intros Hsq Hin H. unfold wp, writeTile.
  destruct (setCell_is_Some (gen_tiles s) y x t Hsq Hin) as [g' Hg'].
  rewrite Hg'. eexists _, _. split; [reflexivity |]. apply H. exact Hg'.
Qed.

Lemma wp_readTile (Q : Tile -> GenState -> Prop) (s : GenState) y x :
  square (gen_tiles s) -> inGrid y x ->
  (forall t, cell (gen_tiles s) y x = Some t -> Q t s) ->
  wp (readTile y x) Q s.
Proof.
  intros Hsq Hin H. unfold wp, readTile.
  destruct (cell_is_Some (gen_tiles s) y x Hsq Hin) as [t Ht].
  rewrite Ht. eexists _, _. split; [reflexivity |]. apply H. exact Ht.
Qed.

Lemma rng_ok s : genOk s -> wp rng (fun u s' => genOk s' /\ 0 <= u < 2 ^ 32) s.
Proof. intros Hok. apply wp_rng. intros u a' Hu. split; [exact Hok | exact Hu]. Qed.

Lemma writeTile_ok s y x t :
  genOk s -> inGrid y x -> t <> COPPER -> wp (writeTile y x t) (fun _ s' => genOk s') s.
Proof.
  intros [Hsq Hnc] Hin Ht. apply wp_writeTile; [exact Hsq | exact Hin |].
  intros g' Hg'. split; cbn.
  - eapply setCell_square; eassumption.
  - eapply noCopper_setCell; eassumption.
Qed.

Lemma readTile_ok s y x :
  genOk s -> inGrid y x -> wp (readTile y x) (fun _ s' => genOk s') s.
Proof. intros Hok Hin. apply wp_readTile; [apply Hok | exact Hin |]. intros _ _. exact Hok. Qed.

Ltac in_grid :=
  unfold inGrid, CHUNK_SIZE in *;
  repeat match goal with
         | H : _ ∈ seqZ _ _ |- _ => apply elem_of_seqZ in H
         | H : _ ∈ reverse _ |- _ => rewrite elem_of_reverse in H
         | H : inChunk _ _ = true |- _ => apply inChunk_spec in H; unfold inGrid, CHUNK_SIZE in H
         | H : (_ >=? _) = true |- _ => apply Z.geb_le in H
         end;
  lia.

(** Lemmas saying that a part of the generator keeps [genOk]. *)
Create HintDb genok.
#[global] Hint Extern 1 (inGrid _ _) => in_grid : genok.
#[global] Hint Extern 1 (_ <= _ < _) => in_grid : genok.

(** One step of a proof that a computation keeps [genOk]. *)
Ltac ok_step :=
  lazymatch goal with
  | |- wp (bind _ _) _ _ => apply wp_bind
  | |- wp (ret _) _ _ => apply wp_ret
  | |- wp rng _ _ =>
      eapply wp_mono; [apply rng_ok; assumption | cbv beta; intros ? ? [? ?]]
  | |- wp (writeTile _ _ _) _ _ =>
      eapply wp_mono;
      [apply writeTile_ok; [assumption | in_grid | discriminate] | cbv beta; intros ? ? ?]
  | |- wp (readTile _ _) _ _ =>
      eapply wp_mono; [apply readTile_ok; [assumption | in_grid] | cbv beta; intros ? ? ?]
  | |- wp (for_ _ _ _) _ _ =>
      eapply wp_mono;
      [apply (wp_for genOk); [assumption | intros ? ? ? ?] | cbv beta; intros ? ? ?]
  | |- wp (forBreak _ _) _ _ =>
      eapply wp_mono;
      [apply (wp_forBreak genOk); [assumption | intros ? ? ? ?] | cbv beta; intros ? ? ?]
  | |- wp (if ?b then _ else _) _ _ => destruct b eqn:?
  | |- wp _ _ _ =>
      eapply wp_mono; [solve [eauto with genok] | cbv beta; intros ? ? ?]
  | |- genOk _ => assumption
  end.

Section GeneratorFacts.

Variable heightBase : Z -> Z -> Z -> Z.
Variable SEED : Z.

Lemma fillColumn_ok x surfaceY s :
  0 <= x < CHUNK_SIZE -> genOk s -> wp (fillColumn x surfaceY) (fun _ s' => genOk s') s.
Proof. intros Hx Hok. unfold fillColumn. repeat ok_step. Qed.
#[local] Hint Resolve fillColumn_ok : genok.

Lemma heightmapPass_ok cx cy s :
  genOk s -> wp (heightmapPass heightBase cx cy) (fun _ s' => genOk s') s.
Proof. intros Hok. unfold heightmapPass. repeat ok_step. Qed.

Lemma carveDisc_ok tx ty r s :
  genOk s -> wp (carveDisc tx ty r) (fun _ s' => genOk s') s.
Proof. intros Hok. unfold carveDisc. repeat ok_step. Qed.
#[local] Hint Resolve carveDisc_ok : genok.

Lemma drillUp_ok tx ty s :
  inGrid ty tx -> genOk s -> wp (drillUp tx ty) (fun _ s' => genOk s') s.
Proof. intros Hin Hok. unfold drillUp. repeat ok_step. Qed.
#[local] Hint Resolve drillUp_ok : genok.

Lemma floorMul_range u k : 0 <= u < 2 ^ 32 -> 0 < k -> 0 <= floorMul u k < k.
Proof.
  intros Hu Hk. unfold floorMul. split.
  - apply Z.div_pos; nia.
  - apply Z.div_lt_upper_bound; nia.
Qed.

Lemma jitter_range u : 0 <= u < 2 ^ 32 -> -1 <= jitter u <= 1.
Proof. intros Hu. unfold jitter. pose proof (floorMul_range u 3 Hu eq_refl). lia. Qed.

Lemma caveStartRow_range u : 0 <= u < 2 ^ 32 -> 12 <= caveStartRow u <= 28.
Proof.
  intros Hu. unfold caveStartRow. split.
  - apply Z.div_le_lower_bound; lia.
  - apply Z.lt_succ_r, Z.div_lt_upper_bound; lia.
Qed.

Lemma tunnel_ok s : genOk s -> wp tunnel (fun _ s' => genOk s') s.
Proof.
  intros Hok. unfold tunnel.
  repeat ok_step.
  eapply wp_mono.
  { apply (wp_loop (fun p s => genOk s /\ inGrid (snd p) (fst p))).
    - intros i [tx ty] s0 _ [Hok0 Hin0]. cbn [fst snd] in *.
      repeat ok_step. cbn [flowVal fst snd]. split; [assumption |].
      unfold inGrid, CHUNK_SIZE. lia.
    - cbn [fst snd]. split; [assumption |].
      match goal with
      | H1 : 0 <= ?u1 < 2 ^ 32, H2 : 0 <= ?u2 < 2 ^ 32
        |- inGrid (caveStartRow ?u2) (floorMul ?u1 _) =>
          pose proof (caveStartRow_range u2 H2);
          pose proof (floorMul_range u1 CHUNK_SIZE H1 eq_refl)
      end.
      unfold inGrid, CHUNK_SIZE in *. lia. }
  cbv beta. intros [tx ty] s1 [Hok1 Hin1]. cbn [fst snd] in *.
  repeat ok_step.
Qed.
#[local] Hint Resolve tunnel_ok : genok.

Lemma caves_ok s : genOk s -> wp caves (fun _ s' => genOk s') s.
Proof. intros Hok. unfold caves. repeat ok_step. Qed.

(** The copper test of the ore pass is made on a sample that already
    failed the coal test, and then it fails too. *)
Lemma copper_branch_dead r : rlt r 2 100 = false -> rlt r 7 1000 = false.
Proof. unfold rlt. rewrite !Z.ltb_ge. lia. Qed.

Lemma ores_ok s : genOk s -> wp ores (fun _ s' => genOk s') s.
Proof.
  intros Hok. unfold ores.
  repeat ok_step.
  match goal with
  | H : rlt _ 2 100 = false, H' : rlt _ 7 1000 = true |- _ =>
      rewrite (copper_branch_dead _ H) in H'; discriminate
  end.
Qed.

Lemma growTree_ok x y s :
  2 <= x < CHUNK_SIZE - 2 -> 0 <= y < CHUNK_SIZE - 1 ->
  genOk s -> wp (growTree x y) (fun _ s' => genOk s') s.
Proof. intros Hx Hy Hok. unfold growTree. repeat ok_step. Qed.
#[local] Hint Resolve growTree_ok : genok.

Lemma trees_ok s : genOk s -> wp trees (fun _ s' => genOk s') s.
Proof. intros Hok. unfold trees. repeat ok_step. Qed.

Lemma genInit_ok cx cy : genOk (genInit SEED cx cy).
Proof. split; [apply square_emptyGrid | apply noCopper_emptyGrid]. Qed.

Lemma generatePasses_ok cx cy s :
  genOk s -> wp (generatePasses heightBase cx cy) (fun _ s' => genOk s') s.
Proof.
  intros Hok. unfold generatePasses.
  apply wp_bind.
  eapply wp_mono; [apply heightmapPass_ok; assumption | cbv beta; intros ? ? ?].
  apply wp_bind.
  eapply wp_mono; [apply caves_ok; assumption | cbv beta; intros ? ? ?].
  apply wp_bind.
  eapply wp_mono; [apply ores_ok; assumption | cbv beta; intros ? ? ?].
  apply trees_ok; assumption.
Qed.

(** [generateChunk] returns, and what it returns is a square grid with
    no copper in it and the flag down. *)
Lemma generateChunk_returns cx cy :
  exists c, generateChunk heightBase SEED cx cy = Some c /\
            square (tiles c) /\ noCopper (tiles c) /\ modified c = false.
Proof.
  destruct (generatePasses_ok cx cy _ (genInit_ok cx cy)) as ([] & s & Hrun & Hsq & Hnc).
  exists (mkChunk (gen_tiles s) false). unfold generateChunk. rewrite Hrun.
  split; [reflexivity | split; [exact Hsq | split; [exact Hnc | reflexivity]]].
Qed.

End GeneratorFacts.

(** The generator of WorldScene.ts keeps the same invariant. *)
Section SceneFacts.

Variable heightBase : Z -> Z -> Z -> Z.
Variable seed : string.

Lemma scene_fillColumn_ok x surfaceY s :
  0 <= x < CHUNK_SIZE -> genOk s -> wp (Scene.fillColumn x surfaceY) (fun _ s' => genOk s') s.
Proof. intros Hx Hok. unfold Scene.fillColumn. repeat ok_step. Qed.
#[local] Hint Resolve scene_fillColumn_ok : genok.

Lemma scene_heightmapPass_ok cx cy s :
  genOk s -> wp (Scene.heightmapPass heightBase cx cy) (fun _ s' => genOk s') s.
Proof. intros Hok. unfold Scene.heightmapPass. repeat ok_step. Qed.

Lemma scene_carveDisc_ok tx ty r s :
  genOk s -> wp (Scene.carveDisc tx ty r) (fun _ s' => genOk s') s.
Proof. intros Hok. unfold Scene.carveDisc. repeat ok_step. Qed.
#[local] Hint Resolve scene_carveDisc_ok : genok.

Lemma scene_drillUp_ok tx ty s :
  inGrid ty tx -> genOk s -> wp (Scene.drillUp tx ty) (fun _ s' => genOk s') s.
Proof. intros Hin Hok. unfold Scene.drillUp. repeat ok_step. Qed.
#[local] Hint Resolve scene_drillUp_ok : genok.

Lemma scene_tunnel_ok s : genOk s -> wp Scene.tunnel (fun _ s' => genOk s') s.
Proof.
  intros Hok. unfold Scene.tunnel.
  repeat ok_step.
  eapply wp_mono.
  { apply (wp_loop (fun p s => genOk s /\ inGrid (snd p) (fst p))).
    - intros i [tx ty] s0 _ [Hok0 Hin0]. cbn [fst snd] in *.
      repeat ok_step. cbn [flowVal fst snd]. split; [assumption |].
      unfold inGrid, CHUNK_SIZE. lia.
    - cbn [fst snd]. split; [assumption |].
      match goal with
      | H1 : 0 <= ?u1 < 2 ^ 32, H2 : 0 <= ?u2 < 2 ^ 32
        |- inGrid (caveStartRow ?u2) (floorMul ?u1 _) =>
          pose proof (caveStartRow_range u2 H2);
          pose proof (floorMul_range u1 CHUNK_SIZE H1 eq_refl)
      end.
      unfold inGrid, CHUNK_SIZE in *. lia. }
  cbv beta. intros [tx ty] s1 [Hok1 Hin1]. cbn [fst snd] in *.
  repeat ok_step.
Qed.
#[local] Hint Resolve scene_tunnel_ok : genok.

Lemma scene_caves_ok s : genOk s -> wp Scene.caves (fun _ s' => genOk s') s.
Proof. intros Hok. unfold Scene.caves. repeat ok_step. Qed.

Lemma scene_ores_ok s : genOk s -> wp Scene.ores (fun _ s' => genOk s') s.
Proof.
  intros Hok. unfold Scene.ores.
  repeat ok_step.
  match goal with
  | H : rlt _ 2 100 = false, H' : rlt _ 7 1000 = true |- _ =>
      rewrite (copper_branch_dead _ H) in H'; discriminate
  end.
Qed.

Lemma scene_growTree_ok x y s :
  2 <= x < CHUNK_SIZE - 2 -> 0 <= y < CHUNK_SIZE - 1 ->
  genOk s -> wp (Scene.growTree x y) (fun _ s' => genOk s') s.
Proof. intros Hx Hy Hok. unfold Scene.growTree. repeat ok_step. Qed.
#[local] Hint Resolve scene_growTree_ok : genok.

Lemma scene_trees_ok s : genOk s -> wp Scene.trees (fun _ s' => genOk s') s.
Proof. intros Hok. unfold Scene.trees. repeat ok_step. Qed.

Lemma scene_generatePasses_ok cx cy s :
  genOk s -> wp (Scene.generatePasses heightBase cx cy) (fun _ s' => genOk s') s.
Proof.
  intros Hok. unfold Scene.generatePasses.
  apply wp_bind.
  eapply wp_mono; [apply scene_heightmapPass_ok; assumption | cbv beta; intros ? ? ?].
  apply wp_bind.
  eapply wp_mono; [apply scene_caves_ok; assumption | cbv beta; intros ? ? ?].
  apply wp_bind.
  eapply wp_mono; [apply scene_ores_ok; assumption | cbv beta; intros ? ? ?].
  apply scene_trees_ok; assumption.
Qed.

Lemma scene_generateChunk_returns cx cy :
  exists g, Scene.generateChunk heightBase seed cx cy = Some g /\
            square g /\ noCopper g.
Proof.
  assert (genOk (Scene.genInit seed cx cy)) as Hinit
    by (split; [apply square_emptyGrid | apply noCopper_emptyGrid]).
  destruct (scene_generatePasses_ok cx cy _ Hinit) as ([] & s & Hrun & Hsq & Hnc).
  exists (gen_tiles s). unfold Scene.generateChunk. rewrite Hrun.
  split; [reflexivity | split; assumption].
Qed.

End SceneFacts.

(** ** The first pass: the layers of a column *)

(** Writing [layer surfaceY y] down column [x] fills it and touches no
    other column. *)
Lemma fill_spec (body : Z -> Gen unit) x surfaceY s :
  0 <= x < CHUNK_SIZE -> square (gen_tiles s) ->
  (forall y, 0 <= y < CHUNK_SIZE -> body y = writeTile y x (layer surfaceY y)) ->
  wp (for_ 0 CHUNK_SIZE body)
     (fun _ s' =>
        square (gen_tiles s') /\
        (forall y, 0 <= y < CHUNK_SIZE -> cell (gen_tiles s') y x = Some (layer surfaceY y)) /\
        (forall y x', x' <> x -> cell (gen_tiles s') y x' = cell (gen_tiles s) y x')) s.
Proof.
  intros Hx Hsq Hbody.
  apply (wp_for_idx (fun i s' =>
    square (gen_tiles s') /\
    (forall y, 0 <= y < i -> cell (gen_tiles s') y x = Some (layer surfaceY y)) /\
    (forall y x', x' <> x -> cell (gen_tiles s') y x' = cell (gen_tiles s) y x'))).
  - unfold CHUNK_SIZE; lia.
  - split; [exact Hsq | split; [intros; lia | reflexivity]].
  - intros i s1 Hi (Hsq1 & Hcol & Hrest). rewrite (Hbody i Hi).
    apply wp_writeTile; [exact Hsq1 | split; assumption |].
    intros g' Hg'. cbn [gen_a gen_tiles].
    split; [eapply setCell_square; eassumption |]. split.
    + intros y Hy. destruct (decide (y = i)) as [->|Hne].
      * eapply cell_setCell_eq; eassumption.
      * rewrite (cell_setCell_ne _ _ _ _ _ y x Hg') by congruence.
        apply Hcol. lia.
    + intros y x' Hx'.
      rewrite (cell_setCell_ne _ _ _ _ _ y x' Hg') by congruence.
      apply Hrest; exact Hx'.
Qed.

Lemma layer_layered (g : Grid) (x surfaceY : Z) :
  4 <= surfaceY <= CHUNK_SIZE - 6 ->
  (forall y, 0 <= y < CHUNK_SIZE -> cell g y x = Some (layer surfaceY y)) ->
  layeredColumn g x surfaceY.
Proof.
  intros Hr Hcol. unfold layeredColumn, CHUNK_SIZE in *.
  assert (forall y t, 0 <= y < 32 -> layer surfaceY y = t -> cell g y x = Some t) as Hlay.
  { intros y t Hy <-. apply Hcol. exact Hy. }
  split; [exact Hr |]. split; [| split; [| split]].
  - intros y Hy. apply Hlay; [lia |]. unfold layer.
    rewrite (proj2 (Z.ltb_lt _ _)) by lia. reflexivity.
  - apply Hlay; [lia |]. unfold layer.
    rewrite Z.ltb_irrefl, Z.eqb_refl. reflexivity.
  - intros y Hy. apply Hlay; [lia |]. unfold layer.
    rewrite (proj2 (Z.ltb_ge _ _)), (proj2 (Z.eqb_neq _ _)) by lia.
    rewrite !(proj2 (Z.ltb_lt _ _)) by lia. reflexivity.
  - intros y Hy. apply Hlay; [lia |]. unfold layer.
    rewrite (proj2 (Z.ltb_ge y _)), (proj2 (Z.eqb_neq _ _)) by lia.
    rewrite (proj2 (Z.ltb_ge y (_ + 4))) by lia. rewrite andb_false_r. reflexivity.
Qed.

Section HeightmapFacts.

Variable heightBase : Z -> Z -> Z -> Z.

Lemma surfaceRow_range cx cy x u :
  4 <= surfaceRow heightBase cx cy x u <= CHUNK_SIZE - 6.
Proof. unfold surfaceRow, CHUNK_SIZE. lia. Qed.

Lemma scene_surfaceRow_range cx cy x u :
  4 <= Scene.surfaceRow heightBase cx cy x u <= CHUNK_SIZE - 6.
Proof. unfold Scene.surfaceRow, CHUNK_SIZE. lia. Qed.

Lemma fillColumn_spec x surfaceY s :
  0 <= x < CHUNK_SIZE -> square (gen_tiles s) ->
  wp (fillColumn x surfaceY)
     (fun _ s' =>
        square (gen_tiles s') /\
        (forall y, 0 <= y < CHUNK_SIZE -> cell (gen_tiles s') y x = Some (layer surfaceY y)) /\
        (forall y x', x' <> x -> cell (gen_tiles s') y x' = cell (gen_tiles s) y x')) s.
Proof.
  intros Hx Hsq. apply fill_spec; [exact Hx | exact Hsq |].
  intros y _. unfold layer.
  destruct (y <? surfaceY); [reflexivity |].
  destruct (y =? surfaceY); [reflexivity |].
  destruct ((surfaceY <? y) && (y <? surfaceY + 4)); reflexivity.
Qed.

(** The third test of WorldScene.ts leaves out [y > surfaceY], which the
    two tests before it have settled. *)
Lemma scene_fillColumn_spec x surfaceY s :
  0 <= x < CHUNK_SIZE -> square (gen_tiles s) ->
  wp (Scene.fillColumn x surfaceY)
     (fun _ s' =>
        square (gen_tiles s') /\
        (forall y, 0 <= y < CHUNK_SIZE -> cell (gen_tiles s') y x = Some (layer surfaceY y)) /\
        (forall y x', x' <> x -> cell (gen_tiles s') y x' = cell (gen_tiles s) y x')) s.
Proof.
  intros Hx Hsq. apply fill_spec; [exact Hx | exact Hsq |].
  intros y _. unfold layer.
  destruct (y <? surfaceY) eqn:Hlt; [reflexivity |].
  destruct (y =? surfaceY) eqn:Heq; [reflexivity |].
  replace (surfaceY <? y) with true by (symmetry; apply Z.ltb_lt; lia).
  destruct (y <? surfaceY + 4); reflexivity.
Qed.

(** The first pass, whichever of the two ways of filling a column. *)
Lemma columns_spec (fill : Z -> Z -> Gen unit) (rowOf : Z -> Z -> Z) s :
  (forall x surfaceY s, 0 <= x < CHUNK_SIZE -> square (gen_tiles s) ->
     wp (fill x surfaceY)
        (fun _ s' =>
           square (gen_tiles s') /\
           (forall y, 0 <= y < CHUNK_SIZE ->
                      cell (gen_tiles s') y x = Some (layer surfaceY y)) /\
           (forall y x', x' <> x -> cell (gen_tiles s') y x' = cell (gen_tiles s) y x')) s) ->
  square (gen_tiles s) ->
  wp (for_ 0 CHUNK_SIZE (fun x => u <- rng ;; fill x (rowOf x u)))
     (fun _ s' => columnsDone rowOf CHUNK_SIZE s') s.
Proof.
  intros Hfill Hsq.
  apply (wp_for_idx (columnsDone rowOf)).
  - unfold CHUNK_SIZE; lia.
  - split; [exact Hsq | intros; lia].
  - intros i s1 Hi [Hsq1 Hdone]. apply wp_bind, wp_rng. intros u a' Hu.
    eapply wp_mono; [apply Hfill; [exact Hi | exact Hsq1] |].
    cbv beta. intros ? s2 (Hsq2 & Hcol & Hrest). cbn [gen_tiles] in *.
    split; [exact Hsq2 |]. intros x Hx.
    destruct (decide (x = i)) as [->|Hne].
    + exists u. split; [exact Hu | exact Hcol].
    + destruct (Hdone x) as (u' & Hu' & Hx'); [lia |].
      exists u'. split; [exact Hu' |]. intros y Hy.
      rewrite Hrest by exact Hne. apply Hx'; exact Hy.
Qed.

Lemma heightmapPass_spec cx cy s :
  square (gen_tiles s) ->
  wp (heightmapPass heightBase cx cy)
     (fun _ s' => columnsDone (surfaceRow heightBase cx cy) CHUNK_SIZE s') s.
Proof. apply (columns_spec fillColumn). intros; apply fillColumn_spec; assumption. Qed.

Lemma scene_heightmapPass_spec cx cy s :
  square (gen_tiles s) ->
  wp (Scene.heightmapPass heightBase cx cy)
     (fun _ s' => columnsDone (Scene.surfaceRow heightBase cx cy) CHUNK_SIZE s') s.
Proof.
  apply (columns_spec Scene.fillColumn). intros; apply scene_fillColumn_spec; assumption.
Qed.

End HeightmapFacts.

(** ** The chunk store *)

Lemma storeOk_empty : storeOk ∅.
Proof. intros k c H. rewrite lookup_empty in H. discriminate. Qed.

Lemma storeOk_insert m k c : storeOk m -> square (tiles c) -> storeOk (<[k := c]> m).
Proof.
  intros Hm Hc k' c' H. destruct (decide (k = k')) as [->|Hne].
  - rewrite lookup_insert_eq in H. injection H as <-. exact Hc.
  - rewrite lookup_insert_ne in H by exact Hne. exact (Hm _ _ H).
Qed.

Lemma localCoord_range world : 0 <= localCoord world < CHUNK_SIZE.
Proof. unfold localCoord, CHUNK_SIZE. Z.to_euclidean_division_equations. lia. Qed.

Section StoreFacts.

Variable heightBase : Z -> Z -> Z -> Z.
Variable SEED : Z.

Local Abbreviation ensureChunk := (ensureChunk heightBase SEED).
Local Abbreviation getTile := (getTile heightBase SEED).
Local Abbreviation setTile := (setTile heightBase SEED).
Local Abbreviation generateChunk := (generateChunk heightBase SEED).

(** A cached chunk is returned as it is, and the world is unchanged. *)
Lemma ensureChunk_hit w cx cy c :
  chunks w !! ck cx cy = Some c -> ensureChunk cx cy w = Some (c, w).
Proof.
  intros Hc. unfold ensureChunk, bind, get.
  rewrite bool_decide_eq_true_2 by (rewrite Hc; eexists; reflexivity).
  cbn. unfold liftOpt. rewrite Hc. reflexivity.
Qed.

(** A missing chunk is generated and cached. *)
Lemma ensureChunk_miss w cx cy :
  chunks w !! ck cx cy = None ->
  exists c, generateChunk cx cy = Some c /\
            ensureChunk cx cy w = Some (c, set_chunks (<[ck cx cy := c]> (chunks w)) w).
Proof.
  intros Hc. destruct (generateChunk_returns heightBase SEED cx cy) as (c & Hgen & _).
  exists c. split; [exact Hgen |].
  unfold ensureChunk, bind, get.
  rewrite bool_decide_eq_false_2 by (rewrite Hc; intros [? ?]; discriminate).
  unfold liftOpt at 1. rewrite Hgen. cbn. unfold liftOpt.
  rewrite lookup_insert_eq. reflexivity.
Qed.

(** [ensureChunk] always returns; it only ever adds the chunk asked for. *)
Lemma ensureChunk_spec w cx cy :
  storeOk (chunks w) ->
  exists c w', ensureChunk cx cy w = Some (c, w') /\
    chunks w' !! ck cx cy = Some c /\ square (tiles c) /\ storeOk (chunks w') /\
    (w' = w \/ (chunks w !! ck cx cy = None /\ generateChunk cx cy = Some c /\
               w' = set_chunks (<[ck cx cy := c]> (chunks w)) w)).
Proof.
  intros Hok. destruct (chunks w !! ck cx cy) as [c|] eqn:Hc.
  - exists c, w. split; [apply ensureChunk_hit; exact Hc |].
    split; [exact Hc |]. split; [exact (Hok _ _ Hc) |]. split; [exact Hok |]. left; reflexivity.
  - destruct (ensureChunk_miss w cx cy Hc) as (c & Hgen & Hrun).
    destruct (generateChunk_returns heightBase SEED cx cy) as (c' & Hgen' & Hsq & _).
    assert (c' = c) as -> by congruence.
    exists c, (set_chunks (<[ck cx cy := c]> (chunks w)) w).
    split; [exact Hrun |]. cbn.
    split; [apply lookup_insert_eq |]. split; [exact Hsq |].
    split; [apply storeOk_insert; assumption |]. right. auto.
Qed.

(** [setTile] then [getTile] at the same place. *)
Lemma setTile_run w worldX worldY tile :
  storeOk (chunks w) ->
  exists c g w',
    ensureChunk (chunkCoord worldX) (chunkCoord worldY) w = Some (c, w') /\
    setCell (tiles c) (localCoord worldY) (localCoord worldX) tile = Some g /\
    setTile worldX worldY tile w =
      Some (tt,
            emit EvScheduleSave
              (set_saveTimeout true
                 (emit (EvSetTile worldX worldY tile)
                    (set_chunks
                       (<[ck (chunkCoord worldX) (chunkCoord worldY) := mkChunk g true]>
                          (chunks w')) w')))).
Proof.
  intros Hok.
  destruct (ensureChunk_spec w (chunkCoord worldX) (chunkCoord worldY) Hok)
    as (c & w' & Hrun & _ & Hsq & _ & _).
  destruct (setCell_is_Some (tiles c) (localCoord worldY) (localCoord worldX) tile Hsq)
    as [g Hg].
  { split; apply localCoord_range. }
  exists c, g, w'. split; [exact Hrun |]. split; [exact Hg |].
  unfold setTile, bind. rewrite Hrun. unfold liftOpt. rewrite Hg. reflexivity.
Qed.

(** Reading a cached tile changes nothing. *)
Lemma getTile_hit w worldX worldY c t :
  chunks w !! ck (chunkCoord worldX) (chunkCoord worldY) = Some c ->
  cell (tiles c) (localCoord worldY) (localCoord worldX) = Some t ->
  getTile worldX worldY w = Some (t, w).
Proof.
  intros Hc Ht. unfold getTile, bind.
  rewrite (ensureChunk_hit _ _ _ _ Hc). unfold liftOpt. rewrite Ht. reflexivity.
Qed.

(** [getTile] always returns a tile; at most it caches the chunk read. *)
Lemma getTile_spec w worldX worldY :
  storeOk (chunks w) ->
  exists t w1 c,
    getTile worldX worldY w = Some (t, w1) /\
    chunks w1 !! ck (chunkCoord worldX) (chunkCoord worldY) = Some c /\
    cell (tiles c) (localCoord worldY) (localCoord worldX) = Some t /\
    storeOk (chunks w1) /\
    w1 = set_chunks (chunks w1) w /\
    (forall k c0, chunks w !! k = Some c0 -> chunks w1 !! k = Some c0).
Proof.
  intros Hok.
  destruct (ensureChunk_spec w (chunkCoord worldX) (chunkCoord worldY) Hok)
    as (c & w1 & Hrun & Hc & Hsq & Hok1 & Hcase).
  destruct (cell_is_Some (tiles c) (localCoord worldY) (localCoord worldX) Hsq) as [t Ht].
  { split; apply localCoord_range. }
  exists t, w1, c. split.
  { unfold getTile, bind. rewrite Hrun. unfold liftOpt. rewrite Ht. reflexivity. }
  split; [exact Hc |]. split; [exact Ht |]. split; [exact Hok1 |].
  destruct Hcase as [-> | (Hnone & _ & ->)].
  - split; [destruct w; reflexivity | auto].
  - split; [reflexivity |]. cbn. intros k c0 Hk.
    rewrite lookup_insert_ne; [exact Hk |]. intros <-. congruence.
Qed.

(** What [setTile] does, in full. *)
Lemma setTile_spec w worldX worldY tile :
  storeOk (chunks w) ->
  exists w1 c,
    setTile worldX worldY tile w = Some (tt, w1) /\
    chunks w1 !! ck (chunkCoord worldX) (chunkCoord worldY) = Some c /\
    cell (tiles c) (localCoord worldY) (localCoord worldX) = Some tile /\
    modified c = true /\
    saveTimeout w1 = true /\
    storeOk (chunks w1) /\
    events w1 = events w ++ [EvSetTile worldX worldY tile; EvScheduleSave] /\
    player w1 = player w /\ mouse w1 = mouse w.
Proof.
  intros Hok.
  destruct (setTile_run w worldX worldY tile Hok) as (c & g & w' & Hens & Hg & Hrun).
  destruct (ensureChunk_spec w (chunkCoord worldX) (chunkCoord worldY) Hok)
    as (c0 & w0 & Hrun0 & _ & Hsq0 & Hok0 & Hcase).
  assert (c0 = c /\ w0 = w') as [-> ->] by (split; congruence).
  eexists _, (mkChunk g true). split; [exact Hrun |].
  split; [cbn; apply lookup_insert_eq |].
  split; [exact (cell_setCell_eq _ _ _ _ _ Hg) |].
  split; [reflexivity |]. split; [reflexivity |].
  split; [cbn; apply storeOk_insert; [exact Hok0 | eapply setCell_square; eassumption] |].
  destruct Hcase as [-> | (_ & _ & ->)]; cbn; rewrite <- app_assoc; auto.
Qed.

End StoreFacts.

(** ** Chunk keys *)

Lemma pretty_N_go_noComma (x : N) (s : string) :
  noComma s = true -> noComma (pretty_N_go x s) = true.
Proof.
  revert s. induction (N.lt_wf_0 x) as [x _ IH]; intros s Hs.
  destruct (decide (x = 0%N)) as [->|Hx].
  - rewrite pretty_N_go_0. exact Hs.
  - rewrite pretty_N_go_step by lia. apply IH.
    + apply N.div_lt; lia.
    + cbn [noComma]. rewrite Hs, andb_true_r.
      unfold pretty_N_char. repeat case_match; reflexivity.
Qed.

Lemma pretty_Z_noComma (z : Z) : noComma (JS.numToString z) = true.
Proof.
  unfold JS.numToString, pretty, pretty_Z.
  assert (forall p : positive, noComma (pretty p) = true) as Hpos.
  { intros p. unfold pretty, pretty_positive, pretty, pretty_N.
    case_decide; [reflexivity |]. apply pretty_N_go_noComma. reflexivity. }
  destruct z as [|p|p]; [reflexivity | apply Hpos |].
  change (noComma (String "-"%char (pretty p)) = true).
  cbn [noComma]. rewrite Hpos. reflexivity.
Qed.

Lemma append_nil_l (s : string) : "" +:+ s = s.
Proof. reflexivity. Qed.

Lemma append_cons (c : ascii) (s t : string) : String c s +:+ t = String c (s +:+ t).
Proof. reflexivity. Qed.

Lemma app_comma_inj (s1 s2 t1 t2 : string) :
  noComma s1 = true -> noComma s2 = true ->
  s1 +:+ "," +:+ t1 = s2 +:+ "," +:+ t2 -> s1 = s2 /\ t1 = t2.
Proof.
  revert s2. induction s1 as [|c s1 IH]; intros [|d s2] H1 H2 Heq;
    repeat (rewrite append_nil_l in Heq || rewrite append_cons in Heq);
    cbn [noComma] in *.
  - injection Heq as Ht. subst. split; reflexivity.
  - injection Heq as Hd _. subst d. discriminate.
  - injection Heq as Hc _. subst c. discriminate.
  - injection Heq as Hc Heq. subst d.
    apply andb_true_iff in H1 as [_ H1]. apply andb_true_iff in H2 as [_ H2].
    destruct (IH s2 H1 H2 Heq) as [-> ->]. split; reflexivity.
Qed.

(** Two chunk coordinates never share a key of the store. *)
Lemma ck_inj cx cy cx' cy' : ck cx cy = ck cx' cy' -> cx = cx' /\ cy = cy'.
Proof.
  unfold ck. intros Heq.
  apply app_comma_inj in Heq as [Hx Hy]; try apply pretty_Z_noComma.
  split; eapply (inj pretty); eassumption.
Qed.

(** ** Streaming *)

Lemma extends_refl w : storeOk (chunks w) -> extends w w.
Proof. intros Hok. split; [destruct w; reflexivity |]. split; [exact Hok | auto]. Qed.

Lemma extends_trans w1 w2 w3 : extends w1 w2 -> extends w2 w3 -> extends w1 w3.
Proof.
  intros (E12 & _ & G12) (E23 & Hok & G23). split; [| split; [exact Hok | auto]].
  rewrite E23, E12. reflexivity.
Qed.

Section StreamFacts.

Variable heightBase : Z -> Z -> Z -> Z.
Variable SEED : Z.

Local Abbreviation ensureChunk := (ensureChunk heightBase SEED).
Local Abbreviation streamChunksAroundPlayer := (streamChunksAroundPlayer heightBase SEED).

Lemma ensureChunk_extends w cx cy :
  storeOk (chunks w) ->
  wp (ensureChunk cx cy)
     (fun _ w' => extends w w' /\
                  forall k, k ∈ dom (chunks w') <-> k ∈ dom (chunks w) \/ k = ck cx cy) w.
Proof.
  intros Hok.
  destruct (ensureChunk_spec heightBase SEED w cx cy Hok)
    as (c & w' & Hrun & Hc & _ & Hok' & [-> | (Hnone & _ & ->)]).
  - exists c, w. split; [exact Hrun |]. split; [apply extends_refl; exact Hok |].
    intros k. split; [auto |]. intros [Hk | ->]; [exact Hk |].
    apply elem_of_dom. eexists; exact Hc.
  - eexists _, _. split; [exact Hrun |]. split.
    + split; [reflexivity |]. split; [exact Hok' |]. cbn. intros k c0 Hk.
      rewrite lookup_insert_ne; [exact Hk |]. intros <-. congruence.
    + intros k. cbn. rewrite dom_insert, elem_of_union, elem_of_singleton. tauto.
Qed.

(** Streaming returns, adds exactly the window's chunks and changes
    nothing else. *)
Lemma stream_spec w pcx pcy :
  storeOk (chunks w) ->
  Num.floor (Player.x (player w) / Num.ofZ CHUNK_SIZE) = Some pcx ->
  Num.floor (Player.y (player w) / Num.ofZ CHUNK_SIZE) = Some pcy ->
  wp streamChunksAroundPlayer
     (fun _ w' => extends w w' /\
                  forall k, k ∈ dom (chunks w') <->
                            k ∈ dom (chunks w) \/ inWindow pcx pcy (VISIBLE_RANGE + 1) k) w.
Proof.
  intros Hok Hx Hy. unfold streamChunksAroundPlayer.
  apply wp_bind. exists (player w), w. split; [reflexivity |].
  apply wp_bind. eapply wp_liftOpt; [exact Hx |].
  apply wp_bind. eapply wp_liftOpt; [exact Hy |].
  apply (wp_for_idx (fun oy w' =>
    extends w w' /\
    forall k, k ∈ dom (chunks w') <-> k ∈ dom (chunks w) \/ inWindow pcx pcy oy k)).
  - unfold VISIBLE_RANGE; lia.
  - split; [apply extends_refl; exact Hok |].
    intros k. split; [auto |]. intros [Hk | (ox & oy & Hoy & _)]; [exact Hk | lia].
  - intros oy w1 Hoy [Hext1 Hdom1].
    eapply wp_mono.
    { apply (wp_for_idx (fun ox w' =>
        extends w w' /\
        forall k, k ∈ dom (chunks w') <->
                  k ∈ dom (chunks w) \/ inWindow pcx pcy oy k \/ inRow pcx pcy oy ox k)).
      - unfold VISIBLE_RANGE; lia.
      - split; [exact Hext1 |]. intros k. rewrite Hdom1.
        split; [tauto |]. intros [Hk | [Hk | (ox & Hox & _)]]; [auto | auto | lia].
      - intros ox w2 Hox [Hext2 Hdom2]. apply wp_bind.
        eapply wp_mono; [apply ensureChunk_extends; apply Hext2 |].
        cbv beta. intros _ w3 [Hext3 Hdom3]. apply wp_ret.
        split; [eapply extends_trans; eassumption |].
        intros k. rewrite Hdom3, Hdom2. unfold inRow. split.
        + intros [[Hk | [Hk | (ox' & Hox' & ->)]] | ->]; auto.
          * right; right. exists ox'. split; [lia | reflexivity].
          * right; right. exists ox. split; [lia | reflexivity].
        + intros [Hk | [Hk | (ox' & Hox' & ->)]]; auto.
          destruct (decide (ox' = ox)) as [->|Hne]; [right; reflexivity |].
          left; right; right. exists ox'. split; [lia | reflexivity]. }
    cbv beta. intros _ w2 [Hext2 Hdom2]. split; [exact Hext2 |].
    intros k. rewrite Hdom2. unfold inWindow, inRow. split.
    + intros [Hk | [(ox & oy' & Hoy' & Hox & ->) | (ox & Hox & ->)]]; auto.
      * right. exists ox, oy'. split; [lia | split; [lia | reflexivity]].
      * right. exists ox, oy. split; [lia | split; [lia | reflexivity]].
    + intros [Hk | (ox & oy' & Hoy' & Hox & ->)]; auto.
      destruct (decide (oy' = oy)) as [->|Hne].
      * right; right. exists ox. split; [lia | reflexivity].
      * right; left. exists ox, oy'. split; [lia | split; [lia | reflexivity]].
Qed.

(** When the whole window is cached, streaming changes nothing. *)
Lemma stream_cached w pcx pcy :
  Num.floor (Player.x (player w) / Num.ofZ CHUNK_SIZE) = Some pcx ->
  Num.floor (Player.y (player w) / Num.ofZ CHUNK_SIZE) = Some pcy ->
  (forall k, inWindow pcx pcy (VISIBLE_RANGE + 1) k -> is_Some (chunks w !! k)) ->
  streamChunksAroundPlayer w = Some (tt, w).
Proof.
  intros Hx Hy Hall.
  enough (wp streamChunksAroundPlayer (fun _ w' => w' = w) w) as ([] & w' & Hrun & ->)
    by exact Hrun.
  unfold streamChunksAroundPlayer.
  apply wp_bind. exists (player w), w. split; [reflexivity |].
  apply wp_bind. eapply wp_liftOpt; [exact Hx |].
  apply wp_bind. eapply wp_liftOpt; [exact Hy |].
  apply (wp_for (fun w' => w' = w)); [reflexivity |].
  intros oy ? Hoy ->.
  apply (wp_for (fun w' => w' = w)); [reflexivity |].
  intros ox ? Hox ->. apply wp_bind.
  destruct (Hall (ck (pcx + ox) (pcy + oy))) as [c Hc].
  { exists ox, oy. unfold VISIBLE_RANGE in *. split; [lia | split; [lia | reflexivity]]. }
  exists c, w. split; [apply ensureChunk_hit; exact Hc |].
  apply wp_ret. reflexivity.
Qed.

End StreamFacts.

Lemma windowKeys_size : size windowKeys = 25%nat.
Proof. vm_compute. reflexivity. Qed.

Lemma elem_of_windowKeys k :
  k ∈ windowKeys <-> inWindow 0 0 (VISIBLE_RANGE + 1) k.
Proof.
  unfold windowKeys, inWindow. rewrite elem_of_list_to_set, list_elem_of_fmap. split.
  - intros ([ox oy] & -> & [Hox Hoy]%list_elem_of_cprod). cbn [fst snd] in *.
    apply elem_of_seqZ in Hox, Hoy. exists ox, oy. rewrite !Z.add_0_l.
    unfold VISIBLE_RANGE in *. split; [lia | split; [lia | reflexivity]].
  - intros (ox & oy & Hoy & Hox & ->). exists (ox, oy). rewrite !Z.add_0_l.
    split; [reflexivity |]. apply list_elem_of_cprod. cbn [fst snd].
    rewrite !elem_of_seqZ. unfold VISIBLE_RANGE in *. lia.
Qed.

(** ** Mining *)

Section MiningFacts.

Variable heightBase : Z -> Z -> Z -> Z.
Variable SEED : Z.

Local Abbreviation getTile' := (getTile heightBase SEED).
Local Abbreviation tickMining' := (tickMining heightBase SEED).

(** What one poll of [tickMining] does when the tile under the pointer
    holds [t]; [w1] is the world once the tile has been read. *)
Lemma tickMining_run (w w1 : World) (wx wy : Z) (t : Tile) :
  storeOk (chunks w) ->
  Mouse.down (mouse w) = true ->
  pointerTile w = Some (wx, wy) ->
  getTile' wx wy w = Some (t, w1) ->
  exists w2,
    tickMining' w = Some (tt, w2) /\
    (t = AIR -> w2 = w1) /\
    (t <> AIR ->
       getTile' wx wy w2 = Some (AIR, w2) /\
       writesOf (events w2) = writesOf (events w) ++ [(wx, wy, AIR)] /\
       match dropOf t with
       | Some item =>
           addsOf (events w2) = addsOf (events w) ++ [(item, 1)] /\
           Player.inventory (player w2) =
             <[item := default 0 (Player.inventory (player w) !! item) + 1]>
               (Player.inventory (player w))
       | None =>
           addsOf (events w2) = addsOf (events w) /\
           Player.inventory (player w2) = Player.inventory (player w)
       end).
Proof.
  intros Hok Hdown Hpt Hget.
  destruct (getTile_spec heightBase SEED w wx wy Hok)
    as (t' & w1' & c1 & Hget' & _ & _ & Hok1 & Hw1 & _).
  assert (t' = t /\ w1' = w1) as [-> ->] by (split; congruence).
  assert (events w1 = events w /\ player w1 = player w) as [Hev1 Hpl1]
    by (rewrite Hw1; split; reflexivity).
  destruct (setTile_spec heightBase SEED w1 wx wy AIR Hok1)
    as (w2 & c2 & Hset & Hc2 & Hcell2 & _ & _ & _ & Hev2 & Hpl2 & _).
  assert (forall w3, chunks w3 = chunks w2 -> getTile' wx wy w3 = Some (AIR, w3)) as Hread.
  { intros w3 E. eapply getTile_hit; [rewrite E; exact Hc2 | exact Hcell2]. }
  unfold tickMining, bind, get. rewrite Hdown. unfold liftOpt at 1. rewrite Hpt.
  cbn [fst snd]. rewrite Hget.
  destruct t;
    repeat match goal with
           | |- context [truthy ?a] =>
               let v := eval vm_compute in (truthy a) in change (truthy a) with v
           | |- context [teq ?a ?b] =>
               let v := eval vm_compute in (teq a b) in change (teq a b) with v
           end;
    cbn [negb andb orb]; cbv iota; try rewrite Hset; cbv iota beta.
  all: eexists; (split; [reflexivity |]); (split; [try discriminate; try reflexivity |]).
  all: try (intros Hne; exfalso; apply Hne; reflexivity).
  all: intros _; (split; [apply Hread; reflexivity |]).
  all: unfold writesOf, addsOf; cbn [events emit set_player player Player.inventory
                                       Player.set_inventory];
       rewrite ?omap_app, Hev2, ?omap_app, Hev1, Hpl2, Hpl1; cbn [omap];
       rewrite ?app_nil_r; repeat split; reflexivity.
Qed.

End MiningFacts.

(** ** The physics tick *)

Lemma bind_inv {S A B} (m : M S A) (k : A -> M S B) s b s' :
  bind m k s = Some (b, s') -> exists a s1, m s = Some (a, s1) /\ k a s1 = Some (b, s').
Proof.
  unfold bind. destruct (m s) as [[a s1]|]; [| discriminate].
  intros H. exists a, s1. split; [reflexivity | exact H].
Qed.

Lemma liftOpt_inv {S A} (o : option A) (s : S) a s' :
  liftOpt o s = Some (a, s') -> o = Some a /\ s' = s.
Proof. unfold liftOpt. destruct o; [| discriminate]. intros [= -> ->]. split; reflexivity. Qed.

Section PhysicsFacts.

Variable heightBase : Z -> Z -> Z -> Z.
Variable SEED : Z.

Local Abbreviation rectCollides' := (rectCollidesWithTiles heightBase SEED).

(** A collision query returns a boolean and at most caches chunks. *)
Lemma rectCollides_scan w startX endX startY endY :
  storeOk (chunks w) ->
  wp (loop (seqZ startY (endY - startY + 1)) false (fun ty _ =>
        hit <- loop (seqZ startX (endX - startX + 1)) false (fun tx _ =>
                 t <- getTile heightBase SEED tx ty ;;
                 if tileSolid t then ret (Break true) else ret (Next false)) ;;
        if hit : bool then ret (Break true) else ret (Next false)))
     (fun _ w' => extends w w') w.
Proof.
  intros Hok.
  apply (wp_loop (fun _ w' => extends w w')); [| apply extends_refl; exact Hok].
  intros ty _ w1 _ Hext1. apply wp_bind.
  eapply wp_mono.
  { apply (wp_loop (fun _ w' => extends w w')); [| exact Hext1].
    intros tx _ w2 _ Hext2. apply wp_bind.
    destruct (getTile_spec heightBase SEED w2 tx ty) as (t & w3 & c & Hget & _ & _ & Hok3 & Hw3 & Hgrow);
      [apply Hext2 |].
    exists t, w3. split; [exact Hget |].
    assert (extends w w3) as Hext3.
    { eapply extends_trans; [exact Hext2 |]. split; [exact Hw3 | split; assumption]. }
    destruct (tileSolid t); apply wp_ret; exact Hext3. }
  cbv beta. intros hit w2 Hext2. destruct hit; apply wp_ret; exact Hext2.
Qed.

Lemma rectCollides_frame w x y wd h b w1 :
  storeOk (chunks w) ->
  rectCollides' x y wd h w = Some (b, w1) -> extends w w1.
Proof.
  intros Hok. unfold rectCollidesWithTiles. intros H.
  apply bind_inv in H as (startX & ? & [_ ->]%liftOpt_inv & H).
  apply bind_inv in H as (endX & ? & [_ ->]%liftOpt_inv & H).
  apply bind_inv in H as (startY & ? & [_ ->]%liftOpt_inv & H).
  apply bind_inv in H as (endY & ? & [_ ->]%liftOpt_inv & H).
  destruct (rectCollides_scan w startX endX startY endY Hok) as (b' & w' & Hrun & Hext).
  rewrite Hrun in H. injection H as _ <-. exact Hext.
Qed.

Lemma extends_player w w' : extends w w' -> player w' = player w.
Proof. intros (-> & _). reflexivity. Qed.

(** The vertical branch when the tentative move collides. *)
Lemma verticalCollision_hit w w1 ny :
  storeOk (chunks w) ->
  rectCollides' (Player.x (player w)) ny (Player.w (player w)) (Player.h (player w)) w
    = Some (true, w1) ->
  verticalCollision heightBase SEED ny w =
    Some (tt,
          set_player
            (Player.set_y
               (Num.floorF (Player.y (player w) + Player.h (player w)) - Player.h (player w))
               (Player.set_vy 0
                  (if (0 <? Player.vy (player w))%float
                   then Player.set_grounded true (player w)
                   else player w)))
            w1).
Proof.
  intros Hok Hhit.
  pose proof (extends_player _ _ (rectCollides_frame _ _ _ _ _ _ _ Hok Hhit)) as Hpl.
  unfold verticalCollision, bind, getPlayer. rewrite Hhit. cbn [negb].
  destruct (0 <? Player.vy (player w))%float; cbn; rewrite Hpl; reflexivity.
Qed.

End PhysicsFacts.

(** ** Every reachable store is made of square chunks *)

Lemma keeps_ret {A} (a : A) : keepsStore (ret a).
Proof. intros w a' w' Hok [= _ <-]. exact Hok. Qed.

Lemma keeps_bind {A B} (m : W A) (k : A -> W B) :
  keepsStore m -> (forall a, keepsStore (k a)) -> keepsStore (bind m k).
Proof.
  intros Hm Hk w b w' Hok (a & w1 & H1 & H2)%bind_inv.
  eapply Hk; [eapply Hm; eassumption | exact H2].
Qed.

Lemma keeps_get : keepsStore get.
Proof. intros w a w' Hok [= _ <-]. exact Hok. Qed.

Lemma keeps_getPlayer : keepsStore getPlayer.
Proof. intros w a w' Hok [= _ <-]. exact Hok. Qed.

Lemma keeps_liftOpt {A} (o : option A) : keepsStore (liftOpt o).
Proof. intros w a w' Hok [_ ->]%liftOpt_inv. exact Hok. Qed.

Lemma keeps_throw {A} : keepsStore (@throw World A).
Proof. intros w a w' _ [=]. Qed.

Lemma keeps_updPlayer (f : Player.t -> Player.t) : keepsStore (updPlayer f).
Proof. intros w a w' Hok [= _ <-]. exact Hok. Qed.

Lemma keeps_add item count : keepsStore (add item count).
Proof. intros w a w' Hok [= _ <-]. exact Hok. Qed.

Create HintDb keeps.
#[global] Hint Resolve keeps_ret keeps_get keeps_getPlayer keeps_liftOpt keeps_throw
  keeps_updPlayer keeps_add : keeps.

(** One step of a proof of [keepsStore]. *)
Ltac keeps_step :=
  lazymatch goal with
  | |- keepsStore (bind _ _) => apply keeps_bind; [| intros ?]
  | |- keepsStore (if ?b then _ else _) => destruct b
  | |- keepsStore _ => solve [eauto with keeps]
  end.

Section ReachableFacts.

Variable heightBase : Z -> Z -> Z -> Z.
Variable SEED : Z.

Lemma keeps_getTile wx wy : keepsStore (getTile heightBase SEED wx wy).
Proof.
  intros w t w' Hok Hrun.
  destruct (getTile_spec heightBase SEED w wx wy Hok) as (t0 & w0 & c & Hrun0 & _ & _ & Hok0 & _).
  assert (w0 = w') as <- by congruence. exact Hok0.
Qed.

Lemma keeps_setTile wx wy t : keepsStore (setTile heightBase SEED wx wy t).
Proof.
  intros w a w' Hok Hrun.
  destruct (setTile_spec heightBase SEED w wx wy t Hok)
    as (w0 & c & Hrun0 & _ & _ & _ & _ & Hok0 & _).
  assert (w0 = w') as <- by congruence. exact Hok0.
Qed.

Lemma keeps_rectCollides x y wd h :
  keepsStore (rectCollidesWithTiles heightBase SEED x y wd h).
Proof.
  intros w b w' Hok Hrun.
  exact (proj1 (proj2 (rectCollides_frame heightBase SEED _ _ _ _ _ _ _ Hok Hrun))).
Qed.

Lemma keeps_stream : keepsStore (streamChunksAroundPlayer heightBase SEED).
Proof.
  intros w a w' Hok Hrun.
  unfold streamChunksAroundPlayer in Hrun.
  apply bind_inv in Hrun as (p & w0 & [= <- <-] & Hrun).
  apply bind_inv in Hrun as (pcx & ? & [Hx ->]%liftOpt_inv & Hrun).
  apply bind_inv in Hrun as (pcy & ? & [Hy ->]%liftOpt_inv & Hrun).
  destruct (stream_spec heightBase SEED w pcx pcy Hok Hx Hy) as ([] & w1 & Hrun1 & Hext & _).
  unfold streamChunksAroundPlayer, bind at 1 2 3, getPlayer, liftOpt in Hrun1.
  rewrite Hx, Hy in Hrun1. fold (@liftOpt World) in Hrun1.
  assert (w1 = w') as <- by congruence. apply Hext.
Qed.

#[local] Hint Resolve keeps_getTile keeps_setTile keeps_rectCollides keeps_stream : keeps.

Lemma keeps_creep fuel sign : keepsStore (creep heightBase SEED fuel sign).
Proof.
  induction fuel as [|fuel IH]; cbn [creep]; [apply keeps_throw |].
  repeat keeps_step.
Qed.

#[local] Hint Resolve keeps_creep : keeps.

Lemma keeps_gameStep fuel keys dt : keepsStore (gameStep heightBase SEED fuel keys dt).
Proof.
  unfold gameStep, physicsStep, applyInput, horizontalCollision, verticalCollision.
  repeat keeps_step.
Qed.

Lemma keeps_tickMining : keepsStore (tickMining heightBase SEED).
Proof. unfold tickMining. repeat keeps_step. Qed.

(** The hypothesis of the claims about the store holds in every world
    the code reaches. *)
Lemma reachable_storeOk w : reachable heightBase SEED w -> storeOk (chunks w).
Proof.
  induction 1 as [w Hempty | w p m cw ch _ IH | w w' fuel keys dt _ IH Hrun
                 | w w' _ IH Hrun | w w' wx wy t _ IH Hrun | w w' wx wy t _ IH Hrun].
  - rewrite Hempty. apply storeOk_empty.
  - exact IH.
  - exact (keeps_gameStep fuel keys dt w tt w' IH Hrun).
  - exact (keeps_tickMining w tt w' IH Hrun).
  - exact (keeps_getTile wx wy w t w' IH Hrun).
  - exact (keeps_setTile wx wy t w tt w' IH Hrun).
Qed.

End ReachableFacts.

(** ** The example worlds *)

Lemma storeOk_decide (m : gmap string Chunk) :
  bool_decide (map_Forall (fun _ c => square (tiles c)) m) = true -> storeOk m.
Proof. intros H%bool_decide_eq_true k c Hk. exact (H k c Hk). Qed.

Lemma pocketStore_ok : storeOk pocketStore.
Proof. apply storeOk_decide. vm_compute. reflexivity. Qed.

(** The pocket dug by the code itself: from the empty store, two polls of
    [tickMining] clear the tiles (5, 17) and (5, 18) of the generated
    chunk (0, 0), under its grass tile (5, 16). *)
Lemma dig_runs :
  tickMining flatNoise 42 dig0 = Some (tt, dig1) /\
  tickMining flatNoise 42 (set_mouse (Mouse.mk 400 304.8 true) dig1) = Some (tt, dig2) /\
  dugWorld = set_mouse (Mouse.mk 400 304.8 false) dig2 /\
  writesOf (events dugWorld) = [(5, 17, AIR); (5, 18, AIR)] /\
  addsOf (events dugWorld) = [("dirt", 1); ("dirt", 1)].
Proof. repeat split; vm_compute; reflexivity. Qed.

Lemma dugWorld_reachable : reachable flatNoise 42 dugWorld.
Proof.
  destruct dig_runs as (H1 & H2 & -> & _).
  apply (reach_outside flatNoise 42 dig2 (player dig2) (Mouse.mk 400 304.8 false)
           (canvasW dig2) (canvasH dig2)).
  eapply reach_tickMining; [| exact H2].
  apply (reach_outside flatNoise 42 dig1 (player dig1) (Mouse.mk 400 304.8 true)
           (canvasW dig1) (canvasH dig1)).
  eapply reach_tickMining; [| exact H1].
  apply reach_load. reflexivity.
Qed.

Lemma dug_ticks :
  gameStep flatNoise 42 100 jumpKey STEP dugWorld = Some (tt, dugTick1) /\
  gameStep flatNoise 42 100 jumpKey STEP dugTick1 = Some (tt, dugTick2).
Proof. split; vm_compute; reflexivity. Qed.

(** * The claims *)

(** C8. [tileSolid] is false on AIR and LEAVES and true on the six other
    tiles: a tile is solid iff it is neither AIR nor LEAVES. *)
Theorem tileSolid_iff :
  (forall t : Tile, tileSolid t = true <-> t <> AIR /\ t <> LEAVES) /\
  tileSolid AIR = false /\ tileSolid LEAVES = false /\
  tileSolid GRASS = true /\ tileSolid DIRT = true /\ tileSolid STONE = true /\
  tileSolid COAL = true /\ tileSolid COPPER = true /\ tileSolid WOOD = true.
Proof.
  split; [| repeat split; reflexivity].
  intros t. destruct t;
    (split;
     [ intros H; vm_compute in H; try discriminate H; split; discriminate
     | intros [H1 H2]; try congruence; reflexivity ]).
Qed.

(** C5. The chunk coordinate [floor(wx / CHUNK_SIZE)] and the local
    coordinate [((wx % CHUNK_SIZE) + CHUNK_SIZE) % CHUNK_SIZE] that
    [getTile] and [setTile] compute rebuild the world coordinate, the local
    coordinate lies in the chunk, and -1 resolves to chunk -1, local 31. *)
Theorem chunk_local_roundtrip :
  (forall wx : Z, chunkCoord wx * CHUNK_SIZE + localCoord wx = wx /\
                  0 <= localCoord wx < CHUNK_SIZE) /\
  chunkCoord (-1) = -1 /\ localCoord (-1) = 31.
Proof.
  split; [| split; reflexivity].
  intros wx. unfold chunkCoord, localCoord, CHUNK_SIZE.
  Z.to_euclidean_division_equations. lia.
Qed.

Section Claims.

Variable heightBase : Z -> Z -> Z -> Z.
Variable SEED : Z.

(** The same two inputs of the generator of WorldScene.ts. *)
Variable sceneBase : Z -> Z -> Z -> Z.
Variable sceneSeed : string.

(** C7. On a store of square chunks, [setTile(wx, wy, t)] returns; after
    it [getTile(wx, wy)] returns [t] (and leaves the world as it is), the
    owning chunk has [modified = true], and a save is scheduled. *)
Theorem setTile_then_getTile (w : World) (wx wy : Z) (t : Tile) :
  storeOk (chunks w) ->
  exists w1 c,
    setTile heightBase SEED wx wy t w = Some (tt, w1) /\
    getTile heightBase SEED wx wy w1 = Some (t, w1) /\
    chunks w1 !! ck (chunkCoord wx) (chunkCoord wy) = Some c /\
    modified c = true /\
    saveTimeout w1 = true /\
    storeOk (chunks w1).
Proof.
  intros Hok.
  destruct (setTile_spec heightBase SEED w wx wy t Hok)
    as (w1 & c & Hrun & Hc & Hcell & Hmod & Hsave & Hok1 & _).
  exists w1, c. split; [exact Hrun |].
  split; [eapply getTile_hit; eassumption |].
  split; [exact Hc |]. split; [exact Hmod |]. split; [exact Hsave | exact Hok1].
Qed.

(** C6. From an empty store, with the player in chunk (0, 0), streaming
    returns and leaves exactly 25 chunks in the store: the chunk of
    [(cx, cy)] is there iff [max(|cx|, |cy|) <= VISIBLE_RANGE], every key
    of the store is such a chunk's, and streaming again changes nothing. *)
Theorem stream_window_25 (w : World) :
  chunks w = ∅ ->
  Num.floor (Player.x (player w) / Num.ofZ CHUNK_SIZE) = Some 0 ->
  Num.floor (Player.y (player w) / Num.ofZ CHUNK_SIZE) = Some 0 ->
  exists w',
    streamChunksAroundPlayer heightBase SEED w = Some (tt, w') /\
    size (chunks w') = 25%nat /\
    (forall cx cy, is_Some (chunks w' !! ck cx cy) <->
                   Z.max (Z.abs cx) (Z.abs cy) <= VISIBLE_RANGE) /\
    (forall k, is_Some (chunks w' !! k) ->
               exists cx cy, k = ck cx cy /\ Z.max (Z.abs cx) (Z.abs cy) <= VISIBLE_RANGE) /\
    streamChunksAroundPlayer heightBase SEED w' = Some (tt, w').
Proof.
  intros Hempty Hx Hy.
  assert (storeOk (chunks w)) as Hok by (rewrite Hempty; apply storeOk_empty).
  destruct (stream_spec heightBase SEED w 0 0 Hok Hx Hy) as ([] & w' & Hrun & Hext & Hdom).
  assert (forall k, is_Some (chunks w' !! k) <-> inWindow 0 0 (VISIBLE_RANGE + 1) k) as Hin.
  { intros k. rewrite <- elem_of_dom, Hdom, Hempty, dom_empty. split; [| auto].
    intros [Hk | Hk]; [| exact Hk]. apply not_elem_of_empty in Hk. contradiction. }
  exists w'. split; [exact Hrun |]. split; [| split; [| split]].
  - rewrite <- windowKeys_size, <- (size_dom (D := gset string)). f_equal.
    apply set_eq. intros k. rewrite elem_of_windowKeys, elem_of_dom. apply Hin.
  - intros cx cy. rewrite Hin. unfold inWindow, VISIBLE_RANGE. split.
    + intros (ox & oy & Hoy & Hox & [-> ->]%ck_inj). lia.
    + intros Hmax. exists cx, cy. rewrite !Z.add_0_l.
      split; [lia | split; [lia | reflexivity]].
  - intros k (ox & oy & Hoy & Hox & ->)%Hin. exists (0 + ox), (0 + oy).
    split; [reflexivity |]. unfold VISIBLE_RANGE in *. lia.
  - apply (stream_cached heightBase SEED w' 0 0).
    + destruct Hext as (-> & _). exact Hx.
    + destruct Hext as (-> & _). exact Hy.
    + intros k Hk. apply Hin. exact Hk.
Qed.

(** C2, at the failing input. The player stands in a pocket one tile wide
    and two high, box clear of every solid tile, a solid tile under the
    feet. With the jump key down, two ticks of [gameStep(1/60)] return,
    and then the box overlaps the grass tile (5, 16): the second tick's
    upward move collides, and the snap puts [y] at [floor(y + h) - h],
    16.2. First in the hand-built pocket world, whatever the sine and the
    seed; then in the world the code itself builds with the flat stand-in
    and seed 42, from the empty store, by two mining polls. *)
Theorem gameStep_jump_overlaps_ceiling :
  (playerCollides heightBase SEED pocketWorld = Some (false, pocketWorld) /\
   getTile heightBase SEED 5 19 pocketWorld = Some (DIRT, pocketWorld) /\
   exists w1 w2,
     gameStep heightBase SEED 100 jumpKey STEP pocketWorld = Some (tt, w1) /\
     gameStep heightBase SEED 100 jumpKey STEP w1 = Some (tt, w2) /\
     playerCollides heightBase SEED w2 = Some (true, w2) /\
     getTile heightBase SEED 5 16 w2 = Some (GRASS, w2) /\
     (Player.x (player w2) <? 6)%float = true /\
     (5 <? Player.x (player w2) + Player.w (player w2))%float = true /\
     (Player.y (player w2) <? 17)%float = true /\
     (16 <? Player.y (player w2) + Player.h (player w2))%float = true) /\
  (reachable flatNoise 42 dugWorld /\
   playerCollides flatNoise 42 dugWorld = Some (false, dugWorld) /\
   getTile flatNoise 42 5 19 dugWorld = Some (DIRT, dugWorld) /\
   gameStep flatNoise 42 100 jumpKey STEP dugWorld = Some (tt, dugTick1) /\
   gameStep flatNoise 42 100 jumpKey STEP dugTick1 = Some (tt, dugTick2) /\
   playerCollides flatNoise 42 dugTick2 = Some (true, dugTick2) /\
   getTile flatNoise 42 5 16 dugTick2 = Some (GRASS, dugTick2) /\
   (Player.x (player dugTick2) <? 6)%float = true /\
   (5 <? Player.x (player dugTick2) + Player.w (player dugTick2))%float = true /\
   (Player.y (player dugTick2) <? 17)%float = true /\
   (16 <? Player.y (player dugTick2) + Player.h (player dugTick2))%float = true).
Proof.
  split.
  - split; [vm_compute; reflexivity |]. split; [vm_compute; reflexivity |].
    eexists _, _. split; [vm_compute; reflexivity |].
    split; [vm_compute; reflexivity |].
    split; [vm_compute; reflexivity |].
    split; [vm_compute; reflexivity |]. vm_compute. repeat split; reflexivity.
  - split; [exact dugWorld_reachable |].
    split; [vm_compute; reflexivity |]. split; [vm_compute; reflexivity |].
    split; [exact (proj1 dug_ticks) |]. split; [exact (proj2 dug_ticks) |].
    split; [vm_compute; reflexivity |]. split; [vm_compute; reflexivity |].
    vm_compute. repeat split; reflexivity.
Qed.

(** C10. Whenever the tentative vertical move collides, whatever the sign
    of [vy] at entry (upward moves included): [vy] becomes 0, [y] becomes
    [floor(y + h) - h], and [grounded] is set exactly when [vy > 0] held
    at entry (it keeps its value otherwise). *)
Theorem vertical_snap_any_direction (w w1 : World) (ny : float) :
  storeOk (chunks w) ->
  rectCollidesWithTiles heightBase SEED
    (Player.x (player w)) ny (Player.w (player w)) (Player.h (player w)) w
    = Some (true, w1) ->
  exists w2,
    verticalCollision heightBase SEED ny w = Some (tt, w2) /\
    Player.y (player w2) =
      (Num.floorF (Player.y (player w) + Player.h (player w)) - Player.h (player w))%float /\
    Player.vy (player w2) = 0%float /\
    Player.grounded (player w2) =
      (if (0 <? Player.vy (player w))%float then true else Player.grounded (player w)) /\
    Player.x (player w2) = Player.x (player w).
Proof.
  intros Hok Hhit. eexists. split; [apply verticalCollision_hit; eassumption |].
  cbn. destruct (0 <? Player.vy (player w))%float; repeat split; reflexivity.
Qed.

(** C4. With the button down and the pointer on tile [(wx, wy)] holding
    [t], a poll of [tickMining] returns, and: a solid [t] is replaced by
    AIR and exactly one [add] is made, of the resource [dropOf t], by 1;
    AIR and LEAVES add nothing to the inventory; and on AIR nothing is
    written at all: the world is the one the read left. *)
Theorem mining_drops (w w1 : World) (wx wy : Z) (t : Tile) :
  storeOk (chunks w) ->
  Mouse.down (mouse w) = true ->
  pointerTile w = Some (wx, wy) ->
  getTile heightBase SEED wx wy w = Some (t, w1) ->
  exists w2,
    tickMining heightBase SEED w = Some (tt, w2) /\
    (tileSolid t = true ->
       getTile heightBase SEED wx wy w2 = Some (AIR, w2) /\
       writesOf (events w2) = writesOf (events w) ++ [(wx, wy, AIR)] /\
       exists item,
         dropOf t = Some item /\
         addsOf (events w2) = addsOf (events w) ++ [(item, 1)] /\
         Player.inventory (player w2) =
           <[item := default 0 (Player.inventory (player w) !! item) + 1]>
             (Player.inventory (player w))) /\
    (t = AIR \/ t = LEAVES ->
       dropOf t = None /\
       addsOf (events w2) = addsOf (events w) /\
       Player.inventory (player w2) = Player.inventory (player w)) /\
    (t = AIR ->
       w2 = w1 /\
       writesOf (events w2) = writesOf (events w) /\
       forall k c, chunks w !! k = Some c -> chunks w2 !! k = Some c).
Proof.
  intros Hok Hdown Hpt Hget.
  destruct (tickMining_run heightBase SEED w w1 wx wy t Hok Hdown Hpt Hget)
    as (w2 & Hrun & Hair & Hother).
  destruct (getTile_spec heightBase SEED w wx wy Hok)
    as (t' & w1' & c1 & Hget' & _ & _ & _ & Hw1 & Hgrow).
  assert (t' = t /\ w1' = w1) as [-> ->] by (split; congruence).
  exists w2. split; [exact Hrun |]. split; [| split].
  - intros Hsolid.
    assert (t <> AIR) as Hne by (intros ->; discriminate Hsolid).
    destruct (Hother Hne) as (Hread & Hwrites & Hdrop).
    split; [exact Hread |]. split; [exact Hwrites |].
    destruct t; try discriminate Hsolid; cbn [dropOf] in *; eexists; (split; [reflexivity |]);
      exact Hdrop.
  - intros [-> | ->].
    + rewrite (Hair eq_refl), Hw1. repeat split; reflexivity.
    + split; [reflexivity |]. assert (LEAVES <> AIR) as Hne by discriminate.
      destruct (Hother Hne) as (_ & _ & Hdrop). exact Hdrop.
  - intros ->. rewrite (Hair eq_refl). split; [reflexivity |].
    split; [rewrite Hw1; reflexivity | exact Hgrow].
Qed.

(** C1. Generation of chunk [(cx, cy)] started from any two worlds that
    do not hold that chunk yet returns one and the same chunk: the value
    of [generateChunk] for the seed and the coordinates, a grid of
    [CHUNK_SIZE] rows of [CHUNK_SIZE] cells, every cell defined, with the
    flag [modified] down. *)
Theorem generateChunk_deterministic (cx cy : Z) (w1 w2 : World) :
  chunks w1 !! ck cx cy = None ->
  chunks w2 !! ck cx cy = None ->
  exists c w1' w2',
    ensureChunk heightBase SEED cx cy w1 = Some (c, w1') /\
    ensureChunk heightBase SEED cx cy w2 = Some (c, w2') /\
    generateChunk heightBase SEED cx cy = Some c /\
    modified c = false /\
    length (tiles c) = Z.to_nat CHUNK_SIZE /\
    Forall (fun row => length row = Z.to_nat CHUNK_SIZE) (tiles c) /\
    forall y x, 0 <= y < CHUNK_SIZE -> 0 <= x < CHUNK_SIZE ->
                is_Some (cell (tiles c) y x).
Proof.
  intros H1 H2.
  destruct (generateChunk_returns heightBase SEED cx cy) as (c & Hgen & [Hlen Hrows] & _ & Hmod).
  destruct (ensureChunk_miss heightBase SEED w1 cx cy H1) as (c1 & Hgen1 & Hrun1).
  destruct (ensureChunk_miss heightBase SEED w2 cx cy H2) as (c2 & Hgen2 & Hrun2).
  assert (c1 = c /\ c2 = c) as [-> ->] by (split; congruence).
  eexists c, _, _. split; [exact Hrun1 |]. split; [exact Hrun2 |].
  split; [exact Hgen |]. split; [exact Hmod |]. split; [exact Hlen |].
  split; [exact Hrows |]. intros y x Hy Hx.
  apply cell_is_Some; [split; assumption | split; assumption].
Qed.

(** C9. [generateChunk] returns a chunk with no COPPER tile in it, in
    main.js and in WorldScene.ts alike: in the ore pass the copper test is
    made only on a sample that failed the coal test, and every such sample
    fails it, so a STONE tile becomes COAL or stays STONE. *)
Theorem generateChunk_no_copper (cx cy : Z) :
  (exists c, generateChunk heightBase SEED cx cy = Some c /\
             forall y x, cell (tiles c) y x <> Some COPPER) /\
  (exists g, Scene.generateChunk sceneBase sceneSeed cx cy = Some g /\
             forall y x, cell g y x <> Some COPPER) /\
  (forall r, rlt r 2 100 = false -> rlt r 7 1000 = false).
Proof.
  split; [| split; [| apply copper_branch_dead]].
  - destruct (generateChunk_returns heightBase SEED cx cy) as (c & Hgen & _ & Hnc & _).
    exists c. split; [exact Hgen | exact Hnc].
  - destruct (scene_generateChunk_returns sceneBase sceneSeed cx cy) as (g & Hgen & _ & Hnc).
    exists g. split; [exact Hgen | exact Hnc].
Qed.

(** C3, as amended. The first pass returns, in main.js and in
    WorldScene.ts alike, and in its grid every column [x] has a surface
    row in [4, CHUNK_SIZE - 6] (the clamped value computed from the
    column's sample): the rows above it hold AIR, it holds GRASS, the next
    3 rows hold DIRT, and the rows from the fourth below it on hold STONE. *)
Theorem heightmap_layers (cx cy : Z) :
  (exists s,
     heightmapPass heightBase cx cy (genInit SEED cx cy) = Some (tt, s) /\
     forall x, 0 <= x < CHUNK_SIZE ->
       exists u, 0 <= u < 2 ^ 32 /\
                 layeredColumn (gen_tiles s) x (surfaceRow heightBase cx cy x u)) /\
  (exists s,
     Scene.heightmapPass sceneBase cx cy (Scene.genInit sceneSeed cx cy) = Some (tt, s) /\
     forall x, 0 <= x < CHUNK_SIZE ->
       exists u, 0 <= u < 2 ^ 32 /\
                 layeredColumn (gen_tiles s) x (Scene.surfaceRow sceneBase cx cy x u)).
Proof.
  split.
  - destruct (heightmapPass_spec heightBase cx cy (genInit SEED cx cy) square_emptyGrid)
      as ([] & s & Hrun & _ & Hcols).
    exists s. split; [exact Hrun |]. intros x Hx.
    destruct (Hcols x Hx) as (u & Hu & Hcol).
    exists u. split; [exact Hu |].
    apply layer_layered; [apply surfaceRow_range | exact Hcol].
  - destruct (scene_heightmapPass_spec sceneBase cx cy (Scene.genInit sceneSeed cx cy)
                square_emptyGrid) as ([] & s & Hrun & _ & Hcols).
    exists s. split; [exact Hrun |]. intros x Hx.
    destruct (Hcols x Hx) as (u & Hu & Hcol).
    exists u. split; [exact Hu |].
    apply layer_layered; [apply scene_surfaceRow_range | exact Hcol].
Qed.

End Claims.

(** ** The claims at concrete inputs *)

(** C3 as stated fails: with the flat stand-in, seed 42, chunk (0, 0), the
    surface row of column 0 is 16 in main.js; rows 17 to 19 hold DIRT, and
    the fourth row below the surface, row 20, holds STONE. In WorldScene.ts
    the surface row is 17 and row 21 holds STONE. *)
Lemma heightmap_fourth_row_below_is_stone :
  (exists s,
     heightmapPass flatNoise 0 0 (genInit 42 0 0) = Some (tt, s) /\
     cell (gen_tiles s) 15 0 = Some AIR /\
     cell (gen_tiles s) 16 0 = Some GRASS /\
     cell (gen_tiles s) 17 0 = Some DIRT /\
     cell (gen_tiles s) 18 0 = Some DIRT /\
     cell (gen_tiles s) 19 0 = Some DIRT /\
     cell (gen_tiles s) 20 0 = Some STONE /\
     cell (gen_tiles s) 20 0 <> Some DIRT) /\
  (exists s,
     Scene.heightmapPass flatNoise 0 0 (Scene.genInit "42" 0 0) = Some (tt, s) /\
     cell (gen_tiles s) 16 0 = Some AIR /\
     cell (gen_tiles s) 17 0 = Some GRASS /\
     cell (gen_tiles s) 18 0 = Some DIRT /\
     cell (gen_tiles s) 19 0 = Some DIRT /\
     cell (gen_tiles s) 20 0 = Some DIRT /\
     cell (gen_tiles s) 21 0 = Some STONE /\
     cell (gen_tiles s) 21 0 <> Some DIRT).
Proof.
  split.
  - eexists. split; [vm_compute; reflexivity |].
    vm_compute. repeat split; try reflexivity. discriminate.
  - eexists. split; [vm_compute; reflexivity |].
    vm_compute. repeat split; try reflexivity. discriminate.
Qed.

(** C7 at the pocket world: the grass tile (5, 16) set to AIR and read back. *)
Lemma setTile_then_getTile_witness :
  exists w1,
    setTile flatNoise 42 5 16 AIR pocketWorld = Some (tt, w1) /\
    getTile flatNoise 42 5 16 w1 = Some (AIR, w1).
Proof.
  destruct (setTile_then_getTile flatNoise 42 pocketWorld 5 16 AIR pocketStore_ok)
    as (w1 & c & Hset & Hget & _).
  exists w1. split; assumption.
Defined.

(** C6 at the empty world with the flat stand-in and seed 42. *)
Lemma stream_window_25_witness :
  exists w',
    streamChunksAroundPlayer flatNoise 42 emptyWorld = Some (tt, w') /\
    size (chunks w') = 25%nat.
Proof.
  destruct (stream_window_25 flatNoise 42 emptyWorld) as (w' & Hrun & Hsize & _).
  - reflexivity.
  - vm_compute; reflexivity.
  - vm_compute; reflexivity.
  - exists w'. split; assumption.
Defined.

(** C10 at an upward collision: the player rises at 9 tiles a second under
    the grass tile; the snap applies and [grounded] stays false. *)
Lemma vertical_snap_any_direction_witness :
  (Player.vy (player risingWorld) <? 0)%float = true /\
  exists w2,
    verticalCollision flatNoise 42 (17.05 + (-9) * STEP) risingWorld = Some (tt, w2) /\
    Player.vy (player w2) = 0%float /\
    Player.grounded (player w2) = false.
Proof.
  split; [vm_compute; reflexivity |].
  destruct (vertical_snap_any_direction flatNoise 42 risingWorld risingWorld
              (17.05 + (-9) * STEP)) as (w2 & Hrun & _ & Hvy & Hgr & _).
  - exact pocketStore_ok.
  - vm_compute; reflexivity.
  - exists w2. split; [exact Hrun |]. split; [exact Hvy | exact Hgr].
Defined.

(** C4 at the pocket world, the pointer on the grass tile (5, 16): one
    [add] of dirt. *)
Lemma mining_drops_witness :
  exists w2,
    tickMining flatNoise 42 miningWorld = Some (tt, w2) /\
    addsOf (events w2) = [("dirt", 1)].
Proof.
  destruct (mining_drops flatNoise 42 miningWorld miningWorld 5 16 GRASS)
    as (w2 & Hrun & Hsolid & _).
  - exact pocketStore_ok.
  - reflexivity.
  - vm_compute; reflexivity.
  - vm_compute; reflexivity.
  - exists w2. split; [exact Hrun |].
    destruct (Hsolid eq_refl) as (_ & _ & item & [= <-] & Hadds & _). exact Hadds.
Defined.

(** C1 at chunk (7, 0), generated from the empty world and from the pocket
    world. *)
Lemma generateChunk_deterministic_witness :
  exists c w1' w2',
    ensureChunk flatNoise 42 7 0 emptyWorld = Some (c, w1') /\
    ensureChunk flatNoise 42 7 0 pocketWorld = Some (c, w2').
Proof.
  destruct (generateChunk_deterministic flatNoise 42 7 0 emptyWorld pocketWorld)
    as (c & w1' & w2' & H1 & H2 & _).
  - reflexivity.
  - vm_compute; reflexivity.
  - exists c, w1', w2'. split; assumption.
Defined.

(** * Further properties *)

(** ** Runs that return: what they keep *)

Section Respects.

Context {S : Type} (R : S -> S -> Prop) `{!PreOrder R}.

Lemma respects_ret {A} (a : A) : respects R (ret a).
Proof. intros s a' s' [= _ <-]. reflexivity. Qed.

Lemma respects_bind {A B} (m : M S A) (k : A -> M S B) :
  respects R m -> (forall a, respects R (k a)) -> respects R (bind m k).
Proof.
  intros Hm Hk s b s' (a & s1 & H1 & H2)%bind_inv.
  transitivity s1; [eapply Hm | eapply Hk]; eassumption.
Qed.

Lemma respects_get : respects R get.
Proof. intros s a s' [= _ <-]. reflexivity. Qed.

Lemma respects_liftOpt {A} (o : option A) : respects R (liftOpt o).
Proof. intros s a s' [_ ->]%liftOpt_inv. reflexivity. Qed.

Lemma respects_throw {A} : respects R (@throw S A).
Proof. intros s a s' [=]. Qed.

Lemma respects_loop {L} (idx : list Z) (body : Z -> L -> M S (Flow L)) :
  (forall i l, i ∈ idx -> respects R (body i l)) ->
  forall l, respects R (loop idx l body).
Proof.
  induction idx as [|i rest IH]; intros Hbody l; cbn [loop].
  - apply respects_ret.
  - apply respects_bind; [apply Hbody; left |].
    intros [l'|l']; [| apply respects_ret].
    apply IH. intros j l0 Hj. apply Hbody. right; exact Hj.
Qed.

Lemma respects_for (lo hi : Z) (body : Z -> M S unit) :
  (forall i, lo <= i < hi -> respects R (body i)) -> respects R (for_ lo hi body).
Proof.
  intros Hbody. apply respects_loop. intros i [] Hi%elem_of_seqZ.
  apply respects_bind; [apply Hbody; lia |]. intros _. apply respects_ret.
Qed.

Lemma respects_forBreak (idx : list Z) (body : Z -> M S bool) :
  (forall i, i ∈ idx -> respects R (body i)) -> respects R (forBreak idx body).
Proof.
  intros Hbody. apply respects_loop. intros i [] Hi.
  apply respects_bind; [apply Hbody; exact Hi |]. intros b. apply respects_ret.
Qed.

(** A loop that looks for an index at which [f] holds: it returns whether
    there is one. [f] may read the state, as long as [R] keeps it. *)
Lemma loop_find (f : S -> Z -> bool) (idx : list Z) (body : Z -> bool -> M S (Flow bool)) :
  (forall s s', R s s' -> forall i, f s' i = f s i) ->
  (forall i s fl s', i ∈ idx -> body i false s = Some (fl, s') ->
     R s s' /\ fl = if f s i then Break true else Next false) ->
  forall s b s', loop idx false body s = Some (b, s') ->
    R s s' /\ b = existsb (f s) idx.
Proof.
  intros Hf. induction idx as [|i rest IH]; intros Hbody s b s' Hrun; cbn [loop] in Hrun.
  - injection Hrun as <- <-. split; reflexivity.
  - apply bind_inv in Hrun as (fl & s1 & H1 & H2).
    destruct (Hbody i s fl s1) as [HR ->]; [left | exact H1 |].
    cbn [existsb]. destruct (f s i).
    + injection H2 as <- <-. split; [exact HR | reflexivity].
    + cbn [orb]. destruct (IH (fun j s0 fl0 s0' Hj => Hbody j s0 fl0 s0' (list_elem_of_further _ _ _ Hj))
                            s1 b s' H2) as [HR' ->].
      split; [transitivity s1; assumption |].
      clear -HR Hf. induction rest as [|j rest IH]; cbn [existsb]; [reflexivity |].
      rewrite (Hf s s1 HR j), IH. reflexivity.
Qed.

End Respects.

(** A loop that appends to its accumulator what [f] gives for each
    index. *)
Lemma loop_collect {S A} (Inv : S -> Prop) (f : Z -> list A) (idx : list Z)
    (body : Z -> list A -> M S (Flow (list A))) :
  (forall i acc s, i ∈ idx -> Inv s ->
     exists s', body i acc s = Some (Next (acc ++ f i), s') /\ Inv s') ->
  forall acc s, Inv s ->
    exists s', loop idx acc body s = Some (acc ++ (i ← idx; f i), s') /\ Inv s'.
Proof.
  induction idx as [|i rest IH]; intros Hbody acc s HI; cbn [loop].
  - exists s. cbn. rewrite app_nil_r. split; [reflexivity | exact HI].
  - destruct (Hbody i acc s) as (s1 & Hrun & HI1); [left | exact HI |].
    unfold bind at 1. rewrite Hrun.
    destruct (IH (fun j acc0 s0 Hj => Hbody j acc0 s0 (list_elem_of_further _ _ _ Hj))
                 (acc ++ f i) s1 HI1) as (s2 & Hrun2 & HI2).
    exists s2. split; [| exact HI2]. rewrite Hrun2. cbn. rewrite app_assoc. reflexivity.
Qed.

Lemma respects_weaken {S A} (R R' : S -> S -> Prop) (m : M S A) :
  (forall s s', R s s' -> R' s s') -> respects R m -> respects R' m.
Proof. intros HRR Hm s a s' Hrun. apply HRR. exact (Hm s a s' Hrun). Qed.

Lemma respects_getPlayer (R : World -> World -> Prop) `{!PreOrder R} :
  respects R getPlayer.
Proof. intros w p w' H. injection H as _ <-. reflexivity. Qed.

Ltac respects_step :=
  lazymatch goal with
  | |- PreOrder _ => apply _
  | |- respects _ (bind _ _) => apply respects_bind; [apply _ | | intros ?]
  | |- respects _ (ret _) => apply respects_ret; apply _
  | |- respects _ (liftOpt _) => apply respects_liftOpt; apply _
  | |- respects _ getPlayer => apply respects_getPlayer; apply _
  | |- respects _ get => apply respects_get; apply _
  | |- respects _ throw => apply respects_throw
  | |- respects _ (for_ _ _ _) => apply respects_for; [apply _ | intros ? _]
  | |- respects _ (loop _ _ _) => apply respects_loop; [apply _ | intros ? ? _]
  | |- respects _ (forBreak _ _) => apply respects_forBreak; [apply _ | intros ? ?]
  | |- respects _ (if ?b then _ else _) => destruct b
  end.

(** ** The world behind the cache *)

Section ViewFacts.

Variable heightBase : Z -> Z -> Z -> Z.
Variable SEED : Z.

Local Abbreviation chunkAt' := (chunkAt heightBase SEED).
Local Abbreviation tileAt' := (tileAt heightBase SEED).
Local Abbreviation storeGrows' := (storeGrows heightBase SEED).
Local Abbreviation cached' := (cached heightBase SEED).
Local Abbreviation tickFrame' := (tickFrame heightBase SEED).

#[global] Instance storeGrows_preorder : PreOrder storeGrows'.
Proof.
  split.
  - intros m. split; auto.
  - intros m1 m2 m3 (K1 & N1) (K2 & N2). split; [auto |].
    intros k c [H2 | H2]%N2; [| right; exact H2].
    apply N1 in H2. exact H2.
Qed.

(** Every coordinate shows the chunk it showed. *)
Lemma chunkAt_grows m m' cx cy :
  storeGrows' m m' -> chunkAt' m' cx cy = chunkAt' m cx cy.
Proof.
  intros [K N]. unfold chunkAt.
  destruct (m' !! ck cx cy) as [c|] eqn:Hc'.
  - destruct (N _ _ Hc') as [-> | (cx' & cy' & Heq & Hgen)]; [reflexivity |].
    apply ck_inj in Heq as [<- <-].
    destruct (m !! ck cx cy) as [c0|] eqn:Hc; [| symmetry; exact Hgen].
    apply K in Hc. congruence.
  - destruct (m !! ck cx cy) as [c0|] eqn:Hc; [| reflexivity].
    apply K in Hc. congruence.
Qed.

Lemma storeOk_grows m m' : storeGrows' m m' -> storeOk m -> storeOk m'.
Proof.
  intros [K N] Hok k c [Hc | (cx & cy & _ & Hgen)]%N; [exact (Hok _ _ Hc) |].
  destruct (generateChunk_returns heightBase SEED cx cy) as (c' & Hgen' & Hsq & _).
  congruence.
Qed.

#[global] Instance cached_preorder : PreOrder cached'.
Proof.
  split.
  - intros w. split; [destruct w; reflexivity | reflexivity].
  - intros w1 w2 w3 [E1 G1] [E2 G2]. split; [| etransitivity; eassumption].
    rewrite E2 at 1. rewrite E1 at 1. reflexivity.
Qed.

#[global] Instance tickFrame_preorder : PreOrder tickFrame'.
Proof.
  split.
  - intros w. unfold tickFrame. repeat (split; [reflexivity |]). reflexivity.
  - intros w1 w2 w3 (A1 & B1 & C1 & D1 & E1 & F1 & G1 & H1 & I1)
                    (A2 & B2 & C2 & D2 & E2 & F2 & G2 & H2 & I2).
    unfold tickFrame.
    repeat (split; [congruence |]). etransitivity; eassumption.
Qed.

Lemma cached_tickFrame w w' : cached' w w' -> tickFrame' w w'.
Proof.
  intros [E G]. unfold tickFrame. rewrite E.
  repeat (split; [reflexivity |]). exact G.
Qed.

(** The two ways [ensureChunk] returns. *)
Lemma ensureChunk_inv w cx cy c w' :
  ensureChunk heightBase SEED cx cy w = Some (c, w') ->
  (chunks w !! ck cx cy = Some c /\ w' = w) \/
  (chunks w !! ck cx cy = None /\ generateChunk heightBase SEED cx cy = Some c /\
   w' = set_chunks (<[ck cx cy := c]> (chunks w)) w).
Proof.
  intros Hrun. destruct (chunks w !! ck cx cy) as [c0|] eqn:Hc.
  - rewrite (ensureChunk_hit _ _ _ _ _ _ Hc) in Hrun. injection Hrun as <- <-. left; auto.
  - destruct (ensureChunk_miss heightBase SEED w cx cy Hc) as (c1 & Hgen & Hrun1).
    rewrite Hrun1 in Hrun. injection Hrun as <- <-. right; auto.
Qed.

Lemma storeGrows_insert m cx cy c :
  m !! ck cx cy = None -> generateChunk heightBase SEED cx cy = Some c ->
  storeGrows' m (<[ck cx cy := c]> m).
Proof.
  intros Hnone Hgen. split.
  - intros k c0 Hk. rewrite lookup_insert_ne; [exact Hk |]. intros <-. congruence.
  - intros k c0 Hk. destruct (decide (ck cx cy = k)) as [<-|Hne].
    + rewrite lookup_insert_eq in Hk. injection Hk as <-. right. eauto.
    + rewrite lookup_insert_ne in Hk by exact Hne. left; exact Hk.
Qed.

Lemma ensureChunk_cached w cx cy c w' :
  ensureChunk heightBase SEED cx cy w = Some (c, w') ->
  cached' w w' /\ chunkAt' (chunks w) cx cy = Some c /\ chunks w' !! ck cx cy = Some c.
Proof.
  intros [[Hc ->] | (Hnone & Hgen & ->)]%ensureChunk_inv.
  - split; [reflexivity |]. unfold chunkAt. rewrite Hc. auto.
  - split; [split; [reflexivity | cbn; apply storeGrows_insert; assumption] |].
    unfold chunkAt. rewrite Hnone. cbn. rewrite lookup_insert_eq. auto.
Qed.

Lemma getTile_cached w wx wy t w' :
  getTile heightBase SEED wx wy w = Some (t, w') ->
  cached' w w' /\ tileAt' (chunks w) wx wy = Some t.
Proof.
  unfold getTile. intros (c & w1 & Hens & Hcell)%bind_inv.
  apply liftOpt_inv in Hcell as [Hcell ->].
  apply ensureChunk_cached in Hens as (Hc & Hat & _).
  split; [exact Hc |]. unfold tileAt. rewrite Hat. exact Hcell.
Qed.

Lemma tileAt_grows m m' wx wy :
  storeGrows' m m' -> tileAt' m' wx wy = tileAt' m wx wy.
Proof. intros G. unfold tileAt. rewrite (chunkAt_grows _ _ _ _ G). reflexivity. Qed.

Lemma solidAt_grows m m' wx wy :
  storeGrows' m m' -> solidAt heightBase SEED m' wx wy = solidAt heightBase SEED m wx wy.
Proof. intros G. unfold solidAt. rewrite (tileAt_grows _ _ _ _ G). reflexivity. Qed.

(** In a store of square chunks every coordinate has a tile. *)
Lemma tileAt_is_Some m wx wy :
  storeOk m -> is_Some (tileAt' m wx wy).
Proof.
  intros Hok. unfold tileAt, chunkAt.
  destruct (m !! ck (chunkCoord wx) (chunkCoord wy)) as [c|] eqn:Hc; cbn.
  - apply cell_is_Some; [exact (Hok _ _ Hc) | split; apply localCoord_range].
  - destruct (generateChunk_returns heightBase SEED (chunkCoord wx) (chunkCoord wy))
      as (c & -> & Hsq & _). cbn.
    apply cell_is_Some; [exact Hsq | split; apply localCoord_range].
Qed.

End ViewFacts.

Lemma chunk_local_inj (a b : Z) :
  chunkCoord a = chunkCoord b -> localCoord a = localCoord b -> a = b.
Proof.
  unfold chunkCoord, localCoord, CHUNK_SIZE.
  Z.to_euclidean_division_equations. lia.
Qed.

Lemma existsb_eq {A} (f g : A -> bool) (l : list A) :
  (forall a, f a = g a) -> existsb f l = existsb g l.
Proof.
  intros Hfg. induction l as [|a l IH]; cbn [existsb]; [reflexivity |].
  rewrite Hfg, IH. reflexivity.
Qed.

Section WorldFacts.

Variable heightBase : Z -> Z -> Z -> Z.
Variable SEED : Z.

Local Abbreviation tileAt' := (tileAt heightBase SEED).
Local Abbreviation solidAt' := (solidAt heightBase SEED).
Local Abbreviation cached' := (cached heightBase SEED).
Local Abbreviation tickFrame' := (tickFrame heightBase SEED).
Local Abbreviation getTile' := (getTile heightBase SEED).
Local Abbreviation setTile' := (setTile heightBase SEED).
Local Abbreviation rectCollides' := (rectCollidesWithTiles heightBase SEED).

Lemma respects_ensureChunk cx cy : respects cached' (ensureChunk heightBase SEED cx cy).
Proof. intros w c w' H. apply (ensureChunk_cached _ _ _ _ _ _ _ H). Qed.

Lemma respects_getTile wx wy : respects cached' (getTile' wx wy).
Proof. intros w c w' H. apply (getTile_cached _ _ _ _ _ _ _ H). Qed.

(** The scan of [rectCollidesWithTiles]: its result is whether the box
    holds a solid tile of the world. *)
Lemma rectCollides_scan_value w startX endX startY endY b w' :
  loop (seqZ startY (endY - startY + 1)) false (fun ty _ =>
        hit <- loop (seqZ startX (endX - startX + 1)) false (fun tx _ =>
                 t <- getTile' tx ty ;;
                 if tileSolid t then ret (Break true) else ret (Next false)) ;;
        if hit : bool then ret (Break true) else ret (Next false)) w = Some (b, w') ->
  cached' w w' /\ b = boxSolid heightBase SEED (chunks w) startX endX startY endY.
Proof.
  intros Hrun. unfold boxSolid.
  refine (loop_find cached'
            (fun s ty => existsb (fun tx => solidAt' (chunks s) tx ty)
                                 (seqZ startX (endX - startX + 1)))
            _ _ _ _ w b w' Hrun).
  - intros s s' [_ G] ty. apply existsb_eq. intros tx. apply solidAt_grows. exact G.
  - intros ty s fl s' _ Hbody.
    apply bind_inv in Hbody as (hit & s1 & Hin & Hfl).
    assert (cached' s s1 /\ hit = existsb (fun tx => solidAt' (chunks s) tx ty)
                                          (seqZ startX (endX - startX + 1))) as [HR ->].
    { refine (loop_find cached' (fun s tx => solidAt' (chunks s) tx ty)
                _ _ _ _ s hit s1 Hin).
      - intros s2 s3 [_ G] tx. apply solidAt_grows. exact G.
      - intros tx s2 fl2 s3 _ Hb.
        apply bind_inv in Hb as (t & s4 & Hget & Hfl2).
        apply getTile_cached in Hget as [HR Hat].
        unfold solidAt. rewrite Hat.
        destruct (tileSolid t); injection Hfl2 as <- <-; split; auto. }
    destruct (existsb _ _); injection Hfl as <- <-; split; auto.
Qed.

Lemma respects_rectCollides x y wd h : respects cached' (rectCollides' x y wd h).
Proof.
  intros w b w' H. unfold rectCollidesWithTiles in H.
  apply bind_inv in H as (startX & ? & [_ ->]%liftOpt_inv & H).
  apply bind_inv in H as (endX & ? & [_ ->]%liftOpt_inv & H).
  apply bind_inv in H as (startY & ? & [_ ->]%liftOpt_inv & H).
  apply bind_inv in H as (endY & ? & [_ ->]%liftOpt_inv & H).
  apply (rectCollides_scan_value _ _ _ _ _ _ _ H).
Qed.

Lemma respects_stream : respects cached' (streamChunksAroundPlayer heightBase SEED).
Proof.
  unfold streamChunksAroundPlayer.
  repeat respects_step. apply respects_ensureChunk.
Qed.

Lemma respects_updPlayer (f : Player.t -> Player.t) :
  (forall p, Player.inventory (f p) = Player.inventory p /\
             Player.w (f p) = Player.w p /\ Player.h (f p) = Player.h p) ->
  respects tickFrame' (updPlayer f).
Proof.
  intros Hf w a w' H. injection H as _ <-.
  destruct (Hf (player w)) as (Hi & Hw & Hh). unfold tickFrame. cbn.
  repeat (split; [first [reflexivity | assumption] |]). reflexivity.
Qed.

Lemma respects_rectCollides_tick x y wd h : respects tickFrame' (rectCollides' x y wd h).
Proof.
  eapply respects_weaken; [apply cached_tickFrame | apply respects_rectCollides].
Qed.

Ltac tick_step :=
  first [ respects_step
        | apply respects_rectCollides_tick
        | apply respects_updPlayer; intros ?; repeat split; reflexivity ].

Lemma respects_creep fuel sign : respects tickFrame' (creep heightBase SEED fuel sign).
Proof.
  induction fuel as [|fuel IH]; cbn [creep]; [apply respects_throw |].
  repeat tick_step. exact IH.
Qed.

Lemma respects_applyInput keys : respects tickFrame' (applyInput keys).
Proof. unfold applyInput. repeat tick_step. Qed.

Lemma respects_horizontal fuel nx :
  respects tickFrame' (horizontalCollision heightBase SEED fuel nx).
Proof. unfold horizontalCollision. repeat tick_step. apply respects_creep. Qed.

Lemma respects_vertical ny : respects tickFrame' (verticalCollision heightBase SEED ny).
Proof. unfold verticalCollision. repeat tick_step. Qed.

Lemma respects_physicsStep fuel keys dt :
  respects tickFrame' (physicsStep heightBase SEED fuel keys dt).
Proof.
  unfold physicsStep. repeat tick_step.
  - apply respects_applyInput.
  - apply respects_horizontal.
  - apply respects_vertical.
Qed.

Lemma respects_gameStep fuel keys dt :
  respects tickFrame' (gameStep heightBase SEED fuel keys dt).
Proof.
  unfold gameStep. respects_step; [apply respects_physicsStep |].
  eapply respects_weaken; [apply cached_tickFrame | apply respects_stream].
Qed.

End WorldFacts.

Section WorldTheorems.

Variable heightBase : Z -> Z -> Z -> Z.
Variable SEED : Z.

Local Abbreviation tileAt' := (tileAt heightBase SEED).

(** X1. [getTile] reads the world behind the cache: on a store of square
    chunks it returns the tile the world has at the place, whether the
    chunk was cached or is generated by the call; it changes nothing but
    the store, and the store shows the same tile at every place. *)
Theorem getTile_reads_world (w : World) (wx wy : Z) :
  storeOk (chunks w) ->
  exists t w',
    getTile heightBase SEED wx wy w = Some (t, w') /\
    tileAt' (chunks w) wx wy = Some t /\
    w' = set_chunks (chunks w') w /\
    forall x y, tileAt' (chunks w') x y = tileAt' (chunks w) x y.
Proof.
  intros Hok.
  destruct (getTile_spec heightBase SEED w wx wy Hok) as (t & w' & _ & Hrun & _).
  exists t, w'. split; [exact Hrun |].
  apply getTile_cached in Hrun as [[Hw G] Hat].
  split; [exact Hat |]. split; [exact Hw |].
  intros x y. apply tileAt_grows. exact G.
Qed.

(** X2. [setTile(wx, wy, t)] changes the world at [(wx, wy)] and nowhere
    else: afterwards the tile there is [t], and every other place, in
    the same chunk or in another, cached or not, shows the tile it
    showed. *)
Theorem setTile_changes_one_tile (w : World) (wx wy : Z) (t : Tile) :
  storeOk (chunks w) ->
  exists w',
    setTile heightBase SEED wx wy t w = Some (tt, w') /\
    tileAt' (chunks w') wx wy = Some t /\
    forall x y, (x, y) <> (wx, wy) -> tileAt' (chunks w') x y = tileAt' (chunks w) x y.
Proof.
  intros Hok.
  destruct (setTile_run heightBase SEED w wx wy t Hok) as (c & g & w1 & Hens & Hg & Hrun).
  eexists. split; [exact Hrun |]. cbn.
  apply ensureChunk_cached in Hens as ([_ G] & _ & Hc).
  split.
  - unfold tileAt, chunkAt. rewrite lookup_insert_eq. cbn.
    exact (cell_setCell_eq _ _ _ _ _ Hg).
  - intros x y Hne. rewrite <- (tileAt_grows _ _ _ _ _ _ G).
    unfold tileAt, chunkAt.
    destruct (decide (ck (chunkCoord wx) (chunkCoord wy) = ck (chunkCoord x) (chunkCoord y)))
      as [Heq|Hk].
    + rewrite <- Heq, lookup_insert_eq, Hc. cbn.
      apply (cell_setCell_ne _ _ _ _ _ _ _ Hg).
      apply ck_inj in Heq as [Hx Hy]. intros [= Hly Hlx]. apply Hne.
      f_equal; apply chunk_local_inj; congruence.
    + rewrite lookup_insert_ne by exact Hk. reflexivity.
Qed.

(** X3. [rectCollidesWithTiles(x, y, w, h)] returns whether one of the
    tiles of the world from [floor(x - 0.01)] to [floor(x + w - 0.01)]
    and from [floor(y - 0.01)] to [floor(y + h - 0.01)] is solid; the
    query changes nothing but the cache. *)
Theorem rectCollides_is_boxSolid (w : World) (x y wd h : float) (startX endX startY endY : Z) :
  storeOk (chunks w) ->
  Num.floor (x - 0.01) = Some startX ->
  Num.floor (x + wd - 0.01) = Some endX ->
  Num.floor (y - 0.01) = Some startY ->
  Num.floor (y + h - 0.01) = Some endY ->
  exists w',
    rectCollidesWithTiles heightBase SEED x y wd h w =
      Some (boxSolid heightBase SEED (chunks w) startX endX startY endY, w') /\
    w' = set_chunks (chunks w') w /\
    forall tx ty, tileAt' (chunks w') tx ty = tileAt' (chunks w) tx ty.
Proof.
  intros Hok Hsx Hex Hsy Hey.
  destruct (rectCollides_scan heightBase SEED w startX endX startY endY Hok)
    as (b & w' & Hrun & _).
  destruct (rectCollides_scan_value _ _ _ _ _ _ _ _ _ Hrun) as [[Hw G] ->].
  exists w'. split.
  - unfold rectCollidesWithTiles, bind, liftOpt. rewrite Hsx, Hex, Hsy, Hey. exact Hrun.
  - split; [exact Hw |]. intros tx ty. apply tileAt_grows. exact G.
Qed.

End WorldTheorems.

Lemma getTile_reads_world_witness :
  storeOk (chunks pocketWorld) /\
  exists t w',
    getTile flatNoise 42 5 17 pocketWorld = Some (t, w') /\
    tileAt flatNoise 42 (chunks pocketWorld) 5 17 = Some t /\
    w' = set_chunks (chunks w') pocketWorld /\
    forall x y, tileAt flatNoise 42 (chunks w') x y = tileAt flatNoise 42 (chunks pocketWorld) x y.
Proof.
  split; [exact pocketStore_ok |].
  exact (getTile_reads_world flatNoise 42 pocketWorld 5 17 pocketStore_ok).
Defined.

Lemma setTile_changes_one_tile_witness :
  storeOk (chunks pocketWorld) /\
  exists w',
    setTile flatNoise 42 5 16 AIR pocketWorld = Some (tt, w') /\
    tileAt flatNoise 42 (chunks w') 5 16 = Some AIR /\
    forall x y, (x, y) <> (5, 16) ->
      tileAt flatNoise 42 (chunks w') x y = tileAt flatNoise 42 (chunks pocketWorld) x y.
Proof.
  split; [exact pocketStore_ok |].
  exact (setTile_changes_one_tile flatNoise 42 pocketWorld 5 16 AIR pocketStore_ok).
Defined.

Lemma rectCollides_is_boxSolid_witness :
  storeOk (chunks pocketWorld) /\
  Num.floor (5.05 - 0.01) = Some 5 /\ Num.floor (5.05 + 0.9 - 0.01) = Some 5 /\
  Num.floor (17.2 - 0.01) = Some 17 /\ Num.floor (17.2 + 1.8 - 0.01) = Some 18 /\
  exists w',
    rectCollidesWithTiles flatNoise 42 5.05 17.2 0.9 1.8 pocketWorld =
      Some (boxSolid flatNoise 42 (chunks pocketWorld) 5 5 17 18, w') /\
    w' = set_chunks (chunks w') pocketWorld /\
    forall tx ty, tileAt flatNoise 42 (chunks w') tx ty =
                  tileAt flatNoise 42 (chunks pocketWorld) tx ty.
Proof.
  assert (Num.floor (5.05 - 0.01) = Some 5) as H1 by (vm_compute; reflexivity).
  assert (Num.floor (5.05 + 0.9 - 0.01) = Some 5) as H2 by (vm_compute; reflexivity).
  assert (Num.floor (17.2 - 0.01) = Some 17) as H3 by (vm_compute; reflexivity).
  assert (Num.floor (17.2 + 1.8 - 0.01) = Some 18) as H4 by (vm_compute; reflexivity).
  repeat (split; [first [exact pocketStore_ok | assumption] |]).
  exact (rectCollides_is_boxSolid flatNoise 42 pocketWorld 5.05 17.2 0.9 1.8 5 5 17 18
           pocketStore_ok H1 H2 H3 H4).
Defined.

(** X4. Chunk keys are unambiguous: [ck] gives two chunks the same key
    only when they are the same chunk, negative coordinates included. *)
Theorem chunk_keys_distinct (cx cy cx' cy' : Z) :
  ck cx cy = ck cx' cy' <-> cx = cx' /\ cy = cy'.
Proof.
  split; [apply ck_inj | intros [-> ->]; reflexivity].
Qed.

Lemma bind_congr_l {S A B} (m m' : M S A) (k : A -> M S B) (s : S) :
  m s = m' s -> bind m k s = bind m' k s.
Proof. unfold bind. intros ->. reflexivity. Qed.

Section StepFacts.

Variable heightBase : Z -> Z -> Z -> Z.
Variable SEED : Z.

Local Abbreviation getTile' := (getTile heightBase SEED).
Local Abbreviation setTile' := (setTile heightBase SEED).
Local Abbreviation tickMining' := (tickMining heightBase SEED).
Local Abbreviation cached' := (cached heightBase SEED).

(** How [setTile] returns. *)
Lemma setTile_inv w wx wy t w' :
  setTile' wx wy t w = Some (tt, w') ->
  exists c g w1,
    ensureChunk heightBase SEED (chunkCoord wx) (chunkCoord wy) w = Some (c, w1) /\
    setCell (tiles c) (localCoord wy) (localCoord wx) t = Some g /\
    w' = emit EvScheduleSave
           (set_saveTimeout true
              (emit (EvSetTile wx wy t)
                 (set_chunks (<[ck (chunkCoord wx) (chunkCoord wy) := mkChunk g true]>
                                (chunks w1)) w1))).
Proof.
  unfold setTile. intros (c & w1 & Hens & H)%bind_inv.
  apply bind_inv in H as (g & ? & [Hg ->]%liftOpt_inv & H).
  exists c, g, w1. split; [exact Hens |]. split; [exact Hg |].
  unfold bind, modify, scheduleWorldSave in H. injection H as <-. reflexivity.
Qed.

(** How a poll of [tickMining] returns. *)
Lemma tickMining_inv w w' :
  tickMining' w = Some (tt, w') ->
  (Mouse.down (mouse w) = false /\ w' = w) \/
  exists wx wy t w0,
    Mouse.down (mouse w) = true /\ pointerTile w = Some (wx, wy) /\
    getTile' wx wy w = Some (t, w0) /\
    ((t = AIR /\ w' = w0) \/
     (t <> AIR /\ exists w1, setTile' wx wy AIR w0 = Some (tt, w1) /\
        w' = match dropOf t with Some item => added item w1 | None => w1 end)).
Proof.
  unfold tickMining. intros (w0 & ? & [= <- <-] & H)%bind_inv.
  destruct (Mouse.down (mouse w)) eqn:Hdown; [| injection H as <-; left; auto].
  right. apply bind_inv in H as ([wx wy] & ? & [Hpt ->]%liftOpt_inv & H).
  apply bind_inv in H as (t & w1 & Hget & H). cbn [fst snd] in *.
  exists wx, wy, t, w1. split; [reflexivity |]. split; [exact Hpt |]. split; [exact Hget |].
  destruct t;
    repeat match type of H with
           | context [truthy ?a] =>
               let v := eval vm_compute in (truthy a) in change (truthy a) with v in H
           | context [teq ?a ?b] =>
               let v := eval vm_compute in (teq a b) in change (teq a b) with v in H
           end;
    cbn [negb andb orb] in H; cbv iota in H.
  1: { left. split; [reflexivity |]. injection H as <-. reflexivity. }
  all: right; (split; [discriminate |]);
       apply bind_inv in H as ([] & w2 & Hset & H); exists w2; (split; [exact Hset |]);
       unfold add, modify, ret in H; injection H as <-; reflexivity.
Qed.

End StepFacts.

(** ** Rendering *)

Section RenderFacts.

Variable heightBase : Z -> Z -> Z -> Z.
Variable SEED : Z.

Local Abbreviation cached' := (cached heightBase SEED).

Lemma render_scan w startX startY cols rows :
  storeOk (chunks w) ->
  exists w',
    loop (seqZ 0 rows) [] (fun cy drawn =>
      drawn <- loop (seqZ 0 cols) drawn (fun cx drawn =>
                 let wx := startX + cx in
                 let wy := startY + cy in
                 t <- getTile heightBase SEED wx wy ;;
                 if truthy t && negb (teq t AIR)
                 then ret (Next (drawn ++ [(wx, wy, default "#444" (COLORS t))]))
                 else ret (Next drawn)) ;;
      ret (Next drawn)) w
    = Some (visibleFills heightBase SEED (chunks w) startX startY cols rows, w') /\
    cached' w w'.
Proof.
  intros Hok.
  set (Inv := fun s : World => cached' w s /\ storeOk (chunks s)).
  assert (Inv w) as HI0 by (split; [reflexivity | exact Hok]).
  refine (let H := loop_collect Inv
                     (fun cy => cx ← seqZ 0 cols;
                                fillOf heightBase SEED (chunks w) (startX + cx) (startY + cy))
                     (seqZ 0 rows) _ _ [] w HI0 in _).
  destruct H as (w' & Hrun & [Hc _]). exists w'. split; [exact Hrun | exact Hc].
  Unshelve.
  intros cy acc s _ HI.
  destruct (loop_collect Inv
              (fun cx => fillOf heightBase SEED (chunks w) (startX + cx) (startY + cy))
              (seqZ 0 cols)
              (fun cx drawn =>
                 let wx := startX + cx in
                 let wy := startY + cy in
                 t <- getTile heightBase SEED wx wy ;;
                 if truthy t && negb (teq t AIR)
                 then ret (Next (drawn ++ [(wx, wy, default "#444" (COLORS t))]))
                 else ret (Next drawn))) with (acc := acc) (s := s)
    as (s' & Hrun & HI'); [| exact HI |].
  - intros cx acc0 s0 _ [Hc0 Hok0]. cbv zeta.
    destruct (getTile_spec heightBase SEED s0 (startX + cx) (startY + cy) Hok0)
      as (t & s1 & _ & Hget & _ & _ & Hok1 & _).
    pose proof (getTile_cached _ _ _ _ _ _ _ Hget) as [Hc1 Hat].
    rewrite (tileAt_grows _ _ _ _ _ _ (proj2 Hc0)) in Hat.
    exists s1. split; [| split; [etransitivity; eassumption | exact Hok1]].
    unfold bind at 1. rewrite Hget. unfold fillOf. rewrite Hat.
    destruct (truthy t && negb (teq t AIR)); cbn; rewrite ?app_nil_r; reflexivity.
  - exists s'. split; [| exact HI']. cbv beta zeta. cbv zeta in Hrun. unfold bind at 1. rewrite Hrun. reflexivity.
Qed.

(** [render] returns the fills of the viewport and only caches chunks. *)
Lemma render_run w startX startY cols rows :
  storeOk (chunks w) ->
  viewport w = Some (startX, startY, cols, rows) ->
  exists w',
    render heightBase SEED w =
      Some (visibleFills heightBase SEED (chunks w) startX startY cols rows, w') /\
    cached' w w'.
Proof.
  intros Hok Hview. unfold viewport in Hview. unfold render, bind at 1, get.
  apply bind_Some in Hview as (sx & Hsx & Hview).
  apply bind_Some in Hview as (sy & Hsy & Hview).
  apply bind_Some in Hview as (c & Hc & Hview).
  apply bind_Some in Hview as (r & Hr & Hview).
  injection Hview as <- <- <- <-.
  unfold bind at 1, liftOpt at 1. rewrite Hsx.
  unfold bind at 1, liftOpt at 1. rewrite Hsy.
  unfold bind at 1, liftOpt at 1. rewrite Hc.
  unfold bind at 1, liftOpt at 1. rewrite Hr.
  apply render_scan. exact Hok.
Qed.

Lemma respects_render : respects cached' (render heightBase SEED).
Proof.
  unfold render. repeat respects_step. apply respects_getTile.
Qed.

Lemma respects_gameStepRender fuel keys dt :
  respects (tickFrame heightBase SEED) (gameStepRender heightBase SEED fuel keys dt).
Proof.
  unfold gameStepRender. respects_step; [apply respects_gameStep |].
  eapply respects_weaken; [apply cached_tickFrame | apply respects_render].
Qed.

(** The whole tick returns when its physics does and the camera is at a
    finite place. *)
Lemma gameStepRender_run fuel keys dt w w1 startX startY cols rows :
  storeOk (chunks w) ->
  gameStep heightBase SEED fuel keys dt w = Some (tt, w1) ->
  viewport w1 = Some (startX, startY, cols, rows) ->
  exists w',
    gameStepRender heightBase SEED fuel keys dt w =
      Some (visibleFills heightBase SEED (chunks w1) startX startY cols rows, w') /\
    cached' w1 w'.
Proof.
  intros Hok Hstep Hview.
  pose proof (keeps_gameStep heightBase SEED fuel keys dt w tt w1 Hok Hstep) as Hok1.
  destruct (render_run w1 _ _ _ _ Hok1 Hview) as (w' & Hrun & Hc).
  exists w'. split; [| exact Hc].
  unfold gameStepRender, bind. rewrite Hstep. exact Hrun.
Qed.

(** The whole tick returns when its physics does and the player ends at
    a finite place; streaming and drawing leave the player alone. *)
Lemma gameStepRender_from_physics fuel keys dt w w1 pcx pcy v :
  storeOk (chunks w) ->
  physicsStep heightBase SEED fuel keys dt w = Some (tt, w1) ->
  Num.floor (Player.x (player w1) / Num.ofZ CHUNK_SIZE) = Some pcx ->
  Num.floor (Player.y (player w1) / Num.ofZ CHUNK_SIZE) = Some pcy ->
  viewport w1 = Some v ->
  exists drawn w',
    gameStepRender heightBase SEED fuel keys dt w = Some (drawn, w') /\
    player w' = player w1.
Proof.
  intros Hok Hphys Hx Hy Hview.
  pose proof (respects_physicsStep heightBase SEED fuel keys dt w tt w1 Hphys) as Hframe.
  assert (storeOk (chunks w1)) as Hok1.
  { destruct Hframe as (_ & _ & _ & _ & _ & _ & _ & _ & G).
    exact (storeOk_grows _ _ _ _ G Hok). }
  destruct (stream_spec heightBase SEED w1 pcx pcy Hok1 Hx Hy)
    as ([] & w2 & Hstream & (Hw2 & Hok2 & _) & _).
  destruct v as [[[sx sy] c] r].
  assert (viewport w2 = Some (sx, sy, c, r)) as Hview2 by (rewrite Hw2; exact Hview).
  destruct (render_run w2 _ _ _ _ Hok2 Hview2) as (w' & Hrender & [Hw' _]).
  eexists _, w'. split.
  - unfold gameStepRender, gameStep, bind. rewrite Hphys, Hstream. exact Hrender.
  - rewrite Hw', Hw2. reflexivity.
Qed.

End RenderFacts.

Section StepTheorems.

Variable heightBase : Z -> Z -> Z -> Z.
Variable SEED : Z.

Local Abbreviation tileAt' := (tileAt heightBase SEED).

(** X5. A tick only moves the player and caches chunks: when the whole
    [gameStep], its [render] included, returns, the pointer, the canvas,
    the save timer, the events, the inventory and the player's size are
    as before, every cached chunk is still the same object, and the
    world shows the same tile at every place. *)
Theorem gameStepRender_frame (fuel : nat) (keys : Keys) (dt : float) (w w' : World)
    (drawn : list (Z * Z * string)) :
  gameStepRender heightBase SEED fuel keys dt w = Some (drawn, w') ->
  mouse w' = mouse w /\ canvasW w' = canvasW w /\ canvasH w' = canvasH w /\
  saveTimeout w' = saveTimeout w /\ events w' = events w /\
  Player.inventory (player w') = Player.inventory (player w) /\
  Player.w (player w') = Player.w (player w) /\
  Player.h (player w') = Player.h (player w) /\
  (forall k c, chunks w !! k = Some c -> chunks w' !! k = Some c) /\
  (forall x y, tileAt' (chunks w') x y = tileAt' (chunks w) x y).
Proof.
  intros (A & B & C & D & E & F & G & H & K & N)%respects_gameStepRender.
  repeat (split; [assumption |]).
  intros x y. apply tileAt_grows. split; [exact K | exact N].
Qed.

(** X6. There is no jump in mid-air: for a player that is not grounded,
    a tick with the keys W or Space down is the tick with them up. *)
Theorem no_jump_in_mid_air (fuel : nat) (keys : Keys) (dt : float) (w : World) :
  Player.grounded (player w) = false ->
  gameStepRender heightBase SEED fuel keys dt w =
  gameStepRender heightBase SEED fuel (releaseJump keys) dt w.
Proof.
  intros Hg. unfold gameStepRender, gameStep, physicsStep.
  apply bind_congr_l, bind_congr_l, bind_congr_l.
  unfold applyInput.
  change (releaseJump keys "a") with (keys "a").
  change (releaseJump keys "arrowleft") with (keys "arrowleft").
  change (releaseJump keys "d") with (keys "d").
  change (releaseJump keys "arrowright") with (keys "arrowright").
  change (releaseJump keys "w") with false.
  change (releaseJump keys " ") with false.
  unfold bind, updPlayer, modify, getPlayer.
  destruct (keys "a" || keys "arrowleft"); [| destruct (keys "d" || keys "arrowright")];
    cbn; rewrite Hg, andb_false_r; reflexivity.
Qed.

(** X7. After a tick a grounded player is at rest vertically: when
    [gameStep] returns with [grounded] set, [vy] is 0. *)
Theorem grounded_after_tick_at_rest (fuel : nat) (keys : Keys) (dt : float) (w w' : World)
    (drawn : list (Z * Z * string)) :
  gameStepRender heightBase SEED fuel keys dt w = Some (drawn, w') ->
  Player.grounded (player w') = true -> Player.vy (player w') = 0%float.
Proof.
  unfold gameStepRender. intros ([] & w4 & Hstep & Hrender)%bind_inv.
  apply respects_render in Hrender as [-> _]. cbn.
  revert Hstep.
  unfold gameStep. intros ([] & w3 & Hphys & Hstream)%bind_inv.
  apply respects_stream in Hstream as [-> _]. cbn.
  unfold physicsStep in Hphys.
  apply bind_inv in Hphys as ([] & w0 & _ & Hphys).
  apply bind_inv in Hphys as ([] & w1 & _ & Hphys).
  apply bind_inv in Hphys as (p & ? & [= <- <-] & Hphys).
  apply bind_inv in Hphys as ([] & w2 & _ & Hvert).
  unfold verticalCollision in Hvert.
  apply bind_inv in Hvert as (p2 & ? & [= <- <-] & Hvert).
  apply bind_inv in Hvert as (c & w5 & _ & Hvert).
  destruct c; cbn [negb] in Hvert.
  - apply bind_inv in Hvert as ([] & w6 & _ & Hvert).
    apply bind_inv in Hvert as ([] & w7 & [= <-] & Hvert).
    apply bind_inv in Hvert as (p6 & ? & [= <- <-] & Hvert).
    destruct (0 <=? _)%float; injection Hvert as <-; intros _; reflexivity.
  - injection Hvert as <-. cbn. discriminate.
Qed.

(** X8. Polling twice mines once: after a poll of [tickMining] has
    returned, a second poll with the pointer where it was changes
    nothing. *)
Theorem tickMining_twice (w w' : World) :
  tickMining heightBase SEED w = Some (tt, w') ->
  tickMining heightBase SEED w' = Some (tt, w').
Proof.
  intros [[Hup ->] | (wx & wy & t & w0 & Hdown & Hpt & Hget & Hcase)]%tickMining_inv.
  { unfold tickMining, bind, get. rewrite Hup. reflexivity. }
  pose proof Hget as Hget0.
  unfold getTile in Hget0. apply bind_inv in Hget0 as (c & w0' & Hens & Hcell).
  apply liftOpt_inv in Hcell as [Hcell <-].
  apply ensureChunk_cached in Hens as ([Hw0 _] & _ & Hc).
  assert (Mouse.down (mouse w0) = true /\ pointerTile w0 = Some (wx, wy)) as [Hdown0 Hpt0].
  { rewrite Hw0. split; [exact Hdown | exact Hpt]. }
  destruct Hcase as [[-> ->] | (Hne & w1 & Hset & ->)].
  - unfold tickMining, bind, get. rewrite Hdown0. unfold liftOpt at 1. rewrite Hpt0.
    cbn [fst snd]. rewrite (getTile_hit _ _ _ _ _ _ _ Hc Hcell). reflexivity.
  - apply setTile_inv in Hset as (c1 & g & w2 & Hens1 & Hg & ->).
    rewrite (ensureChunk_hit _ _ _ _ _ _ Hc) in Hens1. injection Hens1 as <- <-.
    pose proof (cell_setCell_eq _ _ _ _ _ Hg) as Hair.
    set (w1 := emit _ _).
    assert (forall w2, chunks w2 = chunks w1 -> mouse w2 = mouse w1 ->
                       pointerTile w2 = pointerTile w1 ->
                       tickMining heightBase SEED w2 = Some (tt, w2)) as Hpoll.
    { intros w2 Hch Hm Hp. unfold tickMining, bind, get.
      replace (Mouse.down (mouse w2)) with true by (rewrite Hm; symmetry; exact Hdown0).
      unfold liftOpt at 1. rewrite Hp. change (pointerTile w1) with (pointerTile w0).
      rewrite Hpt0. cbn [fst snd].
      rewrite (getTile_hit heightBase SEED w2 wx wy (mkChunk g true) AIR);
        [reflexivity | | exact Hair].
      rewrite Hch. cbn. apply lookup_insert_eq. }
    destruct (dropOf t); apply Hpoll; reflexivity.
Qed.

(** X9. Streaming at any position: on a store of square chunks, with the
    player in chunk [(pcx, pcy)], [streamChunksAroundPlayer] returns;
    afterwards the chunks of the window are cached, the only keys added
    are the window's, the chunks that were cached are the same objects,
    the world shows the same tiles, and streaming again changes
    nothing. *)
Theorem stream_any_position (w : World) (pcx pcy : Z) :
  storeOk (chunks w) ->
  Num.floor (Player.x (player w) / Num.ofZ CHUNK_SIZE) = Some pcx ->
  Num.floor (Player.y (player w) / Num.ofZ CHUNK_SIZE) = Some pcy ->
  exists w',
    streamChunksAroundPlayer heightBase SEED w = Some (tt, w') /\
    w' = set_chunks (chunks w') w /\
    (forall cx cy, Z.abs (cx - pcx) <= VISIBLE_RANGE -> Z.abs (cy - pcy) <= VISIBLE_RANGE ->
                   is_Some (chunks w' !! ck cx cy)) /\
    (forall k, is_Some (chunks w' !! k) ->
               is_Some (chunks w !! k) \/
               exists cx cy, k = ck cx cy /\ Z.abs (cx - pcx) <= VISIBLE_RANGE /\
                             Z.abs (cy - pcy) <= VISIBLE_RANGE) /\
    (forall k c, chunks w !! k = Some c -> chunks w' !! k = Some c) /\
    (forall x y, tileAt' (chunks w') x y = tileAt' (chunks w) x y) /\
    streamChunksAroundPlayer heightBase SEED w' = Some (tt, w').
Proof.
  intros Hok Hx Hy.
  destruct (stream_spec heightBase SEED w pcx pcy Hok Hx Hy) as ([] & w' & Hrun & Hext & Hdom).
  exists w'. split; [exact Hrun |].
  destruct Hext as (Hw & Hok' & Hkeep). split; [exact Hw |].
  assert (forall cx cy, Z.abs (cx - pcx) <= VISIBLE_RANGE -> Z.abs (cy - pcy) <= VISIBLE_RANGE ->
                        inWindow pcx pcy (VISIBLE_RANGE + 1) (ck cx cy)) as Hwin.
  { intros cx cy Hcx Hcy. exists (cx - pcx), (cy - pcy). unfold VISIBLE_RANGE in *.
    split; [lia |]. split; [lia |]. f_equal; lia. }
  split; [| split; [| split; [exact Hkeep | split]]].
  - intros cx cy Hcx Hcy. apply elem_of_dom, Hdom. right. apply Hwin; assumption.
  - intros k [Hk | (ox & oy & Hoy & Hox & ->)]%elem_of_dom%Hdom.
    + left. apply elem_of_dom. exact Hk.
    + right. exists (pcx + ox), (pcy + oy). unfold VISIBLE_RANGE in *.
      split; [reflexivity |]. lia.
  - apply respects_stream in Hrun as [_ G]. intros x y. apply tileAt_grows. exact G.
  - apply (stream_cached heightBase SEED w' pcx pcy).
    + rewrite Hw. exact Hx.
    + rewrite Hw. exact Hy.
    + intros k Hk. apply elem_of_dom, Hdom. right. exact Hk.
Qed.

End StepTheorems.

Lemma gameStepRender_frame_witness :
  exists drawn w',
    gameStepRender flatNoise 42 100 jumpKey STEP dugWorld = Some (drawn, w') /\
    mouse w' = mouse dugWorld /\ canvasW w' = canvasW dugWorld /\
    canvasH w' = canvasH dugWorld /\
    saveTimeout w' = saveTimeout dugWorld /\ events w' = events dugWorld /\
    Player.inventory (player w') = Player.inventory (player dugWorld) /\
    Player.w (player w') = Player.w (player dugWorld) /\
    Player.h (player w') = Player.h (player dugWorld) /\
    (forall k c, chunks dugWorld !! k = Some c -> chunks w' !! k = Some c) /\
    (forall x y, tileAt flatNoise 42 (chunks w') x y =
                 tileAt flatNoise 42 (chunks dugWorld) x y).
Proof.
  assert (exists v, viewport dugTick1 = Some v) as [[[[sx sy] c] r] Hview]
    by (eexists; vm_compute; reflexivity).
  destruct (gameStepRender_run flatNoise 42 100 jumpKey STEP dugWorld dugTick1 sx sy c r
              (reachable_storeOk _ _ _ dugWorld_reachable) (proj1 dug_ticks) Hview)
    as (w' & Hrun & _).
  eexists _, w'. split; [exact Hrun |].
  exact (gameStepRender_frame flatNoise 42 100 jumpKey STEP dugWorld w' _ Hrun).
Defined.

Lemma no_jump_in_mid_air_witness :
  Player.grounded (player risingWorld) = false /\
  gameStepRender flatNoise 42 100 jumpKey STEP risingWorld =
  gameStepRender flatNoise 42 100 (releaseJump jumpKey) STEP risingWorld.
Proof.
  split; [reflexivity |].
  exact (no_jump_in_mid_air flatNoise 42 100 jumpKey STEP risingWorld eq_refl).
Defined.

Lemma tickMining_twice_witness :
  tickMining flatNoise 42 dig0 = Some (tt, dig1) /\
  tickMining flatNoise 42 dig1 = Some (tt, dig1).
Proof.
  split; [exact (proj1 dig_runs) |].
  exact (tickMining_twice flatNoise 42 dig0 dig1 (proj1 dig_runs)).
Defined.

Lemma grounded_after_tick_at_rest_witness :
  exists drawn w',
    gameStepRender flatNoise 42 100 noKeys STEP landingWorld = Some (drawn, w') /\
    Player.grounded (player w') = true /\
    Player.vy (player w') = 0%float.
Proof.
  assert (storeOk (chunks landingWorld)) as Hok
    by (apply storeOk_decide; vm_compute; reflexivity).
  assert (exists w1, physicsStep flatNoise 42 100 noKeys STEP landingWorld = Some (tt, w1) /\
                     Player.grounded (player w1) = true /\
                     Num.floor (Player.x (player w1) / Num.ofZ CHUNK_SIZE) = Some 0 /\
                     Num.floor (Player.y (player w1) / Num.ofZ CHUNK_SIZE) = Some 0 /\
                     viewport w1 = Some (-28, -7, 69, 52))
    as (w1 & Hphys & Hg & Hx & Hy & Hview).
  { eexists. split; [vm_compute; reflexivity |].
    split; [vm_compute; reflexivity |]. split; [vm_compute; reflexivity |].
    split; vm_compute; reflexivity. }
  destruct (gameStepRender_from_physics flatNoise 42 100 noKeys STEP landingWorld w1 0 0 _
              Hok Hphys Hx Hy Hview) as (drawn & w' & Hrun & Hp).
  assert (Player.grounded (player w') = true) as Hg' by (rewrite Hp; exact Hg).
  exists drawn, w'. split; [exact Hrun |]. split; [exact Hg' |].
  exact (grounded_after_tick_at_rest flatNoise 42 100 noKeys STEP landingWorld w' drawn
           Hrun Hg').
Defined.

Lemma stream_any_position_witness :
  storeOk (chunks pocketWorld) /\
  Num.floor (Player.x (player pocketWorld) / Num.ofZ CHUNK_SIZE) = Some 0 /\
  Num.floor (Player.y (player pocketWorld) / Num.ofZ CHUNK_SIZE) = Some 0 /\
  exists w',
    streamChunksAroundPlayer flatNoise 42 pocketWorld = Some (tt, w') /\
    w' = set_chunks (chunks w') pocketWorld /\
    (forall cx cy, Z.abs (cx - 0) <= VISIBLE_RANGE -> Z.abs (cy - 0) <= VISIBLE_RANGE ->
                   is_Some (chunks w' !! ck cx cy)) /\
    (forall k, is_Some (chunks w' !! k) ->
               is_Some (chunks pocketWorld !! k) \/
               exists cx cy, k = ck cx cy /\ Z.abs (cx - 0) <= VISIBLE_RANGE /\
                             Z.abs (cy - 0) <= VISIBLE_RANGE) /\
    (forall k c, chunks pocketWorld !! k = Some c -> chunks w' !! k = Some c) /\
    (forall x y, tileAt flatNoise 42 (chunks w') x y =
                 tileAt flatNoise 42 (chunks pocketWorld) x y) /\
    streamChunksAroundPlayer flatNoise 42 w' = Some (tt, w').
Proof.
  assert (Num.floor (Player.x (player pocketWorld) / Num.ofZ CHUNK_SIZE) = Some 0) as Hx
    by (vm_compute; reflexivity).
  assert (Num.floor (Player.y (player pocketWorld) / Num.ofZ CHUNK_SIZE) = Some 0) as Hy
    by (vm_compute; reflexivity).
  split; [exact pocketStore_ok |]. split; [exact Hx |]. split; [exact Hy |].
  exact (stream_any_position flatNoise 42 pocketWorld 0 0 pocketStore_ok Hx Hy).
Defined.

Lemma COLORS_fill (t : Tile) (c : string) :
  COLORS t = Some c <-> (truthy t && negb (teq t AIR) = true /\ default "#444" (COLORS t) = c).
Proof.
  destruct t; cbn [COLORS default]; split.
  all: try (intros [= <-]; split; [vm_compute; reflexivity | reflexivity]).
  all: try (intros [_ <-]; reflexivity).
  all: try (intros H; discriminate H).
  all: intros [Hb _]; vm_compute in Hb; discriminate Hb.
Qed.

Lemma elem_of_visibleFills hb SEED m startX startY cols rows x y c :
  (x, y, c) ∈ visibleFills hb SEED m startX startY cols rows <->
  startX <= x < startX + cols /\ startY <= y < startY + rows /\
  exists t, tileAt hb SEED m x y = Some t /\ COLORS t = Some c.
Proof.
  unfold visibleFills. rewrite list_elem_of_bind. split.
  - intros (cy & (cx & Hin & Hcx%elem_of_seqZ)%list_elem_of_bind & Hcy%elem_of_seqZ).
    unfold fillOf in Hin.
    destruct (tileAt hb SEED m (startX + cx) (startY + cy)) as [t|] eqn:Hat;
      [| inversion Hin].
    destruct (truthy t && negb (teq t AIR)) eqn:Hb; [| inversion Hin].
    apply list_elem_of_singleton in Hin. injection Hin as -> -> ->.
    split; [lia |]. split; [lia |]. exists t. split; [exact Hat |].
    apply COLORS_fill. auto.
  - intros (Hx & Hy & t & Hat & [Hb Hc]%COLORS_fill).
    exists (y - startY). split; [| apply elem_of_seqZ; lia].
    apply list_elem_of_bind. exists (x - startX). split; [| apply elem_of_seqZ; lia].
    unfold fillOf.
    replace (startX + (x - startX)) with x by lia.
    replace (startY + (y - startY)) with y by lia.
    rewrite Hat, Hb, Hc. left.
Qed.

Section RenderTheorems.

Variable heightBase : Z -> Z -> Z -> Z.
Variable SEED : Z.

(** X10. [render] draws the world: with the camera at a finite place,
    on a store of square chunks, it returns; a tile is filled iff it
    lies in the viewport and the world has there a tile that is not AIR,
    and then with that tile's colour; the fills go row by row; and the
    call changes nothing but the cache, the world showing the same
    tiles after it. *)
Theorem render_draws_the_world (w : World) (startX startY cols rows : Z) :
  storeOk (chunks w) ->
  viewport w = Some (startX, startY, cols, rows) ->
  exists drawn w',
    render heightBase SEED w = Some (drawn, w') /\
    drawn = visibleFills heightBase SEED (chunks w) startX startY cols rows /\
    (forall x y c,
       (x, y, c) ∈ drawn <->
       startX <= x < startX + cols /\ startY <= y < startY + rows /\
       exists t, tileAt heightBase SEED (chunks w) x y = Some t /\ COLORS t = Some c) /\
    w' = set_chunks (chunks w') w /\
    (forall x y, tileAt heightBase SEED (chunks w') x y = tileAt heightBase SEED (chunks w) x y).
Proof.
  intros Hok Hview.
  destruct (render_run heightBase SEED w _ _ _ _ Hok Hview) as (w' & Hrun & [Hw G]).
  eexists _, w'. split; [exact Hrun |]. split; [reflexivity |].
  split; [intros x y c; apply elem_of_visibleFills |].
  split; [exact Hw |]. intros x y. apply tileAt_grows. exact G.
Qed.

End RenderTheorems.

Lemma render_draws_the_world_witness :
  storeOk (chunks pocketWorld) /\
  viewport pocketWorld = Some (-28, -7, 69, 52) /\
  exists drawn w',
    render flatNoise 42 pocketWorld = Some (drawn, w') /\
    drawn = visibleFills flatNoise 42 (chunks pocketWorld) (-28) (-7) 69 52 /\
    (forall x y c,
       (x, y, c) ∈ drawn <->
       -28 <= x < -28 + 69 /\ -7 <= y < -7 + 52 /\
       exists t, tileAt flatNoise 42 (chunks pocketWorld) x y = Some t /\
                 COLORS t = Some c) /\
    w' = set_chunks (chunks w') pocketWorld /\
    (forall x y, tileAt flatNoise 42 (chunks w') x y =
                 tileAt flatNoise 42 (chunks pocketWorld) x y).
Proof.
  assert (viewport pocketWorld = Some (-28, -7, 69, 52)) as Hview by (vm_compute; reflexivity).
  split; [exact pocketStore_ok |]. split; [exact Hview |].
  exact (render_draws_the_world flatNoise 42 pocketWorld (-28) (-7) 69 52
           pocketStore_ok Hview).
Defined.

(** ** The horizontal move *)

Section HorizontalFacts.

Variable heightBase : Z -> Z -> Z -> Z.
Variable SEED : Z.

Local Abbreviation rectCollides' := (rectCollidesWithTiles heightBase SEED).
Local Abbreviation cached' := (cached heightBase SEED).

(** A collision query gives the same answer on a store that has grown. *)
Lemma rectCollides_stable x y wd h w1 b w1' w2 :
  rectCollides' x y wd h w1 = Some (b, w1') ->
  storeGrows heightBase SEED (chunks w1) (chunks w2) ->
  storeOk (chunks w2) ->
  exists w3, rectCollides' x y wd h w2 = Some (b, w3).
Proof.
  intros H G Hok2. unfold rectCollidesWithTiles in *.
  apply bind_inv in H as (startX & ? & [Hsx ->]%liftOpt_inv & H).
  apply bind_inv in H as (endX & ? & [Hex ->]%liftOpt_inv & H).
  apply bind_inv in H as (startY & ? & [Hsy ->]%liftOpt_inv & H).
  apply bind_inv in H as (endY & ? & [Hey ->]%liftOpt_inv & H).
  apply rectCollides_scan_value in H as [_ ->].
  destruct (rectCollides_scan heightBase SEED w2 startX endX startY endY Hok2)
    as (b2 & w3 & Hrun & _).
  pose proof (rectCollides_scan_value _ _ _ _ _ _ _ _ _ Hrun) as [_ ->].
  exists w3.
  unfold bind at 1, liftOpt at 1. rewrite Hsx.
  unfold bind at 1, liftOpt at 1. rewrite Hex.
  unfold bind at 1, liftOpt at 1. rewrite Hsy.
  unfold bind at 1, liftOpt at 1. rewrite Hey.
  rewrite Hrun. do 2 f_equal. unfold boxSolid.
  apply existsb_eq. intros ty. apply existsb_eq. intros tx. apply solidAt_grows. exact G.
Qed.

(** The player's box is clear of solid tiles. *)
Lemma creep_stays_free fuel sign w w0 w' :
  storeOk (chunks w) ->
  playerCollides heightBase SEED w = Some (false, w0) ->
  creep heightBase SEED fuel sign w = Some (tt, w') ->
  storeOk (chunks w') /\
  Player.y (player w') = Player.y (player w) /\
  exists w'', playerCollides heightBase SEED w' = Some (false, w'').
Proof.
  revert w w0. induction fuel as [|fuel IH]; intros w w0 Hok Hfree Hrun; cbn [creep] in Hrun;
    [discriminate Hrun |].
  apply bind_inv in Hrun as (p & ? & [= <- <-] & Hrun).
  destruct (negb (sign =? 0)%float).
  2: { injection Hrun as <-. split; [exact Hok |]. split; [reflexivity |]. eauto. }
  apply bind_inv in Hrun as (c & w1 & Hq & Hrun).
  destruct c; cbn [negb] in Hrun.
  { injection Hrun as <-.
    pose proof (respects_rectCollides _ _ _ _ _ _ _ _ _ Hq) as [Hw1 G].
    pose proof (storeOk_grows _ _ _ _ G Hok) as Hok1.
    assert (player w1 = player w) as Hp by (rewrite Hw1; reflexivity).
    split; [exact Hok1 |]. split; [rewrite Hp; reflexivity |].
    unfold playerCollides in *. rewrite Hp.
    exact (rectCollides_stable _ _ _ _ _ _ _ _ Hfree G Hok1). }
  apply bind_inv in Hrun as ([] & w2 & [= <-] & Hrun).
  pose proof (respects_rectCollides _ _ _ _ _ _ _ _ _ Hq) as [Hw1 G].
  pose proof (storeOk_grows _ _ _ _ G Hok) as Hok1.
  assert (player w1 = player w) as Hp by (rewrite Hw1; reflexivity).
  set (w2 := set_player _ w1) in Hrun.
  assert (exists w3, playerCollides heightBase SEED w2 = Some (false, w3)) as [w3 Hfree2].
  { unfold playerCollides, w2. cbn. rewrite Hp.
    apply (rectCollides_stable _ _ _ _ _ _ _ _ Hq); [exact G | exact Hok1]. }
  destruct (IH w2 w3 Hok1 Hfree2 Hrun) as (Hok' & Hy & Hfree').
  split; [exact Hok' |]. split; [| exact Hfree'].
  rewrite Hy. unfold w2. cbn. rewrite Hp. reflexivity.
Qed.

End HorizontalFacts.

Section HorizontalTheorems.

Variable heightBase : Z -> Z -> Z -> Z.
Variable SEED : Z.

(** X11. The horizontal move never enters a solid tile: on a store of
    square chunks, if the player's box is clear of solid tiles, it still
    is when the horizontal branch of [gameStep] has returned, whether
    the tentative move was taken or the player crept toward the
    obstacle; [y] is as it was. *)
Theorem horizontal_move_stays_free (fuel : nat) (nx : float) (w w0 w' : World) :
  storeOk (chunks w) ->
  playerCollides heightBase SEED w = Some (false, w0) ->
  horizontalCollision heightBase SEED fuel nx w = Some (tt, w') ->
  Player.y (player w') = Player.y (player w) /\
  exists w'', playerCollides heightBase SEED w' = Some (false, w'').
Proof.
  intros Hok Hfree Hrun. unfold horizontalCollision in Hrun.
  apply bind_inv in Hrun as (p & ? & [= <- <-] & Hrun).
  apply bind_inv in Hrun as (c & w1 & Hq & Hrun).
  pose proof (respects_rectCollides _ _ _ _ _ _ _ _ _ Hq) as [Hw1 G].
  pose proof (storeOk_grows _ _ _ _ G Hok) as Hok1.
  assert (player w1 = player w) as Hp by (rewrite Hw1; reflexivity).
  destruct c; cbn [negb] in Hrun.
  - apply bind_inv in Hrun as ([] & w2 & Hcreep & Hrun).
    injection Hrun as <-.
    assert (exists w3, playerCollides heightBase SEED w1 = Some (false, w3)) as [w3 Hfree1].
    { unfold playerCollides in *. rewrite Hp.
      exact (rectCollides_stable _ _ _ _ _ _ _ _ _ _ Hfree G Hok1). }
    destruct (creep_stays_free _ _ _ _ _ _ _ Hok1 Hfree1 Hcreep) as (Hok2 & Hy & w4 & Hfree2).
    split; [cbn; rewrite Hy, Hp; reflexivity |].
    unfold playerCollides in *. cbn.
    apply (rectCollides_stable _ _ _ _ _ _ _ _ _ _ Hfree2); [reflexivity | exact Hok2].
  - injection Hrun as <-. split; [cbn; rewrite Hp; reflexivity |].
    unfold playerCollides. cbn. rewrite Hp.
    apply (rectCollides_stable _ _ _ _ _ _ _ _ _ _ Hq); [exact G | exact Hok1].
Qed.

End HorizontalTheorems.

Lemma horizontal_move_stays_free_witness :
  storeOk (chunks pushingWorld) /\
  playerCollides flatNoise 42 pushingWorld = Some (false, pushingWorld) /\
  exists w',
    horizontalCollision flatNoise 42 100 (5.05 + 6 * STEP) pushingWorld = Some (tt, w') /\
    Player.y (player w') = Player.y (player pushingWorld) /\
    exists w'', playerCollides flatNoise 42 w' = Some (false, w'').
Proof.
  assert (playerCollides flatNoise 42 pushingWorld = Some (false, pushingWorld)) as Hfree
    by (vm_compute; reflexivity).
  assert (exists w', horizontalCollision flatNoise 42 100 (5.05 + 6 * STEP) pushingWorld
                     = Some (tt, w')) as [w' Hrun]
    by (eexists; vm_compute; reflexivity).
  split; [exact pocketStore_ok |]. split; [exact Hfree |].
  exists w'. split; [exact Hrun |].
  exact (horizontal_move_stays_free flatNoise 42 100 (5.05 + 6 * STEP) pushingWorld
           pushingWorld w' pocketStore_ok Hfree Hrun).
Defined.

(** ** Crafting *)

Lemma consume_subtract (req : list (string * Z)) (inv : gmap string Z) :
  NoDup req.*1 ->
  let inv1 := foldl (fun inv kn => <[kn.1 := default 0 (inv !! kn.1) - kn.2]> inv) inv req in
  (forall k n, (k, n) ∈ req -> inv1 !! k = Some (default 0 (inv !! k) - n)) /\
  (forall k, k ∉ req.*1 -> inv1 !! k = inv !! k).
Proof.
  revert inv. induction req as [|[k0 n0] req IH]; intros inv Hnd; cbn.
  - split; [intros k n H; inversion H | reflexivity].
  - apply NoDup_cons in Hnd as [Hk0 Hnd].
    destruct (IH (<[k0 := default 0 (inv !! k0) - n0]> inv) Hnd) as [IH1 IH2].
    split.
    + intros k n [[= -> ->] | Hin]%elem_of_cons.
      * cbn in IH2. rewrite (IH2 k0 Hk0), lookup_insert_eq. reflexivity.
      * cbn in IH1. rewrite (IH1 k n Hin), lookup_insert_ne; [reflexivity |].
        intros ->. apply Hk0. apply list_elem_of_fmap. exists (k, n). auto.
    + intros k [Hne Hk]%not_elem_of_cons. cbn in IH2.
      rewrite (IH2 k Hk), lookup_insert_ne; [reflexivity | auto].
Qed.

Lemma consume_delete (req : list (string * Z)) (m : gmap string Z) :
  let m' := foldl (fun inv kn =>
                     match inv !! kn.1 with
                     | Some v => if v <=? 0 then delete kn.1 inv else inv
                     | None => inv
                     end) m req in
  (forall k v, m' !! k = Some v -> m !! k = Some v /\ (k ∈ req.*1 -> 0 < v)) /\
  (forall k v, m !! k = Some v -> (k ∈ req.*1 -> 0 < v) -> m' !! k = Some v).
Proof.
  revert m. induction req as [|[k0 n0] req IH]; intros m; cbn.
  - split; [| auto]. intros k v H. split; [exact H |]. intros Hin. inversion Hin.
  - set (m1 := match m !! k0 with
               | Some v => if v <=? 0 then delete k0 m else m
               | None => m
               end).
    assert (forall k v, m1 !! k = Some v -> m !! k = Some v /\ (k = k0 -> 0 < v)) as H1.
    { intros k v. unfold m1. destruct (m !! k0) as [v0|] eqn:E0.
      - destruct (Z.leb_spec v0 0).
        + intros [Hne Hk]%lookup_delete_Some. split; [exact Hk |]. congruence.
        + intros Hk. split; [exact Hk |]. intros ->. assert (v = v0) by congruence. lia.
      - intros Hk. split; [exact Hk |]. intros ->. congruence. }
    assert (forall k v, m !! k = Some v -> (k = k0 -> 0 < v) -> m1 !! k = Some v) as H2.
    { intros k v Hk Hpos. unfold m1. destruct (m !! k0) as [v0|] eqn:E0; [| exact Hk].
      destruct (Z.leb_spec v0 0); [| exact Hk].
      apply lookup_delete_Some. split; [| exact Hk]. intros ->.
      assert (0 < v) by auto. assert (v = v0) by congruence. lia. }
    destruct (IH m1) as [IH1 IH2]. cbn in IH1, IH2. split.
    + intros k v Hk. destruct (IH1 k v Hk) as [Hk1 Hpos].
      destruct (H1 k v Hk1) as [Hm Hpos0]. split; [exact Hm |].
      intros [-> | Hin]%elem_of_cons; auto.
    + intros k v Hk Hpos. apply IH2.
      * apply H2; [exact Hk |]. intros ->. apply Hpos. left.
      * intros Hin. apply Hpos. right. exact Hin.
Qed.

Lemma consume_subtract_other (req : list (string * Z)) (inv : gmap string Z) (k : string) :
  k ∉ req.*1 ->
  foldl (fun inv kn => <[kn.1 := default 0 (inv !! kn.1) - kn.2]> inv) inv req !! k = inv !! k.
Proof.
  revert inv. induction req as [|[k0 n0] req IH]; intros inv Hk; cbn; [reflexivity |].
  apply not_elem_of_cons in Hk as [Hne Hk]. cbn in IH.
  rewrite (IH _ Hk), lookup_insert_ne; [reflexivity | auto].
Qed.

Lemma invPositive_consume (req : list (string * Z)) (inv : gmap string Z) :
  invPositive inv -> invPositive (consumeInv req inv).
Proof.
  intros Hpos k v Hk. unfold consumeInv in Hk.
  apply consume_delete in Hk as [Hk Hin].
  destruct (decide (k ∈ req.*1)) as [Hd|Hd]; [exact (Hin Hd) |].
  rewrite (consume_subtract_other _ _ _ Hd) in Hk. exact (Hpos k v Hk).
Qed.

Lemma consumeInv_lookup (req : list (string * Z)) (inv : gmap string Z) :
  NoDup req.*1 ->
  (forall k n, (k, n) ∈ req ->
     consumeInv req inv !! k =
       if countOf inv k - n <=? 0 then None else Some (countOf inv k - n)) /\
  (forall k, k ∉ req.*1 -> consumeInv req inv !! k = inv !! k).
Proof.
  intros Hnd. destruct (consume_subtract req inv Hnd) as [S1 S2]. cbn zeta in S1, S2.
  unfold consumeInv.
  match goal with
  | |- context [foldl ?f ?m req !! _] =>
      destruct (consume_delete req m) as [D1 D2]; cbn zeta in D1, D2
  end.
  split.
  - intros k n Hin. specialize (S1 k n Hin). unfold countOf.
    assert (k ∈ req.*1) as Hk by (apply list_elem_of_fmap; exists (k, n); auto).
    destruct (Z.leb_spec (default 0 (inv !! k) - n) 0) as [Hle|Hlt].
    + match goal with |- ?m' !! k = None => destruct (m' !! k) as [v|] eqn:E end;
        [| reflexivity].
      apply D1 in E as [E Hpos]. rewrite S1 in E. injection E as <-.
      specialize (Hpos Hk). lia.
    + apply D2; [exact S1 | intros _; exact Hlt].
  - intros k Hk. specialize (S2 k Hk).
    destruct (inv !! k) as [v|] eqn:E.
    + apply D2; [exact S2 | intros Hin; contradiction].
    + match goal with |- ?m' !! k = None => destruct (m' !! k) as [v|] eqn:E' end;
        [| reflexivity].
      apply D1 in E' as [E' _]. congruence.
Qed.

Lemma canCraft_true (inv : gmap string Z) (req : list (string * Z)) :
  canCraft inv req = true <-> forall k n, (k, n) ∈ req -> n <= countOf inv k.
Proof.
  unfold canCraft. rewrite forallb_forall. split.
  - intros H k n Hin%list_elem_of_In. specialize (H _ Hin). cbn in H.
    apply negb_true_iff, Z.ltb_ge in H. exact H.
  - intros H [k n] Hin%list_elem_of_In. cbn. apply negb_true_iff, Z.ltb_ge. apply H, Hin.
Qed.

Lemma required_in (req : list (string * Z)) (k : string) (n : Z) :
  NoDup req.*1 -> (k, n) ∈ req -> required req k = n.
Proof.
  intros Hnd Hin. unfold required.
  rewrite (elem_of_list_to_map_1 (M := gmap string) req k n Hnd Hin). reflexivity.
Qed.

Lemma required_out (req : list (string * Z)) (k : string) :
  k ∉ req.*1 -> required req k = 0.
Proof.
  intros Hk. unfold required.
  rewrite (not_elem_of_list_to_map_1 (M := gmap string) req k Hk). reflexivity.
Qed.

(** Consuming what [canCraft] grants takes exactly what is asked. *)
Lemma consumeInv_count (req : list (string * Z)) (inv : gmap string Z) (k : string) :
  NoDup req.*1 -> canCraft inv req = true ->
  countOf (consumeInv req inv) k = countOf inv k - required req k.
Proof.
  intros Hnd Hcan. destruct (consumeInv_lookup req inv Hnd) as [L1 L2].
  destruct (decide (k ∈ req.*1)) as [Hk|Hk].
  - apply list_elem_of_fmap in Hk as ([k' n] & -> & Hin). cbn.
    rewrite (required_in _ _ _ Hnd Hin). unfold countOf at 1. rewrite (L1 _ _ Hin).
    pose proof (proj1 (canCraft_true inv req) Hcan _ _ Hin).
    destruct (Z.leb_spec (countOf inv k' - n) 0); cbn; lia.
  - rewrite (required_out _ _ Hk). unfold countOf. rewrite (L2 _ Hk). lia.
Qed.

(** X12. [consume(inv, req)], for requirements with distinct keys: a
    required item is left with its count ([0] when absent) less the
    requirement when that is positive, and is deleted otherwise; every
    other item is untouched, and so is the rest of the world. *)
Theorem consume_spec (req : list (string * Z)) (w : World) :
  NoDup req.*1 ->
  exists inv',
    consume req w = Some (tt, set_player (Player.set_inventory inv' (player w)) w) /\
    (forall k n, (k, n) ∈ req ->
       inv' !! k =
         if countOf (Player.inventory (player w)) k - n <=? 0 then None
         else Some (countOf (Player.inventory (player w)) k - n)) /\
    (forall k, k ∉ req.*1 -> inv' !! k = Player.inventory (player w) !! k).
Proof.
  intros Hnd. exists (consumeInv req (Player.inventory (player w))).
  split; [reflexivity |]. apply consumeInv_lookup. exact Hnd.
Qed.

(** X13. [consume] never leaves a count that is not positive, whatever
    is asked, craftable or not. *)
Theorem consume_keeps_counts_positive (req : list (string * Z)) (w : World) :
  invPositive (Player.inventory (player w)) ->
  exists w', consume req w = Some (tt, w') /\ invPositive (Player.inventory (player w')).
Proof.
  intros Hpos. eexists. split; [reflexivity |]. cbn.
  apply invPositive_consume. exact Hpos.
Qed.

(** X14. A click on a Craft button. When [canCraft] fails nothing
    happens. When it holds, the count of every item changes by exactly
    the recipe: less what is required, plus one for the product; one
    [add] is made, of the product; the store is untouched. *)
Theorem clickCraft_spec (r : Recipe.t) (w : World) :
  r ∈ RECIPES ->
  exists w',
    clickCraft r w = Some (tt, w') /\
    (canCraft (Player.inventory (player w)) (Recipe.requires r) = false -> w' = w) /\
    (canCraft (Player.inventory (player w)) (Recipe.requires r) = true ->
       (forall k, countOf (Player.inventory (player w')) k =
                  countOf (Player.inventory (player w)) k
                  - required (Recipe.requires r) k
                  + (if bool_decide (k = Recipe.id r) then 1 else 0)) /\
       events w' = events w ++ [EvAdd (Recipe.id r) 1] /\
       chunks w' = chunks w).
Proof.
  intros Hr. unfold clickCraft, bind, get.
  destruct (canCraft _ _) eqn:Hcan.
  2: { exists w. split; [reflexivity |]. split; [reflexivity | discriminate]. }
  assert (NoDup (Recipe.requires r).*1 /\
          Recipe.craft r = (consume (Recipe.requires r) ;;; add (Recipe.id r) 1)) as [Hnd ->].
  { repeat (apply elem_of_cons in Hr as [-> | Hr]);
      [split; [cbn; apply NoDup_singleton | reflexivity] .. | inversion Hr]. }
  eexists. split; [reflexivity |]. split; [discriminate |]. intros _.
  split; [| split; reflexivity].
  intros k. cbn. rewrite <- (consumeInv_count _ _ k Hnd Hcan).
  unfold countOf at 1. case_bool_decide as Hk.
  - subst k. rewrite lookup_insert_eq. reflexivity.
  - rewrite lookup_insert_ne by congruence. unfold countOf. lia.
Qed.

Lemma consume_spec_witness :
  NoDup [("wood", 2)].*1 /\
  exists inv',
    consume [("wood", 2)] pocketWorld =
      Some (tt, set_player (Player.set_inventory inv' (player pocketWorld)) pocketWorld) /\
    (forall k n, (k, n) ∈ [("wood", 2)] ->
       inv' !! k =
         if countOf (Player.inventory (player pocketWorld)) k - n <=? 0 then None
         else Some (countOf (Player.inventory (player pocketWorld)) k - n)) /\
    (forall k, k ∉ [("wood", 2)].*1 ->
       inv' !! k = Player.inventory (player pocketWorld) !! k).
Proof.
  assert (NoDup [("wood", 2)].*1) as Hnd by (cbn; apply NoDup_singleton).
  split; [exact Hnd |].
  exact (consume_spec [("wood", 2)] pocketWorld Hnd).
Defined.

Lemma consume_keeps_counts_positive_witness :
  invPositive (Player.inventory (player pocketWorld)) /\
  exists w', consume [("lead", 6)] pocketWorld = Some (tt, w') /\
             invPositive (Player.inventory (player w')).
Proof.
  assert (invPositive (Player.inventory (player pocketWorld))) as Hpos.
  { intros k v Hk. cbn in Hk. rewrite lookup_empty in Hk. discriminate Hk. }
  split; [exact Hpos |].
  exact (consume_keeps_counts_positive [("lead", 6)] pocketWorld Hpos).
Defined.

Lemma clickCraft_spec_witness :
  Recipe.mk "wood_plank" "Wood Plank" [("wood", 2)]
    (consume [("wood", 2)] ;;; add "wood_plank" 1) ∈ RECIPES /\
  exists w',
    clickCraft (Recipe.mk "wood_plank" "Wood Plank" [("wood", 2)]
                  (consume [("wood", 2)] ;;; add "wood_plank" 1)) pocketWorld
      = Some (tt, w') /\
    w' = pocketWorld.
Proof.
  set (r := Recipe.mk "wood_plank" "Wood Plank" [("wood", 2)]
              (consume [("wood", 2)] ;;; add "wood_plank" 1)).
  assert (r ∈ RECIPES) as Hr by (do 4 right; left).
  split; [exact Hr |].
  destruct (clickCraft_spec r pocketWorld Hr) as (w' & Hrun & Hno & _).
  exists w'. split; [exact Hrun |]. apply Hno. reflexivity.
Defined.

(** ** Sessions *)

Lemma plainItems_spec (k : string) :
  k ∈ plainItems <->
  k = "wood" \/ k = "coal" \/ k = "dirt" \/ k = "stone" \/ k = "wood_plank".
Proof.
  unfold plainItems. rewrite !elem_of_cons, elem_of_nil. tauto.
Qed.

Lemma countOf_nonneg (inv : gmap string Z) (k : string) :
  invPositive inv -> 0 <= countOf inv k.
Proof.
  intros Hpos. unfold countOf. destruct (inv !! k) as [v|] eqn:E; cbn; [| lia].
  specialize (Hpos k v E). lia.
Qed.

Lemma countOf_absent (inv : gmap string Z) (k : string) :
  inv !! k = None -> countOf inv k = 0.
Proof. intros E. unfold countOf. rewrite E. reflexivity. Qed.

Lemma consumeInv_keys (req : list (string * Z)) (inv : gmap string Z) (k : string) :
  is_Some (consumeInv req inv !! k) -> k ∈ req.*1 \/ is_Some (inv !! k).
Proof.
  intros [v Hk]. unfold consumeInv in Hk. apply consume_delete in Hk as [Hk _].
  destruct (decide (k ∈ req.*1)) as [Hd|Hd]; [left; exact Hd | right].
  rewrite (consume_subtract_other _ _ _ Hd) in Hk. eexists; exact Hk.
Qed.

(** With plain items only, the one recipe that can be crafted is the
    plank. *)
Lemma craftable_is_plank (inv : gmap string Z) (r : Recipe.t) :
  (forall k, is_Some (inv !! k) -> k ∈ plainItems) ->
  r ∈ RECIPES -> canCraft inv (Recipe.requires r) = true ->
  r = Recipe.mk "wood_plank" "Wood Plank" [("wood", 2)]
        (consume [("wood", 2)] ;;; add "wood_plank" 1).
Proof.
  intros Hitems Hr Hcan.
  assert (forall k n, (k, n) ∈ Recipe.requires r -> 0 < n -> k ∈ plainItems) as Hreq.
  { intros k n Hin Hn. apply Hitems.
    pose proof (proj1 (canCraft_true _ _) Hcan k n Hin) as Hle.
    unfold countOf in Hle. destruct (inv !! k) as [v|]; [eexists; reflexivity |].
    cbn in Hle. lia. }
  repeat (apply elem_of_cons in Hr as [-> | Hr]); [.. | reflexivity | inversion Hr].
  all: exfalso; cbn in Hreq;
    match type of Hreq with
    | forall k n, (k, n) ∈ [(?k0, ?n0)] -> _ =>
        specialize (Hreq k0 n0 ltac:(left) ltac:(lia))
    end;
    apply plainItems_spec in Hreq; destruct Hreq as [H | [H | [H | [H | H]]]];
    discriminate H.
Qed.

Section SessionFacts.

Variable heightBase : Z -> Z -> Z -> Z.
Variable SEED : Z.

Local Abbreviation tickFrame' := (tickFrame heightBase SEED).
Local Abbreviation session' := (session heightBase SEED).

Lemma sessionInv_fresh cw ch : sessionInv (freshWorld cw ch).
Proof.
  unfold sessionInv. cbn.
  split; [apply storeOk_empty |].
  split; [intros k c Hk; rewrite lookup_empty in Hk; discriminate Hk |].
  split; [intros k v Hk; rewrite lookup_empty in Hk; discriminate Hk |].
  split; [intros k [v Hk]; rewrite lookup_empty in Hk; discriminate Hk |].
  split; [intros k c Hk; rewrite lookup_empty in Hk; discriminate Hk |].
  intros wx wy t Hin. inversion Hin.
Qed.

Lemma sessionInv_tickFrame w w' : tickFrame' w w' -> sessionInv w -> sessionInv w'.
Proof.
  intros (_ & _ & _ & _ & Hev & Hinv & _ & _ & G) (Hok & Hnc & Hpos & Hit & Hmod & Hevs).
  pose proof G as [K N].
  unfold sessionInv. rewrite Hev, Hinv.
  split; [exact (storeOk_grows _ _ _ _ G Hok) |].
  split.
  { intros k c [Hc | (cx & cy & _ & Hgen)]%N; [exact (Hnc _ _ Hc) |].
    destruct (generateChunk_returns heightBase SEED cx cy) as (c' & Hgen' & _ & Hno & _).
    congruence. }
  split; [exact Hpos |]. split; [exact Hit |].
  split.
  { intros k c [Hc | (cx & cy & _ & Hgen)]%N Hm; [exact (Hmod _ _ Hc Hm) |].
    destruct (generateChunk_returns heightBase SEED cx cy) as (c' & Hgen' & _ & _ & Hfalse).
    congruence. }
  intros wx wy t Hin. destruct (Hevs _ _ _ Hin) as (c & Hc & Hm).
  exists c. split; [exact (K _ _ Hc) | exact Hm].
Qed.

Lemma sessionInv_events w e :
  (forall wx wy t, e <> EvSetTile wx wy t) -> sessionInv w -> sessionInv (emit e w).
Proof.
  intros He (Hok & Hnc & Hpos & Hit & Hmod & Hevs). unfold sessionInv. cbn.
  repeat (split; [assumption |]). split.
  - intros k c Hc Hm. destruct (Hmod _ _ Hc Hm) as (wx & wy & t & Hin & Hk).
    exists wx, wy, t. split; [apply elem_of_app; left; exact Hin | exact Hk].
  - intros wx wy t [Hin | Hin%list_elem_of_singleton]%elem_of_app; [eauto |].
    exfalso. exact (He _ _ _ (eq_sym Hin)).
Qed.

Lemma sessionInv_setTile w wx wy t w' :
  t <> COPPER ->
  setTile heightBase SEED wx wy t w = Some (tt, w') -> sessionInv w -> sessionInv w'.
Proof.
  intros Ht (c & g & w1 & Hens & Hg & ->)%setTile_inv Hinv.
  apply ensureChunk_cached in Hens as (Hc%cached_tickFrame & _ & Hlook).
  apply (sessionInv_tickFrame _ _ Hc) in Hinv.
  apply sessionInv_events; [discriminate |].
  destruct Hinv as (Hok & Hnc & Hpos & Hit & Hmod & Hevs). unfold sessionInv. cbn.
  split; [apply storeOk_insert; [exact Hok | eapply setCell_square; [exact Hg |]; exact (Hok _ _ Hlook)] |].
  split.
  { intros k c0 Hk. destruct (decide (keyOf wx wy = k)) as [<-|Hne].
    - unfold keyOf in Hk. rewrite lookup_insert_eq in Hk. injection Hk as <-. cbn.
      exact (noCopper_setCell _ _ _ _ _ Hg Ht (Hnc _ _ Hlook)).
    - unfold keyOf in Hne. rewrite lookup_insert_ne in Hk by exact Hne. exact (Hnc _ _ Hk). }
  split; [exact Hpos |]. split; [exact Hit |].
  split.
  { intros k c0 Hk Hm. destruct (decide (keyOf wx wy = k)) as [<-|Hne].
    - exists wx, wy, t. split; [apply elem_of_app; right; left | reflexivity].
    - unfold keyOf in Hne. rewrite lookup_insert_ne in Hk by exact Hne.
      destruct (Hmod _ _ Hk Hm) as (x & y & t0 & Hin & Heq).
      exists x, y, t0. split; [apply elem_of_app; left; exact Hin | exact Heq]. }
  intros x y t0 [Hin | Hin%list_elem_of_singleton]%elem_of_app.
  - destruct (decide (keyOf wx wy = keyOf x y)) as [<-|Hne].
    + eexists. unfold keyOf. rewrite lookup_insert_eq. split; reflexivity.
    + destruct (Hevs _ _ _ Hin) as (c0 & Hc0 & Hm). exists c0.
      unfold keyOf in *. rewrite lookup_insert_ne by exact Hne. auto.
  - injection Hin as -> -> ->. eexists. unfold keyOf. rewrite lookup_insert_eq.
    split; reflexivity.
Qed.

Lemma sessionInv_inventory w inv' :
  invPositive inv' -> (forall k, is_Some (inv' !! k) -> k ∈ plainItems) ->
  sessionInv w -> sessionInv (set_player (Player.set_inventory inv' (player w)) w).
Proof.
  intros Hpos' Hit' (Hok & Hnc & _ & _ & Hmod & Hevs). unfold sessionInv. cbn.
  repeat (split; [assumption |]). exact Hevs.
Qed.

Lemma sessionInv_added w item :
  item ∈ plainItems -> sessionInv w -> sessionInv (added item w).
Proof.
  intros Hitem Hinv. unfold added, add, modify, worldAfter.
  apply sessionInv_events; [discriminate |].
  pose proof Hinv as (_ & _ & Hpos & Hit & _).
  apply sessionInv_inventory; [| | exact Hinv].
  - intros k v Hk. destruct (decide (item = k)) as [<-|Hne].
    + rewrite lookup_insert_eq in Hk. injection Hk as <-.
      pose proof (countOf_nonneg _ item Hpos). unfold countOf in *. lia.
    + rewrite lookup_insert_ne in Hk by exact Hne. exact (Hpos _ _ Hk).
  - intros k Hk. destruct (decide (item = k)) as [<-|Hne]; [exact Hitem |].
    rewrite lookup_insert_ne in Hk by exact Hne. exact (Hit _ Hk).
Qed.

Lemma sessionInv_tickMining w w' :
  tickMining heightBase SEED w = Some (tt, w') -> sessionInv w -> sessionInv w'.
Proof.
  intros [[_ ->] | (wx & wy & t & w0 & _ & _ & Hget & Hcase)]%tickMining_inv Hinv;
    [exact Hinv |].
  unfold getTile in Hget. apply bind_inv in Hget as (c & w0' & Hens & Hcell).
  apply liftOpt_inv in Hcell as [Hcell <-].
  apply ensureChunk_cached in Hens as (Hc%cached_tickFrame & _ & Hlook).
  apply (sessionInv_tickFrame _ _ Hc) in Hinv.
  destruct Hcase as [[_ ->] | (_ & w1 & Hset & ->)]; [exact Hinv |].
  assert (t <> COPPER) as Ht.
  { intros ->. destruct Hinv as (_ & Hnc & _). exact (Hnc _ _ Hlook _ _ Hcell). }
  assert (AIR <> COPPER) as Hair by discriminate.
  apply (sessionInv_setTile _ _ _ _ _ Hair Hset) in Hinv.
  destruct t; cbn [dropOf]; try exact Hinv; try (exfalso; apply Ht; reflexivity);
    apply sessionInv_added; try exact Hinv; apply plainItems_spec; auto.
Qed.

Lemma sessionInv_click w r w' :
  r ∈ RECIPES -> clickCraft r w = Some (tt, w') -> sessionInv w -> sessionInv w'.
Proof.
  intros Hr Hrun Hinv. unfold clickCraft, bind, get in Hrun.
  destruct (canCraft _ _) eqn:Hcan; [| injection Hrun as <-; exact Hinv].
  pose proof Hinv as (_ & _ & Hpos & Hit & _).
  rewrite (craftable_is_plank _ r Hit Hr Hcan) in Hrun. cbn [Recipe.craft] in Hrun.
  unfold bind, consume, modify in Hrun.
  change (Some (tt, added "wood_plank"
                      (set_player (Player.set_inventory
                                     (consumeInv [("wood", 2)] (Player.inventory (player w)))
                                     (player w)) w)) = Some (tt, w')) in Hrun.
  injection Hrun as <-.
  apply sessionInv_added; [apply plainItems_spec; auto |].
  apply sessionInv_inventory; [apply invPositive_consume; exact Hpos | | exact Hinv].
  intros k [Hk | Hk]%consumeInv_keys; [| exact (Hit _ Hk)].
  cbn in Hk. apply list_elem_of_singleton in Hk as ->. apply plainItems_spec; auto.
Qed.

Lemma session_sessionInv w : session' w -> sessionInv w.
Proof.
  induction 1 as [cw ch w Hrun | w m _ IH | w cw ch _ IH | w w' fuel keys dt drawn _ IH Hrun
                 | w w' _ IH Hrun | w w' r _ IH Hr Hrun | w w' _ IH Hrun].
  - apply respects_stream, cached_tickFrame in Hrun.
    exact (sessionInv_tickFrame _ _ Hrun (sessionInv_fresh cw ch)).
  - exact IH.
  - exact IH.
  - apply respects_gameStepRender in Hrun. exact (sessionInv_tickFrame _ _ Hrun IH).
  - exact (sessionInv_tickMining _ _ Hrun IH).
  - exact (sessionInv_click _ _ _ Hr Hrun IH).
  - injection Hrun as <-.
    apply (sessionInv_events (set_saveTimeout true w)); [discriminate | exact IH].
Qed.

(** [init()] returns: sessions exist. *)
Lemma session_starts cw ch :
  exists w, streamChunksAroundPlayer heightBase SEED (freshWorld cw ch) = Some (tt, w).
Proof.
  destruct (stream_spec heightBase SEED (freshWorld cw ch) 1 0) as ([] & w & Hrun & _).
  - apply storeOk_empty.
  - vm_compute. reflexivity.
  - vm_compute. reflexivity.
  - exists w. exact Hrun.
Qed.

End SessionFacts.

Lemma spawnWorld_session : session flatNoise 42 spawnWorld.
Proof.
  destruct (session_starts flatNoise 42 800 600) as (w & Hrun).
  apply (session_init flatNoise 42 800 600). unfold spawnWorld. rewrite Hrun. reflexivity.
Qed.

Lemma elem_of_writesOf (evs : list Event) (wx wy : Z) (t : Tile) :
  (wx, wy, t) ∈ writesOf evs <-> EvSetTile wx wy t ∈ evs.
Proof.
  unfold writesOf. rewrite list_elem_of_omap. split.
  - intros (e & Hin & He). destruct e; try discriminate He.
    injection He as -> -> ->. exact Hin.
  - intros Hin. exists (EvSetTile wx wy t). split; [exact Hin | reflexivity].
Qed.

Lemma modifiedTiles_lookup (m : gmap string Chunk) (k : string) (g : Grid) :
  modifiedTiles m !! k = Some g <->
  exists c, m !! k = Some c /\ modified c = true /\ tiles c = g.
Proof.
  unfold modifiedTiles. rewrite lookup_fmap, fmap_Some. split.
  - intros (c & [Hc Hm]%map_lookup_filter_Some & ->). exists c. auto.
  - intros (c & Hc & Hm & <-). exists c. split; [| reflexivity].
    apply map_lookup_filter_Some. auto.
Qed.

Section SessionTheorems.

Variable heightBase : Z -> Z -> Z -> Z.
Variable SEED : Z.

(** X15. No copper in the world of a session: at every place, cached
    or not, mined around or not, there is a tile and it is not COPPER. *)
Theorem session_world_has_no_copper (w : World) (x y : Z) :
  session heightBase SEED w ->
  exists t, tileAt heightBase SEED (chunks w) x y = Some t /\ t <> COPPER.
Proof.
  intros (Hok & Hnc & _)%session_sessionInv.
  destruct (tileAt_is_Some heightBase SEED (chunks w) x y Hok) as [t Ht].
  exists t. split; [exact Ht |]. intros ->.
  unfold tileAt, chunkAt in Ht.
  destruct (chunks w !! ck (chunkCoord x) (chunkCoord y)) as [c|] eqn:Hc; cbn in Ht.
  - exact (Hnc _ _ Hc _ _ Ht).
  - destruct (generateChunk_returns heightBase SEED (chunkCoord x) (chunkCoord y))
      as (c & Hgen & _ & Hno & _).
    rewrite Hgen in Ht. cbn in Ht. exact (Hno _ _ Ht).
Qed.

(** X16. The inventory of a session: every count is positive, the items
    are among wood, coal, dirt, stone and wood_plank, and so the only
    recipe whose button is ever enabled is the plank: the copper and
    lead recipes cannot be crafted. *)
Theorem session_inventory (w : World) :
  session heightBase SEED w ->
  invPositive (Player.inventory (player w)) /\
  (forall k, is_Some (Player.inventory (player w) !! k) -> k ∈ plainItems) /\
  (forall r, r ∈ RECIPES ->
     canCraft (Player.inventory (player w)) (Recipe.requires r) = true ->
     Recipe.id r = "wood_plank").
Proof.
  intros (_ & _ & Hpos & Hit & _)%session_sessionInv.
  split; [exact Hpos |]. split; [exact Hit |].
  intros r Hr Hcan. rewrite (craftable_is_plank _ r Hit Hr Hcan). reflexivity.
Qed.

(** X17. What a save sends in a session: nothing (status idle) as long
    as [setTile] has written no tile; otherwise a payload with the seed
    and, per key, the tiles of exactly the cached chunks in which
    [setTile] has written. The world is as before: no flag is
    cleared. *)
Theorem session_save_payload (w : World) :
  session heightBase SEED w ->
  (writesOf (events w) = [] -> saveWorldToServer SEED w = Some (SaveIdle, w)) /\
  (writesOf (events w) <> [] ->
     exists data,
       saveWorldToServer SEED w = Some (SavePost SEED data, w) /\
       forall k g,
         data !! k = Some g <->
         (exists c, chunks w !! k = Some c /\ tiles c = g) /\
         (exists wx wy t, (wx, wy, t) ∈ writesOf (events w) /\ k = keyOf wx wy)).
Proof.
  intros (_ & _ & _ & _ & Hmod & Hevs)%session_sessionInv.
  assert (forall k g, modifiedTiles (chunks w) !! k = Some g <->
            (exists c, chunks w !! k = Some c /\ tiles c = g) /\
            (exists wx wy t, (wx, wy, t) ∈ writesOf (events w) /\ k = keyOf wx wy)) as Hdata.
  { intros k g. rewrite modifiedTiles_lookup. split.
    - intros (c & Hc & Hm & Hg). split; [eauto |].
      destruct (Hmod _ _ Hc Hm) as (wx & wy & t & Hin & Hk).
      exists wx, wy, t. split; [apply elem_of_writesOf; exact Hin | exact Hk].
    - intros [(c & Hc & Hg) (wx & wy & t & Hin%elem_of_writesOf & ->)].
      destruct (Hevs _ _ _ Hin) as (c' & Hc' & Hm).
      exists c. split; [exact Hc |]. split; [congruence | exact Hg]. }
  unfold saveWorldToServer, bind, get. split.
  - intros Hnil. rewrite bool_decide_eq_true_2; [reflexivity |].
    apply map_empty. intros k.
    destruct (modifiedTiles (chunks w) !! k) as [g|] eqn:E; [| reflexivity].
    apply Hdata in E as [_ (wx & wy & t & Hin & _)].
    rewrite Hnil in Hin. inversion Hin.
  - intros Hne. rewrite bool_decide_eq_false_2.
    + exists (modifiedTiles (chunks w)). split; [reflexivity | exact Hdata].
    + intros Hempty. destruct (writesOf (events w)) as [|[[wx wy] t] l] eqn:E;
        [apply Hne; reflexivity |].
      assert (EvSetTile wx wy t ∈ events w) as Hin
        by (apply elem_of_writesOf; rewrite E; left).
      destruct (Hevs _ _ _ Hin) as (c & Hc & Hm).
      assert (modifiedTiles (chunks w) !! keyOf wx wy = Some (tiles c)) as Hl
        by (apply modifiedTiles_lookup; eauto).
      rewrite Hempty, lookup_empty in Hl. discriminate Hl.
Qed.

End SessionTheorems.

Lemma session_world_has_no_copper_witness :
  session flatNoise 42 spawnWorld /\
  exists t, tileAt flatNoise 42 (chunks spawnWorld) 5 17 = Some t /\ t <> COPPER.
Proof.
  split; [exact spawnWorld_session |].
  exact (session_world_has_no_copper flatNoise 42 spawnWorld 5 17 spawnWorld_session).
Defined.

Lemma session_inventory_witness :
  session flatNoise 42 spawnWorld /\
  invPositive (Player.inventory (player spawnWorld)) /\
  (forall k, is_Some (Player.inventory (player spawnWorld) !! k) -> k ∈ plainItems) /\
  (forall r, r ∈ RECIPES ->
     canCraft (Player.inventory (player spawnWorld)) (Recipe.requires r) = true ->
     Recipe.id r = "wood_plank").
Proof.
  split; [exact spawnWorld_session |].
  exact (session_inventory flatNoise 42 spawnWorld spawnWorld_session).
Defined.

Lemma session_save_payload_witness :
  session flatNoise 42 spawnWorld /\
  (writesOf (events spawnWorld) = [] ->
   saveWorldToServer 42 spawnWorld = Some (SaveIdle, spawnWorld)) /\
  (writesOf (events spawnWorld) <> [] ->
     exists data,
       saveWorldToServer 42 spawnWorld = Some (SavePost 42 data, spawnWorld) /\
       forall k g,
         data !! k = Some g <->
         (exists c, chunks spawnWorld !! k = Some c /\ tiles c = g) /\
         (exists wx wy t, (wx, wy, t) ∈ writesOf (events spawnWorld) /\ k = keyOf wx wy)).
Proof.
  split; [exact spawnWorld_session |].
  exact (session_save_payload flatNoise 42 spawnWorld spawnWorld_session).
Defined.

(** ** The shape of generated terrain *)

Lemma finite_choice (P : Z -> Z -> Prop) (n : nat) :
  (forall x, 0 <= x < Z.of_nat n -> exists u, P x u) ->
  exists f : Z -> Z, forall x, 0 <= x < Z.of_nat n -> P x (f x).
Proof.
  induction n as [|n IH]; intros H.
  - exists (fun _ => 0). intros x Hx. lia.
  - destruct IH as [f Hf]; [intros x Hx; apply H; lia |].
    destruct (H (Z.of_nat n)) as [u Hu]; [lia |].
    exists (fun x => if x =? Z.of_nat n then u else f x). intros x Hx.
    destruct (Z.eqb_spec x (Z.of_nat n)) as [-> | Hne]; [exact Hu | apply Hf; lia].
Qed.

Lemma shapeAt_layer (r y : Z) : shapeAt r y (layer r y).
Proof.
  unfold layer.
  destruct (Z.ltb_spec y r); [exact I |].
  destruct (Z.eqb_spec y r); [assumption |].
  destruct (Z.ltb_spec r y); destruct (Z.ltb_spec y (r + 4)); cbn; lia.
Qed.

Section ShapeFacts.

Variable rowOf : Z -> Z.

Local Abbreviation keeps := (keepsShape rowOf).

#[global] Instance keepsShape_preorder : PreOrder keeps.
Proof. split; [intros s H; exact H | intros s1 s2 s3 H1 H2 H; exact (H2 (H1 H))]. Qed.

Lemma respects_rng : respects keeps rng.
Proof.
  intros s u s' Hrun. unfold rng in Hrun. destruct (mulberry32 (gen_a s)) as [u' a'].
  injection Hrun as _ <-. intros H; exact H.
Qed.

Lemma respects_writeTile y x t :
  shapeAt (rowOf x) y t -> respects keeps (writeTile y x t).
Proof.
  intros Ht s [] s' Hrun Hsh. unfold writeTile in Hrun.
  destruct (setCell (gen_tiles s) y x t) as [g|] eqn:Hset; [| discriminate Hrun].
  injection Hrun as <-. cbn. intros y' x' t' Hcell.
  destruct (decide ((y', x') = (y, x))) as [[= -> ->]|Hne].
  - rewrite (cell_setCell_eq _ _ _ _ _ Hset) in Hcell. injection Hcell as <-. exact Ht.
  - rewrite (cell_setCell_ne _ _ _ _ _ _ _ Hset Hne) in Hcell. exact (Hsh _ _ _ Hcell).
Qed.

(** What is read stands where it may: the rest of the computation can
    rely on it. *)
Lemma respects_readTile {A} y x (k : Tile -> Gen A) :
  (forall t, shapeAt (rowOf x) y t -> respects keeps (k t)) ->
  respects keeps (t <- readTile y x ;; k t).
Proof.
  intros Hk s a s' (t & s1 & Hread & Hrun)%bind_inv Hsh.
  unfold readTile in Hread.
  destruct (cell (gen_tiles s) y x) as [t'|] eqn:Hcell; [| discriminate Hread].
  injection Hread as -> <-.
  exact (Hk t (Hsh _ _ _ Hcell) s a s' Hrun Hsh).
Qed.

End ShapeFacts.

Ltac shape_step :=
  lazymatch goal with
  | |- respects _ rng => apply respects_rng
  | |- respects _ (bind (readTile _ _) _) => apply respects_readTile; intros ? ?
  | |- respects _ (writeTile _ _ AIR) => apply respects_writeTile; exact I
  | |- respects _ (writeTile _ _ LEAVES) => apply respects_writeTile; exact I
  | |- respects _ (if teq ?t ?c then _ else _) =>
      let E := fresh "E" in
      destruct (teq t c) eqn:E; [apply bool_decide_eq_true in E; subst t |]
  | |- respects _ (if rlt ?u ?n ?d then _ else _) =>
      let E := fresh "E" in destruct (rlt u n d) eqn:E
  | _ => respects_step
  end.

Section GeneratorShape.

Variable heightBase : Z -> Z -> Z -> Z.
Variable rowOf : Z -> Z.

Local Abbreviation keeps := (keepsShape rowOf).

Lemma shape_carveDisc tx ty r : respects keeps (carveDisc tx ty r).
Proof. unfold carveDisc. repeat shape_step. Qed.

Lemma shape_drillUp tx ty : respects keeps (drillUp tx ty).
Proof. unfold drillUp. repeat shape_step. Qed.

Lemma shape_tunnel : respects keeps tunnel.
Proof.
  unfold tunnel. repeat shape_step; try apply shape_carveDisc; apply shape_drillUp.
Qed.

Lemma shape_caves : respects keeps caves.
Proof. unfold caves. repeat shape_step. apply shape_tunnel. Qed.

Lemma shape_ores : respects keeps ores.
Proof.
  unfold ores. repeat shape_step.
  - apply respects_writeTile. assumption.
  - match goal with
    | H : rlt _ 2 100 = false, H' : rlt _ 7 1000 = true |- _ =>
        rewrite (copper_branch_dead _ H) in H'; discriminate
    end.
Qed.

Lemma shape_growTree x y : y = rowOf x -> respects keeps (growTree x y).
Proof.
  intros Hy. unfold growTree. repeat shape_step.
  apply respects_writeTile. cbn.
  match goal with H : _ ∈ seqZ 1 _ |- _ => apply elem_of_seqZ in H end. lia.
Qed.

Lemma shape_trees : respects keeps trees.
Proof. unfold trees. repeat shape_step. apply shape_growTree. assumption. Qed.

Lemma shape_scene_carveDisc tx ty r : respects keeps (Scene.carveDisc tx ty r).
Proof. unfold Scene.carveDisc. repeat shape_step. Qed.

Lemma shape_scene_drillUp tx ty : respects keeps (Scene.drillUp tx ty).
Proof. unfold Scene.drillUp. repeat shape_step. Qed.

Lemma shape_scene_tunnel : respects keeps Scene.tunnel.
Proof.
  unfold Scene.tunnel.
  repeat shape_step; try apply shape_scene_carveDisc; apply shape_scene_drillUp.
Qed.

Lemma shape_scene_caves : respects keeps Scene.caves.
Proof. unfold Scene.caves. repeat shape_step. apply shape_scene_tunnel. Qed.

Lemma shape_scene_ores : respects keeps Scene.ores.
Proof.
  unfold Scene.ores. repeat shape_step.
  - apply respects_writeTile. assumption.
  - match goal with
    | H : rlt _ 2 100 = false, H' : rlt _ 7 1000 = true |- _ =>
        rewrite (copper_branch_dead _ H) in H'; discriminate
    end.
Qed.

Lemma shape_scene_growTree x y : y = rowOf x -> respects keeps (Scene.growTree x y).
Proof.
  intros Hy. unfold Scene.growTree. repeat shape_step.
  apply respects_writeTile. cbn.
  match goal with H : _ ∈ seqZ 1 _ |- _ => apply elem_of_seqZ in H end. lia.
Qed.

Lemma shape_scene_trees : respects keeps Scene.trees.
Proof. unfold Scene.trees. repeat shape_step. apply shape_scene_growTree. assumption. Qed.

End GeneratorShape.

Lemma cell_Some_inGrid (g : Grid) (y x : Z) (t : Tile) :
  square g -> cell g y x = Some t -> inGrid y x.
Proof.
  intros Hsq Hcell. unfold cell in Hcell.
  destruct ((0 <=? y) && (0 <=? x)) eqn:Hb; [| discriminate Hcell].
  apply andb_true_iff in Hb as [Hy%Z.leb_le Hx%Z.leb_le].
  destruct (g !! Z.to_nat y) as [row|] eqn:Hrow; [| discriminate Hcell]. cbn in Hcell.
  pose proof (lookup_lt_Some _ _ _ Hrow) as Hly.
  pose proof (lookup_lt_Some _ _ _ Hcell) as Hlx.
  rewrite (square_row g _ row Hsq Hrow) in Hlx. rewrite (proj1 Hsq) in Hly.
  unfold inGrid, CHUNK_SIZE in *. lia.
Qed.

(** The grid of the first pass is in shape, for the surface rows of its
    columns. *)
Lemma columnsDone_shaped (rowOf : Z -> Z -> Z) (s : GenState) :
  columnsDone rowOf CHUNK_SIZE s ->
  exists sampleOf : Z -> Z,
    (forall x, 0 <= x < CHUNK_SIZE -> 0 <= sampleOf x < 2 ^ 32) /\
    shaped (fun x => rowOf x (sampleOf x)) (gen_tiles s).
Proof.
  intros [Hsq Hcols].
  destruct (finite_choice
              (fun x u => 0 <= u < 2 ^ 32 /\
                          forall y, 0 <= y < CHUNK_SIZE ->
                                    cell (gen_tiles s) y x = Some (layer (rowOf x u) y))
              (Z.to_nat CHUNK_SIZE)) as [f Hf].
  { intros x Hx. apply Hcols. unfold CHUNK_SIZE in *. lia. }
  exists f. split.
  - intros x Hx. apply Hf. unfold CHUNK_SIZE in *. lia.
  - intros y x t Hcell.
    destruct (cell_Some_inGrid _ _ _ _ Hsq Hcell) as [Hy Hx].
    destruct (Hf x) as [_ Hlay]; [unfold CHUNK_SIZE in *; lia |].
    rewrite (Hlay y Hy) in Hcell. injection Hcell as <-. apply shapeAt_layer.
Qed.

Section ShapeTheorems.

Variable heightBase : Z -> Z -> Z -> Z.
Variable SEED : Z.
Variable sceneBase : Z -> Z -> Z -> Z.
Variable sceneSeed : string.

(** X18. The shape of a generated chunk (main.js). [generateChunk]
    returns a grid in which every column [x] has a surface row, the
    clamped value computed from the column's sample, and relative to
    it: GRASS stands on the surface row only, DIRT only on the three
    rows under it, STONE and COAL only from the fourth row under it on,
    WOOD only above it, and COPPER nowhere; AIR and LEAVES may stand
    anywhere. Caves, ores and trees never put a solid tile where the
    first pass had none, trunks apart. *)
Theorem generateChunk_shape (cx cy : Z) :
  exists c (sampleOf : Z -> Z),
    generateChunk heightBase SEED cx cy = Some c /\
    forall x, 0 <= x < CHUNK_SIZE ->
      0 <= sampleOf x < 2 ^ 32 /\
      4 <= surfaceRow heightBase cx cy x (sampleOf x) <= CHUNK_SIZE - 6 /\
      forall y, 0 <= y < CHUNK_SIZE ->
        exists t, cell (tiles c) y x = Some t /\
                  shapeAt (surfaceRow heightBase cx cy x (sampleOf x)) y t.
Proof.
  destruct (generateChunk_returns heightBase SEED cx cy) as (c & Hgen & Hsq & _).
  pose proof Hgen as Hrun. unfold generateChunk in Hrun.
  destruct (generatePasses heightBase cx cy (genInit SEED cx cy)) as [[[] s3]|] eqn:Hpasses;
    [| discriminate Hrun].
  injection Hrun as <-. cbn [tiles] in *.
  unfold generatePasses in Hpasses.
  apply bind_inv in Hpasses as ([] & s0 & H0 & Hpasses).
  apply bind_inv in Hpasses as ([] & s1 & H1 & Hpasses).
  apply bind_inv in Hpasses as ([] & s2 & H2 & H3).
  destruct (heightmapPass_spec heightBase cx cy (genInit SEED cx cy) square_emptyGrid)
    as ([] & s0' & H0' & Hcols).
  rewrite H0 in H0'. injection H0' as <-.
  destruct (columnsDone_shaped _ _ Hcols) as (sampleOf & Hu & Hshape).
  apply (shape_caves _ _ _ _ H1) in Hshape.
  apply (shape_ores _ _ _ _ H2) in Hshape.
  apply (shape_trees _ _ _ _ H3) in Hshape.
  eexists _, sampleOf. split; [exact Hgen |]. cbn [tiles].
  intros x Hx. split; [exact (Hu x Hx) |]. split; [apply surfaceRow_range |].
  intros y Hy. destruct (cell_is_Some (gen_tiles s3) y x Hsq (conj Hy Hx)) as [t Ht].
  exists t. split; [exact Ht |]. exact (Hshape _ _ _ Ht).
Qed.

(** X19. The same shape for the generator of WorldScene.ts, whose
    passes differ in their loop order, in the cave threshold and in the
    drill that opens a tunnel upward. *)
Theorem scene_generateChunk_shape (cx cy : Z) :
  exists g (sampleOf : Z -> Z),
    Scene.generateChunk sceneBase sceneSeed cx cy = Some g /\
    forall x, 0 <= x < CHUNK_SIZE ->
      0 <= sampleOf x < 2 ^ 32 /\
      4 <= Scene.surfaceRow sceneBase cx cy x (sampleOf x) <= CHUNK_SIZE - 6 /\
      forall y, 0 <= y < CHUNK_SIZE ->
        exists t, cell g y x = Some t /\
                  shapeAt (Scene.surfaceRow sceneBase cx cy x (sampleOf x)) y t.
Proof.
  destruct (scene_generateChunk_returns sceneBase sceneSeed cx cy) as (g & Hgen & Hsq & _).
  pose proof Hgen as Hrun. unfold Scene.generateChunk in Hrun.
  destruct (Scene.generatePasses sceneBase cx cy (Scene.genInit sceneSeed cx cy))
    as [[[] s3]|] eqn:Hpasses; [| discriminate Hrun].
  injection Hrun as <-.
  unfold Scene.generatePasses in Hpasses.
  apply bind_inv in Hpasses as ([] & s0 & H0 & Hpasses).
  apply bind_inv in Hpasses as ([] & s1 & H1 & Hpasses).
  apply bind_inv in Hpasses as ([] & s2 & H2 & H3).
  destruct (scene_heightmapPass_spec sceneBase cx cy (Scene.genInit sceneSeed cx cy)
              square_emptyGrid) as ([] & s0' & H0' & Hcols).
  rewrite H0 in H0'. injection H0' as <-.
  destruct (columnsDone_shaped _ _ Hcols) as (sampleOf & Hu & Hshape).
  apply (shape_scene_caves _ _ _ _ H1) in Hshape.
  apply (shape_scene_ores _ _ _ _ H2) in Hshape.
  apply (shape_scene_trees _ _ _ _ H3) in Hshape.
  eexists _, sampleOf. split; [exact Hgen |].
  intros x Hx. split; [exact (Hu x Hx) |]. split; [apply scene_surfaceRow_range |].
  intros y Hy. destruct (cell_is_Some (gen_tiles s3) y x Hsq (conj Hy Hx)) as [t Ht].
  exists t. split; [exact Ht |]. exact (Hshape _ _ _ Ht).
Qed.

End ShapeTheorems.

(** ** The scene of WorldScene.ts *)

Section SceneDrawFacts.

Variable heightBase : Z -> Z -> Z -> Z.
Variable seed : string.

Local Abbreviation cacheOk := (sceneCacheOk heightBase seed).

Lemma scene_ensureChunk_run m cx cy :
  cacheOk m ->
  exists g m',
    Scene.ensureChunk heightBase seed cx cy m = Some (g, m') /\
    Scene.generateChunk heightBase seed cx cy = Some g /\ square g /\
    m' !! ck cx cy = Some g /\ cacheOk m' /\
    (forall k g0, m !! k = Some g0 -> m' !! k = Some g0) /\
    (forall k, is_Some (m' !! k) -> is_Some (m !! k) \/ k = ck cx cy) /\
    (is_Some (m !! ck cx cy) -> m' = m).
Proof.
  intros Hok.
  destruct (scene_generateChunk_returns heightBase seed cx cy) as (g & Hgen & Hsq & _).
  unfold Scene.ensureChunk, bind at 1, get.
  destruct (m !! ck cx cy) as [g0|] eqn:Hk.
  - destruct (Hok _ _ Hk) as (cx' & cy' & [<- <-]%ck_inj & Hgen').
    assert (g0 = g) as -> by congruence.
    exists g, m. repeat (split; [first [reflexivity | assumption | auto] |]). reflexivity.
  - exists g, (<[ck cx cy := g]> m). unfold bind, liftOpt. rewrite Hgen. cbn.
    split; [reflexivity |]. split; [reflexivity |]. split; [exact Hsq |].
    split; [apply lookup_insert_eq |]. split; [| split; [| split]].
    + intros k g0 Hk0. destruct (decide (ck cx cy = k)) as [<-|Hne].
      * rewrite lookup_insert_eq in Hk0. injection Hk0 as <-. eauto.
      * rewrite lookup_insert_ne in Hk0 by exact Hne. exact (Hok _ _ Hk0).
    + intros k g0 Hk0. rewrite lookup_insert_ne; [exact Hk0 |]. intros <-. congruence.
    + intros k Hk0. destruct (decide (ck cx cy = k)) as [<-|Hne]; [right; reflexivity |].
      rewrite lookup_insert_ne in Hk0 by exact Hne. left; exact Hk0.
    + intros [? ?]; discriminate.
Qed.

Lemma scene_paint_run (g : Grid) (m : gmap string Grid) :
  square g -> Scene.paint g m = Some (paintedOf g, m).
Proof.
  intros Hsq. unfold Scene.paint, paintedOf.
  destruct (loop_collect (fun m' : gmap string Grid => m' = m)
              (fun y => x ← seqZ 0 CHUNK_SIZE;
                        match cell g y x with
                        | Some t => if negb (teq t AIR)
                                    then [(x * TILE_SIZE, y * TILE_SIZE, Scene.tileColors t)]
                                    else []
                        | None => []
                        end)
              (seqZ 0 CHUNK_SIZE)
              (fun y painted =>
                 painted <- loop (seqZ 0 CHUNK_SIZE) painted (fun x painted =>
                              t <- liftOpt (cell g y x) ;;
                              if negb (teq t AIR)
                              then ret (Next (painted ++
                                   [(x * TILE_SIZE, y * TILE_SIZE, Scene.tileColors t)]))
                              else ret (Next painted)) ;;
                 ret (Next painted))) with (acc := @nil (Z * Z * string)) (s := m)
    as (m' & Hrun & ->); [| reflexivity | exact Hrun].
  intros y acc s Hy%elem_of_seqZ ->.
  destruct (loop_collect (fun m' : gmap string Grid => m' = m)
              (fun x => match cell g y x with
                        | Some t => if negb (teq t AIR)
                                    then [(x * TILE_SIZE, y * TILE_SIZE, Scene.tileColors t)]
                                    else []
                        | None => []
                        end)
              (seqZ 0 CHUNK_SIZE)
              (fun x painted =>
                 t <- liftOpt (cell g y x) ;;
                 if negb (teq t AIR)
                 then ret (Next (painted ++
                      [(x * TILE_SIZE, y * TILE_SIZE, Scene.tileColors t)]))
                 else ret (Next painted))) with (acc := acc) (s := m)
    as (m' & Hrun & ->); [| reflexivity |].
  - intros x acc0 s Hx%elem_of_seqZ ->.
    destruct (cell_is_Some g y x Hsq) as [t Ht]; [split; lia |].
    exists m. split; [| reflexivity]. unfold bind, liftOpt. rewrite Ht.
    destruct (negb (teq t AIR)); cbn; rewrite ?app_nil_r; reflexivity.
  - exists m. split; [| reflexivity]. unfold bind at 1. rewrite Hrun. reflexivity.
Qed.

End SceneDrawFacts.

Lemma length_bind_const {A B} (f : A -> list B) (l : list A) (n : nat) :
  (forall a, a ∈ l -> length (f a) = n) -> length (a ← l; f a) = (n * length l)%nat.
Proof.
  induction l as [|a l IH]; intros H; cbn; [lia |].
  rewrite length_app, (H a) by left.
  rewrite IH by (intros b Hb; apply H; right; exact Hb). lia.
Qed.

Section SceneTheorems.

Variable heightBase : Z -> Z -> Z -> Z.
Variable seed : string.

(** X20. [WorldScene.ensureChunk] is a memo of [generateChunk]: on a
    cache that holds generated chunks only (the empty one, to begin
    with) it returns the chunk generation gives for [(cx, cy)], cached or
    not; the cache still holds generated chunks only, keeps what it
    held, gains at most the key asked for, and a second call returns the
    same chunk and changes nothing. *)
Theorem scene_ensureChunk_memo (m : gmap string Grid) (cx cy : Z) :
  sceneCacheOk heightBase seed m ->
  exists g m',
    Scene.ensureChunk heightBase seed cx cy m = Some (g, m') /\
    Scene.generateChunk heightBase seed cx cy = Some g /\
    sceneCacheOk heightBase seed m' /\
    (forall k g0, m !! k = Some g0 -> m' !! k = Some g0) /\
    (forall k, is_Some (m' !! k) -> is_Some (m !! k) \/ k = ck cx cy) /\
    Scene.ensureChunk heightBase seed cx cy m' = Some (g, m').
Proof.
  intros Hok.
  destruct (scene_ensureChunk_run heightBase seed m cx cy Hok)
    as (g & m' & Hrun & Hgen & _ & Hk & Hok' & Hkeep & Hnew & _).
  exists g, m'. repeat (split; [assumption |]).
  destruct (scene_ensureChunk_run heightBase seed m' cx cy Hok')
    as (g2 & m2 & Hrun2 & Hgen2 & _ & _ & _ & _ & _ & Hsame).
  rewrite Hrun2. rewrite (Hsame ltac:(eexists; exact Hk)).
  do 2 f_equal. congruence.
Qed.

(** X21. What [drawVisibleChunks] shows depends on the seed and the
    camera only, not on what was drawn before: on a cache of generated
    chunks it returns the 25 images of the chunks around the camera's
    chunk, row by row, each painted from the chunk generation gives,
    its cells that are not AIR filled with their colours; the cache
    still holds generated chunks only, and keeps what it held. *)
Theorem scene_draw_window (m : gmap string Grid) (camPixelX camPixelY : Z) :
  sceneCacheOk heightBase seed m ->
  exists images m',
    Scene.drawVisibleChunks heightBase seed camPixelX camPixelY m = Some (images, m') /\
    images =
      (cy ← seqZ (camPixelY / TILE_SIZE / CHUNK_SIZE - VISIBLE_RANGE) (2 * VISIBLE_RANGE + 1);
       cx ← seqZ (camPixelX / TILE_SIZE / CHUNK_SIZE - VISIBLE_RANGE) (2 * VISIBLE_RANGE + 1);
       imageOf heightBase seed cx cy) /\
    length images = 25%nat /\
    sceneCacheOk heightBase seed m' /\
    (forall k g0, m !! k = Some g0 -> m' !! k = Some g0).
Proof.
  intros Hok.
  set (Inv := fun m' : gmap string Grid =>
                sceneCacheOk heightBase seed m' /\
                forall k g0, m !! k = Some g0 -> m' !! k = Some g0).
  assert (Inv m) as HI0 by (split; [exact Hok | auto]).
  assert (forall cx cy, exists img, imageOf heightBase seed cx cy = [img]) as Himg.
  { intros cx cy. unfold imageOf.
    destruct (scene_generateChunk_returns heightBase seed cx cy) as (g & -> & _).
    eexists; reflexivity. }
  unfold Scene.drawVisibleChunks. cbv zeta.
  destruct (loop_collect Inv
              (fun cy => cx ← seqZ (camPixelX / TILE_SIZE / CHUNK_SIZE - VISIBLE_RANGE)
                                   (2 * VISIBLE_RANGE + 1);
                         imageOf heightBase seed cx cy)
              (seqZ (camPixelY / TILE_SIZE / CHUNK_SIZE - VISIBLE_RANGE)
                    (2 * VISIBLE_RANGE + 1))
              (fun cy images =>
                 images <- loop (seqZ (camPixelX / TILE_SIZE / CHUNK_SIZE - VISIBLE_RANGE)
                                      (2 * VISIBLE_RANGE + 1)) images
                             (fun cx images =>
                                tiles <- Scene.ensureChunk heightBase seed cx cy ;;
                                painted <- Scene.paint tiles ;;
                                ret (Next (images ++
                                  [Scene.mkImage
                                     ("chunk_" +:+ JS.numToString cx +:+ "_" +:+
                                      JS.numToString cy)
                                     (cx * CHUNK_SIZE * TILE_SIZE + (CHUNK_SIZE * TILE_SIZE) / 2)
                                     (cy * CHUNK_SIZE * TILE_SIZE + (CHUNK_SIZE * TILE_SIZE) / 2)
                                     painted]))) ;;
                 ret (Next images))) with (acc := @nil Scene.Image) (s := m)
    as (m' & Hrun & [Hok' Hkeep]); [| exact HI0 |].
  - intros cy acc s _ HI.
    destruct (loop_collect Inv
                (fun cx => imageOf heightBase seed cx cy)
                (seqZ (camPixelX / TILE_SIZE / CHUNK_SIZE - VISIBLE_RANGE)
                      (2 * VISIBLE_RANGE + 1))
                (fun cx images =>
                   tiles <- Scene.ensureChunk heightBase seed cx cy ;;
                   painted <- Scene.paint tiles ;;
                   ret (Next (images ++
                     [Scene.mkImage
                        ("chunk_" +:+ JS.numToString cx +:+ "_" +:+ JS.numToString cy)
                        (cx * CHUNK_SIZE * TILE_SIZE + (CHUNK_SIZE * TILE_SIZE) / 2)
                        (cy * CHUNK_SIZE * TILE_SIZE + (CHUNK_SIZE * TILE_SIZE) / 2)
                        painted])))) with (acc := acc) (s := s)
      as (s' & Hrun & HI'); [| exact HI |].
    + intros cx acc0 s0 _ [Hok0 Hkeep0].
      destruct (scene_ensureChunk_run heightBase seed s0 cx cy Hok0)
        as (g & s1 & Hens & Hgen & Hsq & _ & Hok1 & Hkeep1 & _).
      exists s1. split; [| split; [exact Hok1 | auto]].
      unfold bind at 1. rewrite Hens.
      unfold bind at 1. rewrite (scene_paint_run g s1 Hsq).
      unfold imageOf. rewrite Hgen. reflexivity.
    + exists s'. split; [| exact HI']. unfold bind at 1. rewrite Hrun. reflexivity.
  - eexists _, m'. split; [exact Hrun |]. split; [reflexivity |].
    split; [| split; [exact Hok' | exact Hkeep]].
    cbn [app]. rewrite (length_bind_const _ _ 5).
    + rewrite length_seqZ. reflexivity.
    + intros cy _. rewrite (length_bind_const _ _ 1).
      * rewrite length_seqZ. reflexivity.
      * intros cx _. destruct (Himg cx cy) as [img ->]. reflexivity.
Qed.

End SceneTheorems.

Lemma scene_ensureChunk_memo_witness :
  sceneCacheOk flatNoise "42" ∅ /\
  exists g m',
    Scene.ensureChunk flatNoise "42" 0 0 ∅ = Some (g, m') /\
    Scene.generateChunk flatNoise "42" 0 0 = Some g /\
    sceneCacheOk flatNoise "42" m' /\
    (forall k g0, (∅ : gmap string Grid) !! k = Some g0 -> m' !! k = Some g0) /\
    (forall k, is_Some (m' !! k) -> is_Some ((∅ : gmap string Grid) !! k) \/ k = ck 0 0) /\
    Scene.ensureChunk flatNoise "42" 0 0 m' = Some (g, m').
Proof.
  assert (sceneCacheOk flatNoise "42" ∅) as Hok
    by (intros k g Hk; rewrite lookup_empty in Hk; discriminate Hk).
  split; [exact Hok |].
  exact (scene_ensureChunk_memo flatNoise "42" ∅ 0 0 Hok).
Defined.

Lemma scene_draw_window_witness :
  sceneCacheOk flatNoise "42" ∅ /\
  exists images m',
    Scene.drawVisibleChunks flatNoise "42" 0 0 ∅ = Some (images, m') /\
    images =
      (cy ← seqZ (0 / TILE_SIZE / CHUNK_SIZE - VISIBLE_RANGE) (2 * VISIBLE_RANGE + 1);
       cx ← seqZ (0 / TILE_SIZE / CHUNK_SIZE - VISIBLE_RANGE) (2 * VISIBLE_RANGE + 1);
       imageOf flatNoise "42" cx cy) /\
    length images = 25%nat /\
    sceneCacheOk flatNoise "42" m' /\
    (forall k g0, (∅ : gmap string Grid) !! k = Some g0 -> m' !! k = Some g0).
Proof.
  assert (sceneCacheOk flatNoise "42" ∅) as Hok
    by (intros k g Hk; rewrite lookup_empty in Hk; discriminate Hk).
  split; [exact Hok |].
  exact (scene_draw_window flatNoise "42" ∅ 0 0 Hok).
Defined.
